(** * Net Effective Rent calculator (src/App.jsx): calculation engine

    A shallow embedding of the numeric core of the React component [App]:
    the tolerant parser [P], the guards [clamp] and [safe], the NER chain,
    the fit-out synchronisation effect, the waterfall fold and the
    scenario calculator [calcScenarioNER].

    JavaScript numbers are IEEE 754 binary64 values; they are modelled by
    Rocq's primitive [float], which is the same format with the same
    round-to-nearest-even operations, so every definition below can be
    evaluated on concrete inputs.  Strings are sequences of code units
    (one [ascii] per unit, i.e. the Latin-1 range of UTF-16).  The form
    state [f] and the scenario overrides are JavaScript objects used as
    maps from field names to strings: [gmap string string]. *)

From Stdlib Require Import ZArith Floats Lia Ascii String List.
From stdpp Require Import gmap strings.

Set Warnings "-inexact-float".

Local Open Scope Z_scope.

(* ================================================================== *)
(** * The JavaScript built-ins used by the component *)
(* ================================================================== *)

Module JS.

(** ** Numbers *)

(** [Number.isFinite(n)] *)
Definition isFinite (n : float) : bool := is_finite n.

(** [Math.max(a, b)]: NaN if either argument is NaN, and [+0] counts as
    larger than [-0]. *)
Definition max (a b : float) : float :=
  match (a ?= b)%float with
  | FNotComparable => nan
  | FLt => b
  | FGt => a
  | FEq => if get_sign a then b else a
  end.

(** [Math.abs(x)] *)
Definition abs (x : float) : float := PrimFloat.abs x.

(** [a > b] on numbers *)
Definition gt (a b : float) : bool := (b <? a)%float.

(** The binary64 value nearest to the integer [z] (sign of zero [neg]). *)
Definition of_Z (neg : bool) (z : Z) : float :=
  SF2Prim (binary_normalize prec emax z 0 neg).

(** [Math.floor(x)]: the largest integral value not above [x]; NaN, the
    infinities and both zeros are returned unchanged. *)
Definition floor (x : float) : float :=
  match Prim2SF x with
  | S754_finite s m e =>
      if 0 <=? e then x
      else
        let q := Z.shiftr (Zpos m) (- e) in
        if Z.shiftl q (- e) =? Zpos m then x
        else if s then of_Z true (- (q + 1)) else of_Z false q
  | _ => x
  end.

(** ** Strings *)

(** The code units matched by the regular expression class [\s] (and
    removed by [String.prototype.trim]) in the Latin-1 range: TAB, LF, VT,
    FF, CR, SPACE and NBSP. *)
Definition is_white (c : ascii) : bool :=
  let n := nat_of_ascii c in
  ((9 <=? n)%nat && (n <=? 13)%nat) || (n =? 32)%nat || (n =? 160)%nat.

Fixpoint trim_start (s : string) : string :=
  match s with
  | String c s' => if is_white c then trim_start s' else s
  | EmptyString => EmptyString
  end.

(** Drops trailing white space: a white unit is kept only when something
    that is kept follows it. *)
Fixpoint trim_end (s : string) : string :=
  match s with
  | String c s' =>
      match trim_end s' with
      | EmptyString => if is_white c then EmptyString else String c EmptyString
      | r => String c r
      end
  | EmptyString => EmptyString
  end.

(** [s.trim()] *)
Definition trim (s : string) : string := trim_end (trim_start s).

(** [s.replace(/\s/g, "")] *)
Fixpoint remove_white (s : string) : string :=
  match s with
  | String c s' => if is_white c then remove_white s' else String c (remove_white s')
  | EmptyString => EmptyString
  end.

(** [s.includes(c)] for a one-unit needle *)
Fixpoint includes (c : ascii) (s : string) : bool :=
  match s with
  | String d s' => if Ascii.eqb d c then true else includes c s'
  | EmptyString => false
  end.

(** [(s.match(/c/g) || []).length]: the number of occurrences of [c] *)
Fixpoint match_count (c : ascii) (s : string) : nat :=
  match s with
  | String d s' => if Ascii.eqb d c then S (match_count c s') else match_count c s'
  | EmptyString => O
  end.

(** [s.replace(c, d)] with a string pattern: only the first occurrence *)
Fixpoint replace_first (c d : ascii) (s : string) : string :=
  match s with
  | String x s' => if Ascii.eqb x c then String d s' else String x (replace_first c d s')
  | EmptyString => EmptyString
  end.

(** [s.replace(/c/g, "")]: every occurrence deleted *)
Fixpoint remove_all (c : ascii) (s : string) : string :=
  match s with
  | String x s' => if Ascii.eqb x c then remove_all c s' else String x (remove_all c s')
  | EmptyString => EmptyString
  end.

(** ** [parseFloat]

    [parseFloat(string)] reads the longest prefix of the trimmed string
    that is a [StrDecimalLiteral]: an optional sign, then [Infinity], or
    decimal digits with an optional fraction and an optional exponent
    part; the result is NaN when no prefix qualifies.  What follows the
    prefix is ignored. *)

Inductive numeral :=
| NumNaN
| NumInfinity (neg : bool)
| NumDecimal (neg : bool) (m : Z) (e10 : Z).   (* (-1)^neg * m * 10^e10 *)

Definition digit_val (c : ascii) : option Z :=
  let n := nat_of_ascii c in
  if (48 <=? n)%nat && (n <=? 57)%nat then Some (Z.of_nat n - 48) else None.

(** The longest run of decimal digits at the head of [s]: the value read
    (continuing from [acc]), the number of digits, and the rest. *)
Fixpoint read_digits (s : string) (acc : Z) (cnt : nat) : Z * nat * string :=
  match s with
  | String c s' =>
      match digit_val c with
      | Some d => read_digits s' (10 * acc + d) (S cnt)
      | None => (acc, cnt, s)
      end
  | EmptyString => (acc, cnt, s)
  end.

(** [ExponentPart], when present and complete; otherwise 0. *)
Definition read_exponent (s : string) : Z :=
  match s with
  | String c s' =>
      if Ascii.eqb c "e" || Ascii.eqb c "E" then
        let '(neg, s'') :=
          match s' with
          | String "+" r => (false, r)
          | String "-" r => (true, r)
          | _ => (false, s')
          end in
        let '(v, n, _) := read_digits s'' 0 0 in
        if (n =? 0)%nat then 0 else if neg then - v else v
      else 0
  | EmptyString => 0
  end.

Definition lex_unsigned (neg : bool) (s : string) : numeral :=
  if String.prefix "Infinity" s then NumInfinity neg
  else
    let '(i, ni, r1) := read_digits s 0 0 in
    match r1 with
    | String "." r2 =>
        let '(m, nf, r3) := read_digits r2 i 0 in
        if (ni =? 0)%nat && (nf =? 0)%nat then NumNaN
        else NumDecimal neg m (read_exponent r3 - Z.of_nat nf)
    | _ => if (ni =? 0)%nat then NumNaN else NumDecimal neg i (read_exponent r1)
    end.

Definition lex (s : string) : numeral :=
  match trim_start s with
  | String "+" r => lex_unsigned false r
  | String "-" r => lex_unsigned true r
  | r => lex_unsigned false r
  end.

(** The binary64 value nearest to [(-1)^neg * m * 10^e10] (ties to even),
    for [m >= 0].  The two tests on [e10] only avoid building enormous
    powers of ten: from [10^401] on the result is an infinity, and below
    [10^-400] (as [m < 2^(log2 m + 1) <= 10^(log2 m + 1)]) it is a zero in
    any case. *)
Definition of_decimal (neg : bool) (m e10 : Z) : float :=
  SF2Prim
    (if m =? 0 then S754_zero neg
     else if 0 <=? e10 then
       if 400 <? e10 then S754_infinity neg
       else binary_normalize prec emax (cond_Zopp neg (m * 10 ^ e10)) 0 neg
     else if e10 + Z.log2 m + 1 <? -400 then S754_zero neg
     else
       let '(q, e', l) := SFdiv_core_binary prec emax m 0 (10 ^ (- e10)) 0 in
       binary_round_aux prec emax neg q e' l).

Definition numeral_value (n : numeral) : float :=
  match n with
  | NumNaN => nan
  | NumInfinity neg => if neg then neg_infinity else infinity
  | NumDecimal neg m e10 => of_decimal neg m e10
  end.

Definition parseFloat (s : string) : float := numeral_value (lex s).

(** ** [String(x)] for a number [x] ([Number::toString], radix 10)

    The digits are those of the shortest decimal [s * 10^(n-k)], with [k]
    digits, that converts back to [x]; among two candidates of the same
    length the one nearer to [x] is taken. *)

Fixpoint Z_digits_aux (fuel : nat) (z : Z) (acc : string) : string :=
  match fuel with
  | O => acc
  | S fuel' =>
      let acc' := String (ascii_of_nat (48 + Z.to_nat (z mod 10))) acc in
      if z <? 10 then acc' else Z_digits_aux fuel' (z / 10) acc'
  end.

(** The decimal digits of [z >= 0]. *)
Definition Z_digits (z : Z) : string :=
  Z_digits_aux (S (Z.to_nat (Z.log2 z))) z EmptyString.

Fixpoint zeros (n : nat) : string :=
  match n with O => EmptyString | S n' => String "0" (zeros n') end.

(** [N / D < 10^n] *)
Definition below_pow10 (N D n : Z) : bool :=
  if 0 <=? n then N <? 10 ^ n * D else N * 10 ^ (- n) <? D.

(** The least [n], searching upwards from [n], with [N / D < 10^n]. *)
Fixpoint decimal_exponent (fuel : nat) (N D n : Z) : Z :=
  match fuel with
  | O => n
  | S fuel' => if below_pow10 N D n then n else decimal_exponent fuel' N D (n + 1)
  end.

(** [s * 10^e10] converts to [x]. *)
Definition digits_ok (x : float) (s e10 : Z) : bool :=
  (of_decimal false s e10 =? x)%float.

(** Searches [k = k0, k0+1, ...] for a [k]-digit [s] such that
    [s * 10^(n-k)] converts to [x], where [x = N / D > 0] exactly and
    [10^(n-1) <= x < 10^n]: the candidates are the two [k]-digit decimals
    around [x] ([10^k], when the upper one reaches it, is [1 * 10^n]); of
    two that convert the nearer to [x] is taken, the even one on a tie.
    The result is the pair [(s, n-k)]. *)
Fixpoint shortest (fuel : nat) (x : float) (N D n k : Z) : option (Z * Z) :=
  match fuel with
  | O => None
  | S fuel' =>
      let '(A, B) :=
        if 0 <=? k - n then (N * 10 ^ (k - n), D) else (N, D * 10 ^ (n - k)) in
      let lo := A / B in
      let r := A mod B in
      let hi := if lo + 1 =? 10 ^ k then (1, n) else (lo + 1, n - k) in
      let ok_lo := digits_ok x lo (n - k) in
      let ok_hi := digits_ok x hi.1 hi.2 in
      let lo_nearer := (2 * r <? B) || ((2 * r =? B) && Z.even lo) in
      if ok_lo && (lo_nearer || negb ok_hi) then Some (lo, n - k)
      else if ok_hi then Some hi
      else shortest fuel' x N D n (k + 1)
  end.

(** The exact decimal expansion of [m * 2^e]. *)
Definition exact_decimal (m : positive) (e : Z) : Z * Z :=
  if 0 <=? e then (Zpos m * 2 ^ e, 0) else (Zpos m * 5 ^ (- e), e).

Fixpoint str_take (n : nat) (s : string) : string :=
  match n, s with
  | S n', String c s' => String c (str_take n' s')
  | _, _ => EmptyString
  end.

Fixpoint str_drop (n : nat) (s : string) : string :=
  match n, s with
  | S n', String _ s' => str_drop n' s'
  | _, _ => s
  end.

(** The text of [s * 10^e10] for [s > 0] with [k] digits, [n = e10 + k]:
    plain digits for [k <= n <= 21], a decimal point inside or in front of
    the digits for [-6 < n < k], and exponent notation otherwise. *)
Definition format_decimal (s e10 : Z) : string :=
  let ds := Z_digits s in
  let k := Z.of_nat (String.length ds) in
  let n := e10 + k in
  if (k <=? n) && (n <=? 21) then ds +:+ zeros (Z.to_nat (n - k))
  else if (0 <? n) && (n <=? 21) then
    str_take (Z.to_nat n) ds +:+ "." +:+ str_drop (Z.to_nat n) ds
  else if (-6 <? n) && (n <=? 0) then "0." +:+ zeros (Z.to_nat (- n)) +:+ ds
  else
    let e := n - 1 in
    let mant :=
      if k =? 1 then ds else str_take 1 ds +:+ "." +:+ str_drop 1 ds in
    mant +:+ "e" +:+ (if e <? 0 then "-" else "+") +:+ Z_digits (Z.abs e).

(** The digits and decimal exponent that [Number::toString] prints for the
    finite [x > 0] with [Prim2SF x = S754_finite false m e].  Seventeen
    digits always suffice for a binary64 number; the exact expansion stands
    behind the search. *)
Definition decimal_of (x : float) (m : positive) (e : Z) : Z * Z :=
  let N := Zpos m * 2 ^ Z.max e 0 in
  let D := 2 ^ Z.max (- e) 0 in
  let n0 := decimal_exponent 8 N D ((Z.log2 N - Z.log2 D) * 1233 / 4096 - 2) in
  match shortest 17 x N D n0 1 with
  | Some d => d
  | None => exact_decimal m e
  end.

Definition toString (x : float) : string :=
  match Prim2SF x with
  | S754_nan => "NaN"
  | S754_zero _ => "0"
  | S754_infinity s => if s then "-Infinity" else "Infinity"
  | S754_finite sg m e =>
      let '(s, e10) := decimal_of (PrimFloat.abs x) m e in
      ((if sg then "-" else "") +:+ format_decimal s e10)%string
  end.

End JS.

(* ================================================================== *)
(** * Arithmetic of the engine *)
(* ================================================================== *)

(** The formulas of the component are written once, over the operations
    they use; [float], binary64, is the arithmetic the program runs on. *)
Class Arith (A : Type) := {
  add : A -> A -> A;
  sub : A -> A -> A;
  mul : A -> A -> A;
  div : A -> A -> A;
  max : A -> A -> A;          (* Math.max *)
  gt : A -> A -> bool;        (* a > b *)
  isFinite : A -> bool;       (* Number.isFinite *)
  num0 : A;                   (* 0 *)
  num1 : A;                   (* 1 *)
  num100 : A;                 (* 100 *)
  eps : A                     (* 1e-9 *)
}.

Declare Scope arith_scope.
Delimit Scope arith_scope with ar.
Infix "+" := add : arith_scope.
Infix "-" := sub : arith_scope.
Infix "*" := mul : arith_scope.
Infix "/" := div : arith_scope.

#[export] Instance float_arith : Arith float := {|
  add := PrimFloat.add;
  sub := PrimFloat.sub;
  mul := PrimFloat.mul;
  div := PrimFloat.div;
  max := JS.max;
  gt := JS.gt;
  isFinite := JS.isFinite;
  num0 := 0%float;
  num1 := 1%float;
  num100 := 100%float;
  eps := 1e-9%float
|}.

(* ================================================================== *)
(** * UTILS *)
(* ================================================================== *)

(** The form state [f] and a scenario's [overrides]: objects whose
    properties hold the raw text of the inputs.  A missing property reads
    as [undefined], here [None]. *)
Abbreviation form := (gmap string string).

(** [const clamp = (n, min = 0) => (Number.isFinite(n) ? Math.max(min, n) : 0)] *)
Definition clamp (n : float) (min : float) : float :=
  if JS.isFinite n then JS.max min n else 0%float.

(** [const safe = (n) => (Number.isFinite(n) ? n : 0)] *)
Definition safe {A} `{Arith A} (n : A) : A :=
  if isFinite n then n else num0.

(** [const P = (v) => { ... }]; the argument is a property read, so a
    string or [undefined]. *)
Definition P (v : option string) : float :=
  let s := JS.remove_white (JS.trim (default EmptyString v)) in
  let hasDot := JS.includes "." s in
  let c := JS.match_count "," s in
  let s := if negb hasDot && (c =? 1)%nat
           then JS.replace_first "," "." s
           else JS.remove_all "," s in
  let n := JS.parseFloat s in
  if JS.isFinite n then n else 0%float.

(** [a ?? b] on property reads *)
Definition nullish (a b : option string) : option string :=
  match a with Some _ => a | None => b end.

(* ================================================================== *)
(** * APP: calculations *)
(* ================================================================== *)

(** The parsed and guarded inputs of one render. *)
Record Inputs (A : Type) := mkInputs {
  nla : A;
  addon : A;
  rent : A;
  duration : A;
  rf : A;
  agent : A;
  unforeseen : A;
  perNLA : A;
  perGLA : A;
  tot : A;
  fitMode : option string
}.
Arguments mkInputs {A}.
Arguments nla {A}. Arguments addon {A}. Arguments rent {A}.
Arguments duration {A}. Arguments rf {A}. Arguments agent {A}.
Arguments unforeseen {A}. Arguments perNLA {A}. Arguments perGLA {A}.
Arguments tot {A}. Arguments fitMode {A}.

(** [const nla = clamp(P(f.nla)); ... const tot = clamp(P(f.fitTot));] *)
Definition guard (f : form) : Inputs float := {|
  nla := clamp (P (f !! "nla")) 0;
  addon := clamp (P (f !! "addon")) 0;
  rent := clamp (P (f !! "rent")) 0;
  duration := JS.max 0 (JS.floor (P (f !! "duration")));
  rf := clamp (P (f !! "rf")) 0;
  agent := clamp (P (f !! "agent")) 0;
  unforeseen := clamp (P (f !! "unforeseen")) 0;
  perNLA := clamp (P (f !! "fitPerNLA")) 0;
  perGLA := clamp (P (f !! "fitPerGLA")) 0;
  tot := clamp (P (f !! "fitTot")) 0;
  fitMode := f !! "fitMode"
|}.

(** The values derived from the inputs in one render. *)
Record Chain (A : Type) := mkChain {
  gla : A;
  months : A;
  gross : A;
  totalFit : A;
  agentFees : A;
  denom : A;
  ner1 : A;
  ner2 : A;
  ner3 : A;
  ner4 : A
}.
Arguments mkChain {A}.
Arguments gla {A}. Arguments months {A}. Arguments gross {A}.
Arguments totalFit {A}. Arguments agentFees {A}. Arguments denom {A}.
Arguments ner1 {A}. Arguments ner2 {A}. Arguments ner3 {A}. Arguments ner4 {A}.

Section Engine.
Context {A : Type} `{Arith A}.
Local Open Scope arith_scope.

(** The constants [gla] ... [ner4] of the component body, in order. *)
Definition computeChain (p : Inputs A) : Chain A :=
  let gla := nla p * (num1 + addon p / num100) in
  let months := max num0 (duration p - rf p) in
  let gross := rent p * gla * months in
  let totalFit :=
    if bool_decide (fitMode p = Some "perNLA"%string) then perNLA p * nla p
    else if bool_decide (fitMode p = Some "perGLA"%string) then perGLA p * gla
    else tot p in
  let agentFees := agent p * rent p * gla in
  let denom := max eps (duration p * gla) in
  let ner1 := gross / denom in
  let ner2 := (gross - totalFit) / denom in
  let ner3 := (gross - totalFit - agentFees) / denom in
  let ner4 := (gross - totalFit - agentFees - unforeseen p) / denom in
  mkChain gla months gross totalFit agentFees denom ner1 ner2 ner3 ner4.

(** One entry of [wfData]. *)
Record WaterfallStep := mkStep {
  name : string;
  base : A;
  delta : A;
  isTotal : bool
}.

(** The waterfall data: [cur] is threaded through the six pushes. *)
Definition wfData (rent ner1 ner2 ner3 ner4 : A) : list WaterfallStep :=
  let dRF := safe (ner1 - rent) in
  let dFO := safe (ner2 - ner1) in
  let dAF := safe (ner3 - ner2) in
  let dUC := safe (ner4 - ner3) in
  let cur := safe rent in
  let s0 := mkStep "Headline" num0 cur true in
  let s1 := mkStep "RF" cur dRF false in
  let cur := cur + dRF in
  let s2 := mkStep "FO" cur dFO false in
  let cur := cur + dFO in
  let s3 := mkStep "AF" cur dAF false in
  let cur := cur + dAF in
  let s4 := mkStep "UC" cur dUC false in
  let cur := cur + dUC in
  let s5 := mkStep "Final NER" num0 cur true in
  [s0; s1; s2; s3; s4; s5].

(** The waterfall of one render. *)
Definition waterfall (p : Inputs A) : list WaterfallStep :=
  let c := computeChain p in
  wfData (rent p) (ner1 c) (ner2 c) (ner3 c) (ner4 c).
End Engine.

Arguments WaterfallStep A : clear implicits.
Arguments mkStep {A}.
Arguments name {A}. Arguments base {A}. Arguments delta {A}. Arguments isTotal {A}.

(** The chain the component computes from the form state. *)
Definition App_chain (f : form) : Chain float := computeChain (guard f).

(** The waterfall data the component computes from the form state. *)
Definition App_wfData (f : form) : list (WaterfallStep float) := waterfall (guard f).

Local Open Scope float_scope.

(** ** Sync Fit-outs

    The effect calls [S(k)(String(x))] for each derived field that
    differs from its stored value by more than [1e-9].  [S(k)(v)] queues
    the update [s => ({ ...s, [k]: v })]; the values [nla] and [gla] are
    those of the render the effect belongs to. *)

(** [Math.abs(x - y) > 1e-9] *)
Definition differs (x y : float) : bool := JS.gt (JS.abs (x - y)) 1e-9.

Definition syncDerived (f : form) : list (string * float) :=
  let nla := nla (guard f) in
  let gla := gla (App_chain f) in
  let nNLA := clamp (P (f !! "fitPerNLA")) 0 in
  let nGLA := clamp (P (f !! "fitPerGLA")) 0 in
  let nTot := clamp (P (f !! "fitTot")) 0 in
  if bool_decide (f !! "fitMode" = Some "perNLA"%string) then
    let t := nNLA * nla in
    let g := if JS.gt gla 0 then t / gla else 0 in
    (if differs t nTot then [("fitTot"%string, t)] else []) ++
    (if differs g nGLA then [("fitPerGLA"%string, g)] else [])
  else if bool_decide (f !! "fitMode" = Some "perGLA"%string) then
    let t := nGLA * gla in
    let n := if JS.gt nla 0 then t / nla else 0 in
    (if differs t nTot then [("fitTot"%string, t)] else []) ++
    (if differs n nNLA then [("fitPerNLA"%string, n)] else [])
  else
    let n := if JS.gt nla 0 then nTot / nla else 0 in
    let g := if JS.gt gla 0 then nTot / gla else 0 in
    (if differs n nNLA then [("fitPerNLA"%string, n)] else []) ++
    (if differs g nGLA then [("fitPerGLA"%string, g)] else []).

(** The queued updates [(k, String(x))] of one run of the effect. *)
Definition syncFitOuts (f : form) : list (string * string) :=
  (fun kx => (kx.1, JS.toString kx.2)) <$> syncDerived f.

(** [setF] applied to the queued updates, in order. *)
Definition setF (updates : list (string * string)) (f : form) : form :=
  fold_left (fun s kv => <[kv.1 := kv.2]> s) updates f.

(** The form state after one run of the effect. *)
Definition reconcile (f : form) : form := setF (syncFitOuts f) f.

(** ** Scenarios *)

(** [calcScenarioNER(vals)], with the form state [f] of the closure. *)
Definition calcScenarioNER (f vals : form) : float :=
  let rd k := nullish (vals !! k) (f !! k) in
  let nlaS := clamp (P (rd "nla"%string)) 0 in
  let addonS := clamp (P (rd "addon"%string)) 0 in
  let glaS := nlaS * (1 + addonS / 100) in
  let rentS := clamp (P (rd "rent"%string)) 0 in
  let durationS := JS.max 0 (JS.floor (P (rd "duration"%string))) in
  let rfS := clamp (P (rd "rf"%string)) 0 in
  let agentS := clamp (P (rd "agent"%string)) 0 in
  let unforeseenS := clamp (P (rd "unforeseen"%string)) 0 in
  let monthsS := JS.max 0 (durationS - rfS) in
  let grossS := rentS * glaS * monthsS in
  let perNLAS := clamp (P (rd "fitPerNLA"%string)) 0 in
  let fitS := perNLAS * nlaS in
  let agentFeesS := agentS * rentS * glaS in
  let denomS := JS.max 1e-9 (durationS * glaS) in
  (grossS - fitS - agentFeesS - unforeseenS) / denomS.

(** A scenario: [{ id, overrides }]. *)
Record Scenario := mkScenario { id : Z; overrides : form }.

(** [scenarios.map((sc) => { const vals = { ...f, ...sc.overrides };
    return { id: sc.id, ner: calcScenarioNER(vals) }; })] *)
Definition scenarioView (f : form) (scenarios : list Scenario) : list (Z * float) :=
  (fun sc => let vals := overrides sc ∪ f in (id sc, calcScenarioNER f vals)) <$> scenarios.

(** The initial form state of the component. *)
Definition f_init : form :=
  list_to_map
    [("tenant", ""); ("nla", "1000"); ("addon", "5.00"); ("rent", "15.00");
     ("duration", "60"); ("rf", "5.0"); ("agent", "2.0"); ("fitMode", "perNLA");
     ("fitPerNLA", "300.00"); ("fitPerGLA", ""); ("fitTot", "300000.00");
     ("unforeseen", "0")]%string.

(** The initial scenarios of the component. *)
Definition scenarios_init : list Scenario :=
  [mkScenario 2 ∅; mkScenario 3 ∅; mkScenario 4 ∅].

(** ** Component state *)

(** The two pieces of state the calculations read: [f] and [scenarios]. *)
Record AppState := mkState { st_f : form; st_scenarios : list Scenario }.

(** [S(k)(v)]: [setF((s) => ({ ...s, [k]: v }))] *)
Definition S_ (k v : string) (st : AppState) : AppState :=
  mkState (<[k := v]> (st_f st)) (st_scenarios st).

(** [setScenarioVal(id, key, value)] *)
Definition setScenarioVal (i : Z) (key value : string) (st : AppState) : AppState :=
  mkState (st_f st)
    ((fun sc => if bool_decide (id sc = i)
                then mkScenario (id sc) (<[key := value]> (overrides sc))
                else sc) <$> st_scenarios st).

(** What one render shows of the final NER: the baseline's [ner4] and
    the scenario row. *)
Definition finalRow (st : AppState) : float * list (Z * float) :=
  (ner4 (App_chain (st_f st)), scenarioView (st_f st) (st_scenarios st)).

(* ================================================================== *)
(** * The parser as the specification words it *)
(* ================================================================== *)

(** Strip white space; with no dot and exactly one comma, that comma is
    the decimal point; otherwise every comma is a thousands separator and
    is dropped; read the result as a number, 0 when it is not finite. *)
Definition parse_spec (text : string) : float :=
  let cs := List.filter (fun c => negb (JS.is_white c)) (list_ascii_of_string text) in
  let dots := count_occ ascii_dec cs "."%char in
  let commas := count_occ ascii_dec cs ","%char in
  let cs' :=
    if (dots =? 0)%nat && (commas =? 1)%nat
    then List.map (fun c => if Ascii.eqb c "," then "."%char else c) cs
    else List.filter (fun c => negb (Ascii.eqb c ",")) cs in
  let x := JS.parseFloat (string_of_list_ascii cs') in
  if is_finite x then x else 0.

(* ================================================================== *)
(** * Vocabulary of the statements *)
(* ================================================================== *)

(** The number the component reads from the stored field [k]:
    [clamp(P(f[k]))]. *)
Definition stored (f : form) (k : string) : float := clamp (P (f !! k)) 0.

(** The two derived fields of the current mode with the values the
    effect derives for them from the authoritative field. *)
Definition derivedFields (f : form) : list (string * float) :=
  let nla := nla (guard f) in
  let gla := gla (App_chain f) in
  if bool_decide (f !! "fitMode" = Some "perNLA"%string) then
    let t := stored f "fitPerNLA" * nla in
    [("fitTot"%string, t); ("fitPerGLA"%string, if JS.gt gla 0 then t / gla else 0)]
  else if bool_decide (f !! "fitMode" = Some "perGLA"%string) then
    let t := stored f "fitPerGLA" * gla in
    [("fitTot"%string, t); ("fitPerNLA"%string, if JS.gt nla 0 then t / nla else 0)]
  else
    let t := stored f "fitTot" in
    [("fitPerNLA"%string, if JS.gt nla 0 then t / nla else 0);
     ("fitPerGLA"%string, if JS.gt gla 0 then t / gla else 0)].

(** A number survives being stored: written with [String] and read
    again with [P] and [clamp], it is the same number. *)
Definition reads_back (x : float) : Prop :=
  clamp (P (Some (JS.toString x))) 0 = x.

(** ** Form states used as examples *)

(** The initial state with a per-GLA field that is within [1e-9] of the
    derived value 285.7142857142857 but not equal to it. *)
Definition f_stale : form := <["fitPerGLA" := "285.7142857147"]> f_init.

(** A state whose derived fit-out total overflows. *)
Definition f_overflow : form :=
  <["nla" := "1e200"]> (<["fitPerNLA" := "1e200"]> f_init).

(** No area, and an unforeseen cost of 100. *)
Definition f_no_area : form :=
  <["nla" := "0"]> (<["unforeseen" := "100"]> f_init).

(** Area and rent so large that the gross rent overflows. *)
Definition f_huge : form :=
  <["nla" := "1e308"]> (<["rent" := "1e308"]> f_init).


(** A very large fit-out rate and unforeseen cost. *)
Definition f_large_costs : form :=
  <["fitPerNLA" := "2000000000"]> (<["unforeseen" := "10000000000000"]> f_init).

(** A rent of about four million and an unforeseen cost of about twice
    the gross rent. *)
Definition f_moderate_costs : form :=
  <["nla" := "100"]> (<["rent" := "4197200"]> (<["rf" := "0"]>
    (<["unforeseen" := "51994681082"]> f_init))).

(* ================================================================== *)
(** * Bars, scenario table and input fields *)
(* ================================================================== *)

(** ** Bars *)

(** One entry of [nerBars] after the [.map]: the bar height [sqm] and the
    percent deviation from the headline rent, [null] (here [None]) when
    there is none. *)
Record Bar := mkBar {
  bar_name : string;
  sqm : float;
  pct : option float;
  color : string
}.

(** [rent > 0 ? ((val - rent) / rent) * 100 : null], then
    [Number.isFinite(d.pct) ? d.pct : null]. *)
Definition barPct (rent val : float) : option float :=
  let pct := if JS.gt rent 0 then Some ((val - rent) / rent * 100) else None in
  match pct with
  | Some x => if JS.isFinite x then Some x else None
  | None => None
  end.

(** [const nerBars = [ ... ].map((d) => ({ name: d.label, sqm: safe(d.val),
    pct: Number.isFinite(d.pct) ? d.pct : null, color: d.color }))] *)
Definition nerBars (rent ner1 ner2 ner3 ner4 : float) : list Bar :=
  [mkBar "Headline" (safe rent) None "#065f46";
   mkBar "NER 1" (safe ner1) (barPct rent ner1) "#1e3a8a";
   mkBar "NER 2" (safe ner2) (barPct rent ner2) "#2563eb";
   mkBar "NER 3" (safe ner3) (barPct rent ner3) "#3b82f6";
   mkBar "Final" (safe ner4) (barPct rent ner4) "#60a5fa"]%string.

(** The bars the component computes from the form state. *)
Definition App_nerBars (f : form) : list Bar :=
  let c := App_chain f in
  nerBars (rent (guard f)) (ner1 c) (ner2 c) (ner3 c) (ner4 c).

(** ** Scenario table *)

(** [resolveScenario(sc, key)]: [v !== undefined ? v : f[key]] with
    [v = sc.overrides[key]]. *)
Definition resolveScenario (f : form) (sc : Scenario) (key : string) : option string :=
  match overrides sc !! key with
  | Some v => Some v
  | None => f !! key
  end.

(** ** Input fields *)

(** The code units kept by [value.replace(/[^\d.,-]/g, "")]: decimal
    digits, dot, comma and minus. *)
Definition is_input_char (c : ascii) : bool :=
  let n := nat_of_ascii c in
  ((48 <=? n)%nat && (n <=? 57)%nat) || (n =? 46)%nat || (n =? 44)%nat || (n =? 45)%nat.

(** [onChange] of [NumericField] and [ScenarioField]: what reaches the
    state when the user types [text]. *)
Fixpoint typed (text : string) : string :=
  match text with
  | String c s => if is_input_char c then String c (typed s) else typed s
  | EmptyString => EmptyString
  end.

(** [onKeyDown] of [NumericField] for ArrowUp ([up = true]) and ArrowDown:
    [String(clamp(P(value) + delta, min))]. *)
Definition arrowKey (step min : float) (up : bool) (value : option string) : string :=
  let delta := if up then step else (- step) in
  JS.toString (clamp (P value + delta) min).

(** [onBlur] of [NumericField]: [String(clamp(P(e.target.value), min))]. *)
Definition blur (min : float) (value : string) : string :=
  JS.toString (clamp (P (Some value)) min).

(** The text [P] hands to [parseFloat]. *)
Definition P_text (v : option string) : string :=
  let s := JS.remove_white (JS.trim (default EmptyString v)) in
  if negb (JS.includes "." s) && (JS.match_count "," s =? 1)%nat
  then JS.replace_first "," "." s
  else JS.remove_all "," s.

(** Whether [s] consists of input characters only. *)
Fixpoint only_input_chars (s : string) : bool :=
  match s with
  | String c s' => is_input_char c && only_input_chars s'
  | EmptyString => true
  end.

(** The eight fields the scenario calculation reads. *)
Definition scenario_keys : list string :=
  ["nla"; "addon"; "rent"; "duration"; "rf"; "agent"; "unforeseen"; "fitPerNLA"]%string.

(** The ten fields the baseline calculation reads, and the mode. *)
Definition chain_keys : list string :=
  ["nla"; "addon"; "rent"; "duration"; "rf"; "agent"; "unforeseen";
   "fitPerNLA"; "fitPerGLA"; "fitTot"; "fitMode"]%string.

(** ** Signs *)

(** A number that is not negative: a zero of either sign, a positive
    finite number, [+Infinity], or NaN. *)
Definition not_neg_SF (x : spec_float) : bool :=
  match x with
  | S754_finite true _ _ | S754_infinity true => false
  | _ => true
  end.

(** ** Digit strings *)

(** Whether [s] consists of decimal digits only. *)
Fixpoint all_digits (s : string) : bool :=
  match s with
  | String c s' => match JS.digit_val c with Some _ => all_digits s' | None => false end
  | EmptyString => true
  end.

(** The number the leading digits of [s] spell, continuing from [acc]. *)
Fixpoint digits_value (s : string) (acc : Z) : Z :=
  match s with
  | String c s' =>
      match JS.digit_val c with
      | Some d => digits_value s' (10 * acc + d)%Z
      | None => acc
      end
  | EmptyString => acc
  end.

(** Whether [s] does not begin with a digit. *)
Definition no_digit_head (s : string) : bool :=
  match s with
  | String c _ => match JS.digit_val c with Some _ => false | None => true end
  | EmptyString => true
  end.

(** Whether [s] has neither white space nor a comma. *)
Fixpoint plain (s : string) : bool :=
  match s with
  | String c s' => negb (JS.is_white c) && negb (Ascii.eqb c ",") && plain s'
  | EmptyString => true
  end.

(** Nothing, or an exponent part. *)
Definition exp_tail (E : string) : Prop :=
  E = EmptyString \/ exists E', E = String "e" E'.

(** [+0], a positive finite number, [+Infinity] or NaN. *)
Definition plus_SF (x : spec_float) : bool :=
  match x with
  | S754_zero false | S754_finite false _ _ | S754_infinity false | S754_nan => true
  | _ => false
  end.

(** ** The effective parameter set of a scenario *)

(** The form holding, for each of [keys], what [r] resolves it to. *)
Definition collect (r : string -> option string) (keys : list string) : form :=
  foldr (fun k (m : form) => match r k with Some v => <[k := v]> m | None => m end)
        ∅ keys.

(** For each of the eight keys the override when the key is present, the
    baseline text otherwise. *)
Definition effective (f ov : form) : form :=
  collect (fun k => match ov !! k with Some v => Some v | None => f !! k end)
          scenario_keys.


(** ** Rounding *)

(** Where [N / D] lies in [[m, m + 1)]. *)
Definition loc_of (m N D : Z) : location :=
  if (N =? m * D)%Z then loc_Exact else loc_Inexact (2 * N ?= (2 * m + 1) * D)%Z.

(** [m] is the integer part of [N / D >= 0] and [l] its location. *)
Definition inb (m : Z) (l : location) (N D : Z) : Prop :=
  (0 < D)%Z /\ (0 <= m)%Z /\ (m * D <= N < (m + 1) * D)%Z /\ l = loc_of m N D.

(** The float of [m * 2^E], for a mantissa and exponent of the format. *)
Definition fin (s : bool) (m : positive) (E : Z) : spec_float :=
  if (E <=? emax - prec)%Z then S754_finite s m E else S754_infinity s.

(** The same number with the sign [s]. *)
Definition with_sign (s : bool) (x : spec_float) : spec_float :=
  match x with
  | S754_zero _ => S754_zero s
  | S754_infinity _ => S754_infinity s
  | S754_finite _ m e => S754_finite s m e
  | S754_nan => S754_nan
  end.


(** The value of a finite number of the format, as an integer number of
    units of [2^-1074], the smallest positive number; [0] for the others. *)
Definition Zv (x : spec_float) : Z :=
  match x with
  | S754_finite s m e => cond_Zopp s (Z.pos m * 2 ^ (e + 1074))%Z
  | _ => 0%Z
  end.

Definition SFfinite (x : spec_float) : bool :=
  match x with S754_zero _ | S754_finite _ _ _ => true | _ => false end.

Definition Zf (x : float) : Z := Zv (Prim2SF x).

(* ================================================================== *)
(** * Facts about binary64 values *)
(* ================================================================== *)

(** Only what the special values (zeros, infinities, NaN) and the
    comparisons do is needed; nothing here depends on how an operation
    rounds. *)
Section FloatFacts.

Lemma SFcompare_refl (x : spec_float) :
  SFcompare x x = match x with S754_nan => None | _ => Some Eq end.
Proof.
  destruct x as [s|s| |s m e]; simpl; try reflexivity.
  - by destruct s.
  - rewrite Z.compare_refl, Pos.compare_cont_refl. by destruct s.
Qed.

Lemma is_nan_SF (x : float) :
  is_nan x = match Prim2SF x with S754_nan => true | _ => false end.
Proof.
  unfold is_nan. rewrite FloatAxioms.eqb_spec. unfold SFeqb. rewrite SFcompare_refl.
  by destruct (Prim2SF x).
Qed.

Lemma is_infinity_SF (x : float) :
  is_infinity x = match Prim2SF x with S754_infinity _ => true | _ => false end.
Proof.
  unfold is_infinity. rewrite FloatAxioms.eqb_spec, abs_spec.
  change (Prim2SF infinity) with (S754_infinity false).
  by destruct (Prim2SF x) as [s|s| |s m e].
Qed.

Lemma is_finite_SF (x : float) :
  is_finite x =
  match Prim2SF x with S754_zero _ | S754_finite _ _ _ => true | _ => false end.
Proof.
  unfold is_finite. rewrite is_nan_SF, is_infinity_SF.
  by destruct (Prim2SF x).
Qed.

Lemma eqb_zero_SF (x : float) :
  (x =? 0) = match Prim2SF x with S754_zero _ => true | _ => false end.
Proof.
  rewrite FloatAxioms.eqb_spec. change (Prim2SF 0) with (S754_zero false).
  by destruct (Prim2SF x) as [s|s| |s m e]; try destruct s.
Qed.


Lemma SFcompare_antisym (x y : spec_float) :
  SFcompare y x = option_map CompOpp (SFcompare x y).
Proof.
  destruct x as [s|s| |s m e], y as [s'|s'| |s' m' e']; simpl;
    try reflexivity; try (by destruct s); try (by destruct s');
    try (by destruct s, s').
  rewrite (Z.compare_antisym e e').
  destruct s, s'; simpl; try reflexivity;
    destruct (e ?= e')%Z; simpl; try reflexivity;
    by rewrite (Pos.compare_cont_antisym m m' Eq).
Qed.

Lemma compare_SF (x y : float) :
  (x ?= y) = flatten_cmp_opt (SFcompare (Prim2SF x) (Prim2SF y)).
Proof. apply FloatAxioms.compare_spec. Qed.

(** [Math.max] when the second argument is the larger one. *)
Lemma max_le (a b : float) :
  (a <=? b) = true -> (JS.max a b =? b) = true.
Proof.
  rewrite FloatAxioms.leb_spec. unfold SFleb, JS.max. rewrite compare_SF.
  destruct (SFcompare (Prim2SF a) (Prim2SF b)) as [[ | | ]|] eqn:E; simpl; try discriminate; intros _.
  - destruct (get_sign a).
    + rewrite FloatAxioms.eqb_spec. unfold SFeqb. rewrite SFcompare_refl.
      destruct (Prim2SF b); try reflexivity.
      by destruct (Prim2SF a).
    + rewrite FloatAxioms.eqb_spec. unfold SFeqb. by rewrite E.
  - rewrite FloatAxioms.eqb_spec. unfold SFeqb. rewrite SFcompare_refl.
    destruct (Prim2SF b); try reflexivity.
    by destruct (Prim2SF a).
Qed.

(** [Math.max] when the first argument is strictly larger. *)
Lemma max_gt (a b : float) :
  (b <? a) = true -> JS.max a b = a.
Proof.
  rewrite FloatAxioms.ltb_spec. unfold SFltb, JS.max. rewrite compare_SF, (SFcompare_antisym (Prim2SF b) (Prim2SF a)).
  by destruct (SFcompare (Prim2SF b) (Prim2SF a)) as [[ | | ]|].
Qed.

(** [Math.max] is NaN as soon as one argument is. *)
Lemma max_nan_l (a b : float) : is_nan a = true -> JS.max a b = nan.
Proof.
  rewrite is_nan_SF. unfold JS.max. rewrite compare_SF.
  by destruct (Prim2SF a).
Qed.


Lemma is_zero_SF (x : float) :
  is_zero x = match Prim2SF x with S754_zero _ => true | _ => false end.
Proof. apply eqb_zero_SF. Qed.

Lemma Prim2SF_eps : Prim2SF 1e-9 = S754_finite false 4835703278458517 (-82).
Proof. reflexivity. Qed.

(** Zero times any finite number is zero. *)
Lemma mul_zero_l (x y : float) :
  is_zero x = true -> is_finite y = true -> is_zero (x * y) = true.
Proof.
  rewrite !is_zero_SF, is_finite_SF, mul_spec.
  by destruct (Prim2SF x), (Prim2SF y).
Qed.

Lemma mul_zero_r (x y : float) :
  is_finite x = true -> is_zero y = true -> is_zero (x * y) = true.
Proof.
  rewrite !is_zero_SF, is_finite_SF, mul_spec.
  by destruct (Prim2SF x), (Prim2SF y).
Qed.

(** The difference of two zeros is a zero. *)
Lemma sub_zero (x y : float) :
  is_zero x = true -> is_zero y = true -> is_zero (x - y) = true.
Proof.
  rewrite !is_zero_SF, sub_spec.
  by destruct (Prim2SF x) as [[]|[]| |], (Prim2SF y) as [[]|[]| |].
Qed.

(** Zero divided by the floor [1e-9] of the denominator is zero. *)
Lemma div_zero_eps (x : float) :
  is_zero x = true -> is_zero (x / 1e-9) = true.
Proof.
  rewrite !is_zero_SF, div_spec, Prim2SF_eps.
  by destruct (Prim2SF x).
Qed.

(** [Math.max(1e-9, z)] for a zero [z]. *)
Lemma max_eps_zero (z : float) :
  is_zero z = true -> JS.max 1e-9 z = 1e-9.
Proof.
  rewrite is_zero_SF. unfold JS.max. rewrite compare_SF, Prim2SF_eps.
  by destruct (Prim2SF z).
Qed.

(** No number is more than [1e-9] away from itself: [x - x] is a zero
    or NaN. *)
Lemma not_differs_self (x : float) :
  JS.gt (JS.abs (x - x)) 1e-9 = false.
Proof.
  unfold JS.gt, JS.abs.
  rewrite FloatAxioms.ltb_spec, abs_spec, sub_spec, Prim2SF_eps.
  destruct (Prim2SF x) as [[]|[]| |s m e]; try reflexivity.
  unfold SF64sub, SFsub. rewrite Z.sub_diag. reflexivity.
Qed.

End FloatFacts.

(* ================================================================== *)
(** * Guard utilities *)
(* ================================================================== *)

(** [P] and [clamp] always return a finite number. *)
Lemma P_finite (v : option string) : is_finite (P v) = true.
Proof.
  unfold P, JS.isFinite.
  destruct (is_finite (JS.parseFloat _)) eqn:E; [exact E | reflexivity].
Qed.

(** C9 (as amended): for every number [n] and every minimum [min],
    [clamp(n, min)] is [Math.max(min, n)] when [n] is finite: it is [n]
    when [n >= min], [min] when [n < min], and NaN when [min] is NaN.  When
    [n] is not finite it is 0, whatever [min] is. *)
Theorem clamp_spec (n min : float) :
  (is_finite n = false -> clamp n min = 0) /\
  (is_finite n = true -> (min <=? n) = true -> (clamp n min =? n) = true) /\
  (is_finite n = true -> (n <? min) = true -> clamp n min = min) /\
  (is_finite n = true -> is_nan min = true -> is_nan (clamp n min) = true).
Proof.
  unfold clamp, JS.isFinite. repeat split; intros Hn.
  - by rewrite Hn.
  - rewrite Hn. apply max_le.
  - rewrite Hn. apply max_gt.
  - rewrite Hn. intros Hm. by rewrite (max_nan_l _ _ Hm).
Qed.

Lemma clamp_spec_witness :
  clamp infinity 5 = 0 /\ (clamp 7 5 =? 7) = true /\
  clamp 3 5 = 5 /\ is_nan (clamp 3 nan) = true.
Proof.
  split; [ apply (clamp_spec infinity 5); reflexivity | ].
  split; [ apply (clamp_spec 7 5); reflexivity | ].
  split; [ apply (clamp_spec 3 5); reflexivity | ].
  apply (clamp_spec 3 nan); reflexivity.
Defined.

(** C9 fails as stated: a non-finite [n] with [min = 5] yields 0, not
    [min]. *)
Lemma clamp_nonfinite_not_min :
  is_finite infinity = false /\ clamp infinity 5 = 0 /\ clamp infinity 5 <> 5.
Proof.
  split; [reflexivity|]. split; [reflexivity|].
  intros H. assert (E : (clamp infinity 5 =? 5) = true) by (rewrite H; reflexivity).
  vm_compute in E. discriminate E.
Qed.

(* ================================================================== *)
(** * The parser *)
(* ================================================================== *)

Section ParserFacts.

Local Abbreviation chars := list_ascii_of_string.
Local Abbreviation text := string_of_list_ascii.

Lemma remove_white_trim_start (s : string) :
  JS.remove_white (JS.trim_start s) = JS.remove_white s.
Proof.
  induction s as [|c s IH]; simpl; [reflexivity|].
  destruct (JS.is_white c) eqn:E; [exact IH|].
  simpl. by rewrite E.
Qed.

Lemma remove_white_trim_end (s : string) :
  JS.remove_white (JS.trim_end s) = JS.remove_white s.
Proof.
  induction s as [|c s IH]; simpl; [reflexivity|].
  destruct (JS.trim_end s) as [|a r] eqn:E.
  - simpl in IH. rewrite <- IH.
    destruct (JS.is_white c) eqn:W; simpl; by rewrite ?W.
  - change (JS.remove_white (String c (String a r)))
      with (if JS.is_white c then JS.remove_white (String a r)
            else String c (JS.remove_white (String a r))).
    by rewrite IH.
Qed.

(** Trimming first changes nothing once all white space is removed. *)
Lemma remove_white_trim (s : string) :
  JS.remove_white (JS.trim s) = JS.remove_white s.
Proof.
  unfold JS.trim. by rewrite remove_white_trim_end, remove_white_trim_start.
Qed.

Lemma chars_remove_white (s : string) :
  chars (JS.remove_white s) =
  List.filter (fun c => negb (JS.is_white c)) (chars s).
Proof.
  induction s as [|c s IH]; simpl; [reflexivity|].
  destruct (JS.is_white c); simpl; by rewrite IH.
Qed.

Lemma match_count_occ (c : ascii) (s : string) :
  JS.match_count c s = count_occ ascii_dec (chars s) c.
Proof.
  induction s as [|d s IH]; simpl; [reflexivity|].
  destruct (Ascii.eqb_spec d c) as [->|Hne].
  - destruct (ascii_dec c c); [by rewrite IH | done].
  - destruct (ascii_dec d c); [done | exact IH].
Qed.

Lemma includes_count (c : ascii) (s : string) :
  JS.includes c s = negb (JS.match_count c s =? 0)%nat.
Proof.
  induction s as [|d s IH]; simpl; [reflexivity|].
  destruct (Ascii.eqb d c); [reflexivity | exact IH].
Qed.

Lemma remove_all_filter (c : ascii) (s : string) :
  JS.remove_all c s =
  text (List.filter (fun x => negb (Ascii.eqb x c)) (chars s)).
Proof.
  induction s as [|d s IH]; simpl; [reflexivity|].
  destruct (Ascii.eqb d c); simpl; by rewrite IH.
Qed.

Lemma replace_none (c d : ascii) (s : string) :
  JS.match_count c s = 0%nat ->
  s = text (List.map (fun x => if Ascii.eqb x c then d else x) (chars s)).
Proof.
  induction s as [|x s IH]; simpl; [reflexivity|].
  destruct (Ascii.eqb x c); [discriminate|].
  intros H. by rewrite <- (IH H).
Qed.

(** Replacing the first occurrence replaces every occurrence when
    there is exactly one. *)
Lemma replace_first_single (c d : ascii) (s : string) :
  JS.match_count c s = 1%nat ->
  JS.replace_first c d s =
  text (List.map (fun x => if Ascii.eqb x c then d else x) (chars s)).
Proof.
  induction s as [|x s IH]; simpl; [discriminate|].
  destruct (Ascii.eqb x c).
  - intros [= H]. by rewrite <- (replace_none c d s H).
  - intros H. by rewrite (IH H).
Qed.

(** The parser of the source computes what the specification's
    wording describes. *)
Lemma P_parse_spec (s : string) : P (Some s) = parse_spec s.
Proof.
  unfold P, parse_spec, JS.isFinite. simpl default.
  rewrite remove_white_trim.
  rewrite <- chars_remove_white.
  set (t := JS.remove_white s).
  rewrite <- !match_count_occ, includes_count.
  destruct (JS.match_count "." t =? 0)%nat; simpl.
  - destruct (JS.match_count "," t =? 1)%nat eqn:E1; simpl.
    + apply Nat.eqb_eq in E1. by rewrite (replace_first_single _ _ _ E1).
    + by rewrite remove_all_filter.
  - by rewrite remove_all_filter.
Qed.

End ParserFacts.

(** C2 (as amended): for every input string the parser strips all white
    space; with no dot and exactly one comma it reads that comma as the
    decimal point, otherwise it deletes all commas; it reads the longest
    numeric prefix of the result as a float and returns 0 when that is not
    finite.  The result is always a finite number.  In particular
    parse("1,5") = 1.5, parse("1,234") = 1.234 (one comma, no dot),
    parse("1.234,56") = 1.23456 (the comma is dropped, the dot stays), and
    parse("abc") = 0. *)
Theorem P_spec :
  (forall s : string, P (Some s) = parse_spec s /\ is_finite (P (Some s)) = true) /\
  P None = 0 /\
  P (Some "1,5"%string) = 1.5 /\
  P (Some "1,234"%string) = 1.234 /\
  P (Some "1.234,56"%string) = 1.23456 /\
  P (Some "abc"%string) = 0.
Proof.
  split; [ intros s; split; [apply P_parse_spec | apply P_finite] | ].
  repeat split; vm_compute; reflexivity.
Qed.

(** C2 fails as stated: a single comma without a dot is always the decimal
    point, so "1,234" is not 1234; and once a dot is present the commas
    are dropped, so "1.234,56" is not 1234.56. *)
Lemma P_thousands_counterexample :
  P (Some "1,234"%string) <> 1234 /\ P (Some "1.234,56"%string) <> 1234.56.
Proof.
  split; intros H.
  - assert (E : (P (Some "1,234"%string) =? 1234) = true) by (rewrite H; reflexivity).
    vm_compute in E. discriminate E.
  - assert (E : (P (Some "1.234,56"%string) =? 1234.56) = true) by (rewrite H; reflexivity).
    vm_compute in E. discriminate E.
Qed.

(* ================================================================== *)
(** * The NER chain *)
(* ================================================================== *)

(** C1: the worked example.  For the inputs nla = 1000, addon = 5,
    rent = 15, duration = 60, rf = 5, agent = 2, mode perNLA,
    fitPerNLA = 300, unforeseen = 0 (whatever the two other fit-out fields
    hold) the engine computes gla = 1050, months = 55, gross = 866250,
    totalFit = 300000, agentFees = 31500, denom = 63000,
    ner1 = 866250/63000, ner2 = (866250-300000)/63000,
    ner3 = (866250-300000-31500)/63000 and ner4 = ner3.  They are the
    inputs the initial form state of the component is guarded to. *)
Theorem worked_example :
  (forall x y : float,
     computeChain
       (mkInputs 1000 5 15 60 5 2 0 300 x y (Some "perNLA"%string)) =
     mkChain 1050 55 866250 300000 31500 63000
       (866250 / 63000) ((866250 - 300000) / 63000)
       ((866250 - 300000 - 31500) / 63000)
       ((866250 - 300000 - 31500) / 63000)) /\
  guard f_init = mkInputs 1000 5 15 60 5 2 0 300 0 300000 (Some "perNLA"%string) /\
  ner4 (App_chain f_init) = ner3 (App_chain f_init).
Proof.
  split; [ intros x y; vm_compute; reflexivity | ].
  split; vm_compute; reflexivity.
Qed.

(* ================================================================== *)
(** * Sync Fit-outs *)
(* ================================================================== *)

Section Reconciler.

Implicit Types (f : form) (k : string) (x : float).

(** ** Queued updates *)

Lemma setF_lookup_notin (updates : list (string * string)) f k :
  k ∉ updates.*1 -> setF updates f !! k = f !! k.
Proof.
  unfold setF. revert f.
  induction updates as [|[k' v] us IH]; intros f Hk; simpl; [reflexivity|].
  rewrite fmap_cons in Hk. apply not_elem_of_cons in Hk as [Hne Hk].
  rewrite (IH _ Hk). simpl. by rewrite lookup_insert_ne.
Qed.

Lemma setF_lookup_in (updates : list (string * string)) f k (v : string) :
  NoDup updates.*1 -> (k, v) ∈ updates -> setF updates f !! k = Some v.
Proof.
  unfold setF. revert f.
  induction updates as [|[k' v'] us IH]; intros f Hnd Hin; simpl.
  - by apply elem_of_nil in Hin.
  - rewrite fmap_cons in Hnd. apply NoDup_cons in Hnd as [Hk' Hnd].
    apply elem_of_cons in Hin as [[= -> ->]|Hin].
    + fold (setF us (<[k':=v']> f)).
      rewrite (setF_lookup_notin us _ k' Hk'). by rewrite lookup_insert_eq.
    + by apply IH.
Qed.

Lemma NoDup_fst_functional {B} (l : list (string * B)) k (x y : B) :
  NoDup l.*1 -> (k, x) ∈ l -> (k, y) ∈ l -> x = y.
Proof.
  induction l as [|[k' z] l IH]; intros Hnd Hx Hy.
  - by apply elem_of_nil in Hx.
  - rewrite fmap_cons in Hnd. apply NoDup_cons in Hnd as [Hk' Hnd].
    apply elem_of_cons in Hx as [Hx|Hx]; apply elem_of_cons in Hy as [Hy|Hy];
      simplify_eq.
    + reflexivity.
    + destruct Hk'. apply list_elem_of_fmap. eexists (_, _). split; [|eassumption]. done.
    + destruct Hk'. apply list_elem_of_fmap. eexists (_, _). split; [|eassumption]. done.
    + by apply IH.
Qed.

(** ** The effect as a filter of the derived fields *)

Lemma filter_two {B} (g : B -> bool) (a b : B) :
  filter (fun y => g y = true) [a; b] =
  (if g a then [a] else []) ++ (if g b then [b] else []).
Proof.
  rewrite !filter_cons, filter_nil.
  destruct (decide (g a = true)) as [->|Ha], (decide (g b = true)) as [->|Hb];
    try apply not_true_is_false in Ha; try apply not_true_is_false in Hb;
    rewrite ?Ha, ?Hb; reflexivity.
Qed.

Lemma syncDerived_filter f :
  syncDerived f =
  filter (fun kx => differs kx.2 (stored f kx.1) = true) (derivedFields f).
Proof.
  unfold syncDerived, derivedFields.
  destruct (bool_decide (f !! "fitMode"%string = Some "perNLA"%string));
    [ | destruct (bool_decide (f !! "fitMode"%string = Some "perGLA"%string)) ];
    symmetry; apply (filter_two (fun kx => differs kx.2 (stored f kx.1))).
Qed.

Lemma derivedFields_keys f :
  NoDup (derivedFields f).*1 /\
  (forall k, k ∈ (derivedFields f).*1 ->
     k ≠ "nla"%string /\ k ≠ "addon"%string /\ k ≠ "fitMode"%string).
Proof.
  unfold derivedFields.
  repeat case_bool_decide; simpl; (split; [ | intros k Hk]);
    repeat (apply NoDup_cons; split); try apply NoDup_nil_2;
    try (intros Hin; repeat (apply elem_of_cons in Hin as [Hin|Hin]; [discriminate|]);
         by apply elem_of_nil in Hin);
    repeat (apply elem_of_cons in Hk as [->|Hk]; [done|]); by apply elem_of_nil in Hk.
Qed.


Lemma syncFitOuts_keys f : (syncFitOuts f).*1 = (syncDerived f).*1.
Proof.
  unfold syncFitOuts. rewrite <- list_fmap_compose. reflexivity.
Qed.

Lemma syncDerived_keys_sublist f :
  (syncDerived f).*1 `sublist_of` (derivedFields f).*1.
Proof.
  rewrite syncDerived_filter. apply fmap_sublist, sublist_filter.
Qed.

(** A field that is not one of the two derived fields of the mode is not
    written. *)
Lemma reconcile_frame f k :
  k ∉ (derivedFields f).*1 -> reconcile f !! k = f !! k.
Proof.
  intros Hk. unfold reconcile. apply setF_lookup_notin.
  rewrite syncFitOuts_keys. intros Hin. apply Hk.
  eapply elem_of_sublist; [exact Hin | apply syncDerived_keys_sublist].
Qed.

(** A derived field that differs is overwritten with [String] of the
    derived value. *)
Lemma reconcile_written f k x :
  (k, x) ∈ syncDerived f -> reconcile f !! k = Some (JS.toString x).
Proof.
  intros Hin. unfold reconcile. apply setF_lookup_in.
  - rewrite syncFitOuts_keys.
    eapply sublist_NoDup; [apply derivedFields_keys | apply syncDerived_keys_sublist].
  - unfold syncFitOuts. apply list_elem_of_fmap. by exists (k, x).
Qed.

(** A derived field that does not differ keeps its stored text. *)
Lemma reconcile_kept f k x :
  (k, x) ∈ derivedFields f -> differs x (stored f k) = false ->
  reconcile f !! k = f !! k.
Proof.
  intros Hin Hd. unfold reconcile. apply setF_lookup_notin.
  rewrite syncFitOuts_keys, syncDerived_filter.
  intros Hk. apply list_elem_of_fmap in Hk as ([k' x'] & -> & Hk).
  apply list_elem_of_filter in Hk as [Hdiff Hin']. simpl in *.
  assert (x' = x) as ->.
  { destruct (derivedFields_keys f) as [Hnd _].
    exact (NoDup_fst_functional _ _ _ _ Hnd Hin' Hin). }
  congruence.
Qed.

(** The writes leave the inputs of the derivation alone, so the derived
    values are the same after the run. *)
Lemma derivedFields_reconcile f : derivedFields (reconcile f) = derivedFields f.
Proof.
  destruct (derivedFields_keys f) as [_ Hk].
  assert (Hnla : reconcile f !! "nla"%string = f !! "nla"%string).
  { apply reconcile_frame. intros Hin. by destruct (Hk _ Hin) as (? & ? & ?). }
  assert (Haddon : reconcile f !! "addon"%string = f !! "addon"%string).
  { apply reconcile_frame. intros Hin. by destruct (Hk _ Hin) as (? & ? & ?). }
  assert (Hmode : reconcile f !! "fitMode"%string = f !! "fitMode"%string).
  { apply reconcile_frame. intros Hin. by destruct (Hk _ Hin) as (? & ? & ?). }
  assert (Hauth : forall k, k ∉ (derivedFields f).*1 -> stored (reconcile f) k = stored f k).
  { intros k Hnot. unfold stored. by rewrite reconcile_frame. }
  assert (Hn : nla (guard (reconcile f)) = nla (guard f)).
  { unfold guard. cbn [nla]. by rewrite Hnla. }
  assert (Hg : gla (App_chain (reconcile f)) = gla (App_chain f)).
  { unfold App_chain, computeChain, guard. cbn [gla nla addon]. by rewrite Hnla, Haddon. }
  revert Hauth. unfold derivedFields. rewrite Hn, Hg, Hmode. intros Hauth.
  destruct (bool_decide (f !! "fitMode"%string = Some "perNLA"%string));
    [ | destruct (bool_decide (f !! "fitMode"%string = Some "perGLA"%string)) ];
    (rewrite Hauth; [reflexivity | ]);
    rewrite !fmap_cons, fmap_nil; cbn [fst];
    intros Hin; repeat (apply elem_of_cons in Hin as [Hin|Hin]; [discriminate|]);
    by apply elem_of_nil in Hin.
Qed.

(** After one run, provided what was written reads back, every derived
    field is within [1e-9] of the derived value. *)
Lemma reconcile_close f :
  Forall (fun kx => reads_back kx.2) (syncDerived f) ->
  forall k x, (k, x) ∈ derivedFields f -> differs x (stored (reconcile f) k) = false.
Proof.
  intros Hrb k x Hin.
  destruct (differs x (stored f k)) eqn:Hd.
  - assert (Hw : (k, x) ∈ syncDerived f).
    { rewrite syncDerived_filter. apply list_elem_of_filter. by split. }
    unfold stored. rewrite (reconcile_written _ _ _ Hw).
    rewrite Forall_forall in Hrb. specialize (Hrb _ Hw). simpl in Hrb.
    unfold reads_back in Hrb. rewrite Hrb. apply not_differs_self.
  - unfold stored. rewrite (reconcile_kept _ _ _ Hin Hd). exact Hd.
Qed.

(** Hence a second run queues nothing. *)
Lemma syncDerived_reconcile f :
  Forall (fun kx => reads_back kx.2) (syncDerived f) ->
  syncDerived (reconcile f) = [].
Proof.
  intros Hrb. rewrite syncDerived_filter, derivedFields_reconcile.
  pose proof (reconcile_close f Hrb) as Hc.
  induction (derivedFields f) as [|[k x] l IH]; [reflexivity|].
  rewrite filter_cons_False.
  - apply IH. intros k' x' Hin. apply Hc. by apply elem_of_cons; right.
  - cbn [fst snd]. rewrite (Hc k x); [discriminate | by apply elem_of_cons; left].
Qed.

End Reconciler.

Lemma reconcile_nla (f : form) : nla (guard (reconcile f)) = nla (guard f).
Proof.
  unfold guard. cbn [nla]. rewrite reconcile_frame; [reflexivity|].
  intros Hin. by destruct (proj2 (derivedFields_keys f) _ Hin) as (? & ? & ?).
Qed.

Lemma reconcile_gla (f : form) : gla (App_chain (reconcile f)) = gla (App_chain f).
Proof.
  unfold App_chain, computeChain, guard. cbn [gla nla addon].
  rewrite !reconcile_frame; [reflexivity| |];
    intros Hin; by destruct (proj2 (derivedFields_keys f) _ Hin) as (? & ? & ?).
Qed.

Lemma derivedFields_perNLA (f : form) :
  f !! "fitMode"%string = Some "perNLA"%string ->
  derivedFields f =
  [("fitTot"%string, stored f "fitPerNLA" * nla (guard f));
   ("fitPerGLA"%string,
    if JS.gt (gla (App_chain f)) 0
    then stored f "fitPerNLA" * nla (guard f) / gla (App_chain f) else 0)].
Proof. intros H. unfold derivedFields. by rewrite H. Qed.

Lemma derivedFields_perGLA (f : form) :
  f !! "fitMode"%string = Some "perGLA"%string ->
  derivedFields f =
  [("fitTot"%string, stored f "fitPerGLA" * gla (App_chain f));
   ("fitPerNLA"%string,
    if JS.gt (nla (guard f)) 0
    then stored f "fitPerGLA" * gla (App_chain f) / nla (guard f) else 0)].
Proof. intros H. unfold derivedFields. by rewrite H. Qed.

Lemma derivedFields_total (f : form) :
  f !! "fitMode"%string ≠ Some "perNLA"%string ->
  f !! "fitMode"%string ≠ Some "perGLA"%string ->
  derivedFields f =
  [("fitPerNLA"%string,
    if JS.gt (nla (guard f)) 0 then stored f "fitTot" / nla (guard f) else 0);
   ("fitPerGLA"%string,
    if JS.gt (gla (App_chain f)) 0 then stored f "fitTot" / gla (App_chain f) else 0)].
Proof.
  intros H1 H2. unfold derivedFields.
  by rewrite !bool_decide_eq_false_2.
Qed.

(** C3 fails as stated: in mode perNLA with nla = 1000 and gla = 1050,
    a stored per-GLA rate of 285.7142857147 is within 1e-9 of the derived
    285.7142857142857, so the effect writes nothing, and
    |fitTot - fitPerGLA * gla| is about 4.3e-7.  And when the derived total
    overflows (nla = 1e200 and a rate of 1e200) it is written as
    "Infinity", which reads back as 0, so the total and the authoritative
    product are not within 1e-9 either. *)
Lemma reconcile_invariant_counterexample :
  f_stale !! "fitMode"%string = Some "perNLA"%string /\
  JS.gt (nla (guard f_stale)) 0 = true /\
  JS.gt (gla (App_chain f_stale)) 0 = true /\
  syncFitOuts f_stale = [] /\
  (JS.abs (stored (reconcile f_stale) "fitTot" -
           stored (reconcile f_stale) "fitPerGLA" * gla (App_chain (reconcile f_stale)))
   <? 1e-9) = false /\
  f_overflow !! "fitMode"%string = Some "perNLA"%string /\
  JS.gt (nla (guard f_overflow)) 0 = true /\
  JS.gt (gla (App_chain f_overflow)) 0 = true /\
  (JS.abs (stored (reconcile f_overflow) "fitTot" -
           stored (reconcile f_overflow) "fitPerNLA" * nla (guard (reconcile f_overflow)))
   <? 1e-9) = false.
Proof. repeat split; vm_compute; reflexivity. Qed.

(** C8 fails as stated: when the derived total overflows it is written as
    "Infinity", which [P] reads back as 0, so the second run finds the same
    difference and queues the same two updates again. *)
Lemma reconcile_overflow_counterexample :
  syncFitOuts f_overflow = [("fitTot", "Infinity"); ("fitPerGLA", "Infinity")]%string /\
  syncFitOuts (reconcile f_overflow) =
    [("fitTot", "Infinity"); ("fitPerGLA", "Infinity")]%string /\
  syncFitOuts (reconcile f_overflow) <> [].
Proof.
  assert (H : syncFitOuts (reconcile f_overflow) =
              [("fitTot", "Infinity"); ("fitPerGLA", "Infinity")]%string)
    by (vm_compute; reflexivity).
  split; [vm_compute; reflexivity|]. split; [exact H|]. by rewrite H.
Qed.

(* ================================================================== *)
(** * Zero area *)
(* ================================================================== *)

(** The chain over binary64, with the operations spelled out. *)
Lemma computeChain_float (p : Inputs float) :
  computeChain p =
  let gla := nla p * (1 + addon p / 100) in
  let months := JS.max 0 (duration p - rf p) in
  let gross := rent p * gla * months in
  let totalFit :=
    if bool_decide (fitMode p = Some "perNLA"%string) then perNLA p * nla p
    else if bool_decide (fitMode p = Some "perGLA"%string) then perGLA p * gla
    else tot p in
  let agentFees := agent p * rent p * gla in
  let denom := JS.max 1e-9 (duration p * gla) in
  mkChain gla months gross totalFit agentFees denom
    (gross / denom) ((gross - totalFit) / denom)
    ((gross - totalFit - agentFees) / denom)
    ((gross - totalFit - agentFees - unforeseen p) / denom).
Proof. reflexivity. Qed.

(** C4 fails as stated: with nla = 0 and an unforeseen cost of 100 the
    final NER is -100 / 1e-9 = -1e11, not 0; and with area and rent of
    1e308 the gross rent and the denominator overflow and every NER is
    NaN. *)
Lemma zero_area_counterexample :
  nla (guard f_no_area) = 0 /\
  gla (App_chain f_no_area) = 0 /\
  ner4 (App_chain f_no_area) = -100000000000 /\
  is_zero (ner4 (App_chain f_no_area)) = false /\
  is_nan (ner1 (App_chain f_huge)) = true /\
  is_finite (ner4 (App_chain f_huge)) = false.
Proof. repeat split; vm_compute; reflexivity. Qed.

(* ================================================================== *)
(** * Scenarios *)
(* ================================================================== *)

(** Reading a key of [{ ...f, ...overrides }] with the fallback [?? f[k]]
    gives the override when there is one and the baseline text otherwise. *)
Lemma nullish_merged (f ov : form) (k : string) :
  nullish ((ov ∪ f) !! k) (f !! k) = nullish (ov !! k) (f !! k).
Proof.
  rewrite lookup_union.
  by destruct (ov !! k), (f !! k).
Qed.

Lemma merged_lookup (f ov : form) (k : string) :
  (ov ∪ f) !! k = nullish (ov !! k) (f !! k).
Proof.
  rewrite lookup_union.
  by destruct (ov !! k), (f !! k).
Qed.

(** C6: with the initial baseline (nla 1000, addon 5, rent 15, duration
    60, rf 5, agent 2, fitPerNLA 300, unforeseen 0), overriding only rent
    to 20 in scenario 2 gives that scenario the [ner4] the engine computes
    with rent = 20 and the baseline's other fields; the form state and the
    baseline's own [ner4] are the same before and after, as for every
    scenario edit. *)
Theorem scenario_isolation :
  let st0 := mkState f_init scenarios_init in
  let st1 := setScenarioVal 2 "rent" "20" st0 in
  st_scenarios st1 = [mkScenario 2 {["rent"%string := "20"%string]}; mkScenario 3 ∅; mkScenario 4 ∅] /\
  (finalRow st1).2 =
    [(2%Z, ner4 (App_chain (<["rent" := "20"]> f_init)));
     (3%Z, ner4 (App_chain f_init)); (4%Z, ner4 (App_chain f_init))] /\
  ner4 (App_chain (<["rent" := "20"]> f_init)) =
    (20 * 1050 * 55 - 300 * 1000 - 2 * 20 * 1050 - 0) / 63000 /\
  st_f st1 = st_f st0 /\
  (finalRow st1).1 = (finalRow st0).1 /\
  (forall (st : AppState) (i : Z) (k v : string),
     st_f (setScenarioVal i k v st) = st_f st /\
     (finalRow (setScenarioVal i k v st)).1 = (finalRow st).1).
Proof.
  cbv zeta.
  split; [vm_compute; reflexivity|].
  split; [vm_compute; reflexivity|].
  split; [vm_compute; reflexivity|].
  split; [reflexivity|]. split; [reflexivity|].
  intros st i k v. split; reflexivity.
Qed.

(* ================================================================== *)
(** * Waterfall and monotonicity *)
(* ================================================================== *)

(** C7 fails as stated: with a fit-out rate of 2e9 and an unforeseen cost
    of 1e13 the anchor is -190476177.2261905 while ner4 is
    -190476177.22619048, about 3e-8 apart.  Values of a few millions are
    enough: with nla = 100, rent = 4197200, no rent-free months and an
    unforeseen cost of 51994681082 the rent and the four NER values are
    below 4197201 in magnitude, and the four deltas sum to a number
    1.9e-9 away from ner4 - rent. *)
Lemma waterfall_rounding_counterexample :
  delta <$> last (App_wfData f_large_costs) = Some (-190476177.2261905) /\
  ner4 (App_chain f_large_costs) = -190476177.22619048 /\
  (JS.abs (-190476177.2261905 - ner4 (App_chain f_large_costs)) <? 1e-9) = false /\
  (let c := App_chain f_moderate_costs in
   let r := rent (guard f_moderate_costs) in
   r = 4197200 /\ ner1 c = 4197200 /\ ner2 c = 4197195.238095238 /\
   ner3 c = 4057288.5714285714 /\ ner4 c = -4195835.40984127 /\
   (delta <$> App_wfData f_moderate_costs) =
     [r; ner1 c - r; ner2 c - ner1 c; ner3 c - ner2 c; ner4 c - ner3 c; -4195835.409841271] /\
   (JS.abs ((ner1 c - r) + (ner2 c - ner1 c) + (ner3 c - ner2 c) + (ner4 c - ner3 c)
            - (ner4 c - r)) <? 1e-9) = false).
Proof. cbv zeta. repeat split; vm_compute; reflexivity. Qed.


(* ================================================================== *)
(** * Further properties of the component *)
(* ================================================================== *)

Section GuardFacts.

Lemma compare_cases (a b : float) :
  match (a ?= b) with
  | FEq => (a =? b) = true
  | FLt => (a <? b) = true
  | FGt => (b <? a) = true
  | FNotComparable => is_nan a = true \/ is_nan b = true
  end.
Proof.
  rewrite compare_SF, FloatAxioms.eqb_spec, !FloatAxioms.ltb_spec, !is_nan_SF.
  unfold SFeqb, SFltb. rewrite (SFcompare_antisym (Prim2SF a) (Prim2SF b)).
  destruct (SFcompare (Prim2SF a) (Prim2SF b)) as [[ | | ]|] eqn:E; simpl; try reflexivity.
  destruct (Prim2SF a) as [| | |] eqn:Ea, (Prim2SF b) as [| | |] eqn:Eb;
    simpl in E; try discriminate; auto.
Qed.

Lemma ltb_irrefl_zero : (0 <? 0) = false.
Proof. reflexivity. Qed.

Lemma ltb_asym (a b : float) : (a <? b) = true -> (b <? a) = false.
Proof.
  rewrite !FloatAxioms.ltb_spec. unfold SFltb.
  rewrite (SFcompare_antisym (Prim2SF a) (Prim2SF b)).
  by destruct (SFcompare (Prim2SF a) (Prim2SF b)) as [[ | | ]|].
Qed.

Lemma eqb_not_ltb (a b : float) : (a =? b) = true -> (b <? a) = false.
Proof.
  rewrite FloatAxioms.eqb_spec, FloatAxioms.ltb_spec. unfold SFeqb, SFltb.
  rewrite (SFcompare_antisym (Prim2SF a) (Prim2SF b)).
  by destruct (SFcompare (Prim2SF a) (Prim2SF b)) as [[ | | ]|].
Qed.

Lemma nan_not_ltb (a b : float) : is_nan a = true -> (a <? b) = false.
Proof.
  rewrite is_nan_SF, FloatAxioms.ltb_spec. unfold SFltb.
  by destruct (Prim2SF a).
Qed.

(** [Math.max(0, y)] is never negative. *)
Lemma max0_not_negative (y : float) : (JS.max 0 y <? 0) = false.
Proof.
  unfold JS.max. pose proof (compare_cases 0 y) as H.
  destruct (0 ?= y).
  - change (get_sign 0) with false. reflexivity.
  - by apply ltb_asym.
  - reflexivity.
  - reflexivity.
Qed.

(** With the default minimum, [clamp] returns either exactly [+0] or its
    argument, and the latter only when the argument is finite and
    strictly positive. *)
Lemma clamp0_cases (n : float) :
  clamp n 0 = 0 \/
  (clamp n 0 = n /\ is_finite n = true /\ (0 <? n) = true).
Proof.
  unfold clamp, JS.isFinite. destruct (is_finite n) eqn:Hf; [|by left].
  unfold JS.max. pose proof (compare_cases 0 n) as H.
  destruct (0 ?= n).
  - left. change (get_sign 0) with false. reflexivity.
  - right. auto.
  - by left.
  - exfalso. destruct H as [H|H]; [vm_compute in H; discriminate H|].
    rewrite is_finite_SF in Hf. rewrite is_nan_SF in H.
    destruct (Prim2SF n); discriminate.
Qed.

(** [clamp] with the default minimum returns a finite number [>= 0]. *)
Lemma clamp0_finite_nonneg (n : float) :
  is_finite (clamp n 0) = true /\ (0 <=? clamp n 0) = true.
Proof.
  destruct (clamp0_cases n) as [-> | (-> & Hf & Hp)]; [by split|].
  split; [exact Hf|].
  rewrite FloatAxioms.leb_spec. rewrite FloatAxioms.ltb_spec in Hp.
  unfold SFleb, SFltb in *. by destruct (SFcompare _ _) as [[ | | ]|].
Qed.

(** Whatever the form holds, the guarded inputs of a render are never
    negative: the nine clamped ones are finite and [>= 0], and the lease
    term is not below 0. *)
Theorem guard_not_negative (f : form) :
  Forall (fun x => is_finite x = true /\ (0 <=? x) = true)
    [nla (guard f); addon (guard f); rent (guard f); rf (guard f); agent (guard f);
     unforeseen (guard f); perNLA (guard f); perGLA (guard f); tot (guard f)] /\
  (duration (guard f) <? 0) = false.
Proof.
  split.
  - unfold guard. cbn [nla addon rent rf agent unforeseen perNLA perGLA tot].
    repeat (apply List.Forall_cons; [apply clamp0_finite_nonneg|]).
    apply List.Forall_nil.
  - unfold guard. cbn [duration]. apply max0_not_negative.
Qed.

End GuardFacts.

Section ChartFacts.

Lemma safe_finite (x : float) : is_finite (safe x) = true.
Proof.
  unfold safe. cbn [isFinite float_arith num0]. unfold JS.isFinite.
  destruct (is_finite x) eqn:E; [exact E | reflexivity].
Qed.

Lemma barPct_finite (r v x : float) : barPct r v = Some x -> is_finite x = true.
Proof.
  unfold barPct, JS.isFinite. destruct (JS.gt r 0); [|discriminate].
  destruct (is_finite (_ * 100)) eqn:E; [|discriminate].
  by intros [= <-].
Qed.

Lemma barPct_no_base (r v : float) : JS.gt r 0 = false -> barPct r v = None.
Proof. unfold barPct. by intros ->. Qed.

(** The bar chart never receives a non-finite number: every bar height
    and every percentage that is present is finite; the Headline bar has
    no percentage, and no bar has one when the rent is not positive. *)
Theorem nerBars_finite (f : form) :
  (bar_name <$> App_nerBars f) = ["Headline"; "NER 1"; "NER 2"; "NER 3"; "Final"]%string /\
  Forall (fun b => is_finite (sqm b) = true /\
                   forall x, pct b = Some x -> is_finite x = true) (App_nerBars f) /\
  (JS.gt (rent (guard f)) 0 = false ->
     Forall (fun b => pct b = None) (App_nerBars f)).
Proof.
  unfold App_nerBars, nerBars. cbv zeta. split; [reflexivity|]. split.
  - repeat (apply List.Forall_cons;
            [ cbn [sqm pct]; split; [apply safe_finite | ];
              first [ discriminate | apply barPct_finite ] | ]).
    apply List.Forall_nil.
  - intros Hr.
    repeat (apply List.Forall_cons;
            [ cbn [pct]; first [ reflexivity | by apply barPct_no_base ] | ]).
    apply List.Forall_nil.
Qed.

Lemma nerBars_finite_witness :
  JS.gt (rent (guard (<["rent" := "0"]> f_init))) 0 = false /\
  Forall (fun b => pct b = None) (App_nerBars (<["rent" := "0"]> f_init)).
Proof.
  split; [vm_compute; reflexivity|].
  apply (nerBars_finite (<["rent" := "0"]> f_init)). vm_compute. reflexivity.
Defined.

(** The waterfall always has its six steps in order, anchored at both
    ends with base 0; the deltas of the headline and of the four
    adjustment steps are always finite. *)
Theorem wfData_deltas_finite (f : form) :
  (name <$> App_wfData f) = ["Headline"; "RF"; "FO"; "AF"; "UC"; "Final NER"]%string /\
  (isTotal <$> App_wfData f) = [true; false; false; false; false; true] /\
  Forall (fun s => is_finite (delta s) = true) (take 5 (App_wfData f)) /\
  (base <$> head (App_wfData f)) = Some 0 /\
  (base <$> last (App_wfData f)) = Some 0.
Proof.
  unfold App_wfData, waterfall, wfData. cbv zeta.
  split; [reflexivity|]. split; [reflexivity|].
  split; [|split; reflexivity].
  cbn [take].
  repeat (apply List.Forall_cons; [ cbn [delta]; apply safe_finite | ]).
  apply List.Forall_nil.
Qed.

End ChartFacts.

Section ScenarioFacts.

Lemma setScenarioVal_frame_f (st : AppState) i k v :
  st_f (setScenarioVal i k v st) = st_f st.
Proof. reflexivity. Qed.

(** Editing one cell of the scenario table: the edited cell shows the new
    text, every other cell of every scenario shows what it showed before,
    and the scenarios keep their ids and order. *)
Theorem setScenarioVal_resolve (st : AppState) (i : Z) (key value : string) :
  (id <$> st_scenarios (setScenarioVal i key value st)) = (id <$> st_scenarios st) /\
  (forall (n : nat) (sc : Scenario),
     st_scenarios st !! n = Some sc ->
     exists sc',
       st_scenarios (setScenarioVal i key value st) !! n = Some sc' /\
       id sc' = id sc /\
       (id sc = i ->
          resolveScenario (st_f st) sc' key = Some value /\
          forall k, k ≠ key ->
            resolveScenario (st_f st) sc' k = resolveScenario (st_f st) sc k) /\
       (id sc ≠ i -> sc' = sc)).
Proof.
  unfold setScenarioVal. cbn [st_scenarios st_f]. split.
  - rewrite <- list_fmap_compose. apply list_fmap_ext. intros n sc _.
    cbn. by case_bool_decide.
  - intros n sc Hn. rewrite list_lookup_fmap, Hn. cbn [fmap option_fmap option_map].
    eexists. split; [reflexivity|]. case_bool_decide as Hi.
    + cbn [id overrides]. split; [reflexivity|]. split; [|done].
      intros _. unfold resolveScenario. cbn [overrides]. split.
      * by rewrite lookup_insert_eq.
      * intros k Hk. by rewrite lookup_insert_ne.
    + split; [reflexivity|]. split; [done|]. reflexivity.
Qed.

Lemma setScenarioVal_resolve_witness :
  exists sc',
    st_scenarios (setScenarioVal 2 "rent" "20" (mkState f_init scenarios_init)) !! 0%nat
      = Some sc' /\
    resolveScenario f_init sc' "rent" = Some "20"%string /\
    resolveScenario f_init sc' "rf" = Some "5.0"%string.
Proof.
  destruct (setScenarioVal_resolve (mkState f_init scenarios_init) 2 "rent" "20") as [_ H].
  destruct (H 0%nat (mkScenario 2 ∅) eq_refl) as (sc' & Hl & _ & Hedit & _).
  destruct (Hedit eq_refl) as [Hr Hk]. cbn [st_f] in Hr, Hk.
  exists sc'. split; [exact Hl|]. split; [exact Hr|].
  rewrite (Hk "rf"%string); [reflexivity | discriminate].
Defined.

(** What a scenario cell shows is what the scenario calculation reads. *)
Lemma resolveScenario_read (f : form) (sc : Scenario) (k : string) :
  nullish ((overrides sc ∪ f) !! k) (f !! k) = resolveScenario f sc k.
Proof.
  unfold resolveScenario. rewrite nullish_merged. by destruct (overrides sc !! k).
Qed.

(** The scenario calculation is the baseline engine on the merged form
    with the mode forced to perNLA. *)
Lemma calcScenarioNER_merged (f ov : form) :
  calcScenarioNER f (ov ∪ f) =
  ner4 (App_chain (<["fitMode" := "perNLA"]> (ov ∪ f))).
Proof.
  unfold calcScenarioNER, App_chain. rewrite computeChain_float.
  unfold guard.
  cbn [nla addon rent duration rf agent unforeseen perNLA perGLA tot fitMode ner4].
  rewrite !nullish_merged, <- !merged_lookup.
  rewrite lookup_insert_eq, !lookup_insert_ne by done.
  rewrite bool_decide_eq_true_2 by done. reflexivity.
Qed.

(** A scenario without overrides repeats the baseline's final NER when
    the baseline is in mode perNLA. *)
Theorem untouched_scenario (f : form) (i : Z) :
  f !! "fitMode"%string = Some "perNLA"%string ->
  scenarioView f [mkScenario i ∅] = [(i, ner4 (App_chain f))].
Proof.
  intros Hm. unfold scenarioView. cbn [fmap list_fmap id overrides].
  rewrite calcScenarioNER_merged.
  rewrite (left_id_L ∅ (∪) f).
  by rewrite (insert_id f "fitMode"%string "perNLA"%string Hm).
Qed.

Lemma untouched_scenario_witness :
  scenarioView f_init [mkScenario 3 ∅] = [(3%Z, ner4 (App_chain f_init))].
Proof. apply (untouched_scenario f_init 3). reflexivity. Defined.

(** The scenario NER depends on the override map and on the baseline
    only through the eight fields it reads: two baselines and override
    maps that resolve these fields alike give the same scenario NER. *)
Theorem calcScenarioNER_reads (f f' ov ov' : form) :
  (forall k, k ∈ scenario_keys ->
     nullish (ov !! k) (f !! k) = nullish (ov' !! k) (f' !! k)) ->
  calcScenarioNER f (ov ∪ f) = calcScenarioNER f' (ov' ∪ f').
Proof.
  intros H. unfold calcScenarioNER. rewrite !nullish_merged.
  rewrite !H; [reflexivity | ..]; unfold scenario_keys;
    repeat first [ by apply list_elem_of_here | apply list_elem_of_further ].
Qed.

Lemma calcScenarioNER_reads_witness :
  calcScenarioNER f_init ({["rent" := "20"]} ∪ f_init) =
  calcScenarioNER (<["fitMode" := "total"]> (<["tenant" := "ACME"]> f_init))
                  (<["fitTot" := "1"]> {["rent" := "20"]} ∪
                   <["fitMode" := "total"]> (<["tenant" := "ACME"]> f_init)).
Proof.
  apply (calcScenarioNER_reads f_init). intros k Hk.
  unfold scenario_keys in Hk.
  repeat (apply elem_of_cons in Hk as [->|Hk]; [vm_compute; reflexivity|]).
  by apply elem_of_nil in Hk.
Defined.

(** The chain, the bars and the waterfall depend on the form state only
    through the ten numeric fields and the mode: two form states that
    agree on them (whatever else they hold, such as the tenant) are
    rendered with the same numbers. *)
Theorem App_chain_reads (f f' : form) :
  (forall k, k ∈ chain_keys -> f !! k = f' !! k) ->
  App_chain f = App_chain f' /\ App_wfData f = App_wfData f' /\
  App_nerBars f = App_nerBars f'.
Proof.
  intros H.
  assert (Hg : guard f = guard f').
  { unfold guard. rewrite !H; [reflexivity | ..]; unfold chain_keys;
      repeat first [ by apply list_elem_of_here | apply list_elem_of_further ]. }
  unfold App_chain, App_wfData, App_nerBars, App_chain. by rewrite Hg.
Qed.

Lemma App_chain_reads_witness :
  App_chain (<["tenant" := "ACME"]> f_init) = App_chain f_init.
Proof.
  apply (App_chain_reads (<["tenant" := "ACME"]> f_init) f_init).
  intros k Hk. unfold chain_keys in Hk.
  repeat (apply elem_of_cons in Hk as [->|Hk]; [vm_compute; reflexivity|]).
  by apply elem_of_nil in Hk.
Defined.

End ScenarioFacts.

Section MoreChainFacts.

Lemma sub_zero_r (x : float) : x - 0 = x.
Proof.
  apply Prim2SF_inj. rewrite sub_spec. change (Prim2SF 0) with (S754_zero false).
  by destruct (Prim2SF x) as [[]|[]| |].
Qed.

Lemma safe_sub_self (x : float) : safe (x - x) = 0.
Proof.
  unfold safe. cbn [isFinite float_arith num0]. unfold JS.isFinite.
  destruct (is_finite (x - x)) eqn:E; [|reflexivity].
  apply Prim2SF_inj. rewrite is_finite_SF in E. rewrite sub_spec in *.
  change (Prim2SF 0) with (S754_zero false).
  destruct (Prim2SF x) as [[]|[]| |s m e]; try discriminate; try reflexivity.
  unfold SF64sub, SFsub. rewrite Z.sub_diag. reflexivity.
Qed.

(** Without unforeseen costs the final NER is NER 3, bit for bit, and the
    UC step of the waterfall is 0. *)
Theorem no_unforeseen (p : Inputs float) :
  unforeseen p = 0 ->
  ner4 (computeChain p) = ner3 (computeChain p) /\
  (delta <$> waterfall p !! 4%nat) = Some 0.
Proof.
  intros Hu. split.
  - rewrite computeChain_float. cbv zeta. cbn [ner3 ner4]. by rewrite Hu, sub_zero_r.
  - unfold waterfall, wfData. cbv zeta. cbn [lookup list_lookup fmap option_fmap option_map delta].
    f_equal.
    rewrite computeChain_float. cbv zeta. cbn [ner3 ner4]. rewrite Hu.
    cbn [sub float_arith]. rewrite sub_zero_r. apply safe_sub_self.
Qed.

Lemma no_unforeseen_witness :
  ner4 (App_chain f_init) = ner3 (App_chain f_init) /\
  (delta <$> App_wfData f_init !! 4%nat) = Some 0.
Proof. apply (no_unforeseen (guard f_init)). vm_compute. reflexivity. Defined.

(** [Math.max(0, 0 - rf)] is 0 for a finite [rf >= 0]. *)
Lemma months_zero_term (d r : float) :
  is_zero d = true -> is_finite r = true -> (0 <=? r) = true ->
  JS.max 0 (d - r) = 0.
Proof.
  rewrite is_zero_SF, is_finite_SF, FloatAxioms.leb_spec.
  change (Prim2SF 0) with (S754_zero false). unfold SFleb.
  intros Hd Hr Hle. unfold JS.max. rewrite compare_SF, sub_spec.
  change (Prim2SF 0) with (S754_zero false).
  destruct (Prim2SF d) as [sd| | |]; try discriminate.
  destruct (Prim2SF r) as [sr| | |sr m e]; try discriminate.
  - by destruct sd, sr.
  - destruct sr; [discriminate|]. reflexivity.
Qed.

(** A lease term of zero months: no billable months, no gross rent, the
    denominator at its floor, and a first NER of 0. *)
Theorem zero_term_chain (p : Inputs float) :
  is_zero (duration p) = true ->
  is_finite (rf p) = true -> (0 <=? rf p) = true ->
  is_finite (gla (computeChain p)) = true ->
  is_finite (rent p * gla (computeChain p)) = true ->
  months (computeChain p) = 0 /\
  is_zero (gross (computeChain p)) = true /\
  denom (computeChain p) = 1e-9 /\
  is_zero (ner1 (computeChain p)) = true.
Proof.
  rewrite computeChain_float. cbv zeta. cbn [gla months gross denom ner1].
  intros Hd Hrf Hrf0 Hg Hrg.
  rewrite (months_zero_term _ _ Hd Hrf Hrf0).
  assert (Hgross : is_zero (rent p * (nla p * (1 + addon p / 100)) * 0) = true).
  { apply mul_zero_r; [exact Hrg | reflexivity]. }
  assert (Hden : JS.max 1e-9 (duration p * (nla p * (1 + addon p / 100))) = 1e-9).
  { apply max_eps_zero. by apply mul_zero_l. }
  rewrite Hden. repeat split; try assumption. by apply div_zero_eps.
Qed.

Lemma zero_term_chain_witness :
  months (App_chain (<["duration" := "0"]> f_init)) = 0 /\
  is_zero (ner1 (App_chain (<["duration" := "0"]> f_init))) = true.
Proof.
  destruct (zero_term_chain (guard (<["duration" := "0"]> f_init)))
    as (Hm & _ & _ & H1); try (vm_compute; reflexivity).
  split; [exact Hm | exact H1].
Defined.

End MoreChainFacts.

Section MoreReconcilerFacts.

(** The effect queues at most two updates, only for fit-out fields, and
    never for the authoritative field of the mode; every other field of
    the form is untouched by the run. *)
Theorem syncFitOuts_writes (f : form) :
  (length (syncFitOuts f) <= 2)%nat /\
  NoDup (syncFitOuts f).*1 /\
  (forall k v, (k, v) ∈ syncFitOuts f ->
     k ∈ ["fitTot"; "fitPerGLA"; "fitPerNLA"]%string /\
     k ≠ (if bool_decide (f !! "fitMode"%string = Some "perNLA"%string) then "fitPerNLA"
          else if bool_decide (f !! "fitMode"%string = Some "perGLA"%string) then "fitPerGLA"
          else "fitTot")%string) /\
  (forall k, k ∉ ["fitTot"; "fitPerGLA"; "fitPerNLA"]%string -> reconcile f !! k = f !! k).
Proof.
  assert (Hsub : (syncFitOuts f).*1 `sublist_of` (derivedFields f).*1).
  { rewrite syncFitOuts_keys. apply syncDerived_keys_sublist. }
  assert (Hkeys : forall k, k ∈ (derivedFields f).*1 ->
            k ∈ ["fitTot"; "fitPerGLA"; "fitPerNLA"]%string /\
            k ≠ (if bool_decide (f !! "fitMode"%string = Some "perNLA"%string) then "fitPerNLA"
                 else if bool_decide (f !! "fitMode"%string = Some "perGLA"%string) then "fitPerGLA"
                 else "fitTot")%string).
  { unfold derivedFields.
    destruct (bool_decide (f !! "fitMode"%string = Some "perNLA"%string));
      [ | destruct (bool_decide (f !! "fitMode"%string = Some "perGLA"%string)) ];
      rewrite !fmap_cons, fmap_nil; cbn [fst]; intros k Hk;
      repeat (apply elem_of_cons in Hk as [->|Hk];
              [ split; [ repeat first [ by apply list_elem_of_here | apply list_elem_of_further ]
                       | discriminate ] | ]);
      by apply elem_of_nil in Hk. }
  split; [|split; [|split]].
  - rewrite <- (length_fmap fst). etransitivity; [apply sublist_length, Hsub|].
    unfold derivedFields.
    destruct (bool_decide (f !! "fitMode"%string = Some "perNLA"%string));
      [ | destruct (bool_decide (f !! "fitMode"%string = Some "perGLA"%string)) ];
      reflexivity.
  - eapply sublist_NoDup; [apply derivedFields_keys | exact Hsub].
  - intros k v Hin. apply Hkeys. eapply elem_of_sublist; [|exact Hsub].
    apply list_elem_of_fmap. by exists (k, v).
  - intros k Hk. apply reconcile_frame. intros Hin. apply Hk. by apply Hkeys.
Qed.

Lemma syncFitOuts_writes_witness :
  ("fitPerGLA", "285.7142857142857")%string ∈ syncFitOuts f_init /\
  "fitPerGLA"%string ∈ ["fitTot"; "fitPerGLA"; "fitPerNLA"]%string /\
  reconcile f_init !! "rent"%string = f_init !! "rent"%string.
Proof.
  assert (Hin : ("fitPerGLA", "285.7142857142857")%string ∈ syncFitOuts f_init).
  { let l := eval vm_compute in (syncFitOuts f_init) in
    change (syncFitOuts f_init) with l. apply list_elem_of_here. }
  destruct (syncFitOuts_writes f_init) as (_ & _ & Hk & Hfr).
  split; [exact Hin|]. split; [exact (proj1 (Hk _ _ Hin))|].
  apply Hfr. intros H.
  repeat (apply elem_of_cons in H as [H|H]; [discriminate H|]).
  by apply elem_of_nil in H.
Defined.

End MoreReconcilerFacts.

Section ZeroAreaReconciler.

Lemma zero_mul_not_pos (y : float) : JS.gt (0 * y) 0 = false.
Proof.
  unfold JS.gt. rewrite FloatAxioms.ltb_spec, mul_spec.
  change (Prim2SF 0) with (S754_zero false).
  by destruct (Prim2SF y) as [[]|[]| |[] ? ?].
Qed.

Lemma clamp0_zero (n : float) : is_zero (clamp n 0) = true -> clamp n 0 = 0.
Proof.
  destruct (clamp0_cases n) as [-> | (-> & _ & Hp)]; [reflexivity|].
  intros Hz. change (is_zero n) with (n =? 0) in Hz.
  by rewrite (eqb_not_ltb _ _ Hz) in Hp.
Qed.

Lemma clamp0_mul_zero (n : float) : clamp n 0 * 0 = 0.
Proof.
  destruct (clamp0_cases n) as [-> | (-> & Hf & Hp)]; [reflexivity|].
  apply Prim2SF_inj. rewrite mul_spec.
  rewrite FloatAxioms.ltb_spec in Hp. unfold SFltb in Hp.
  change (Prim2SF 0) with (S754_zero false) in *.
  rewrite is_finite_SF in Hf.
  by destruct (Prim2SF n) as [[]|[]| |[] ? ?].
Qed.

(** With no area the effect never divides: outside mode perGLA every
    derived value is 0, so whatever the run writes is the text "0". *)
Theorem zero_area_reconcile (f : form) :
  is_zero (nla (guard f)) = true ->
  f !! "fitMode"%string ≠ Some "perGLA"%string ->
  (forall k x, (k, x) ∈ derivedFields f -> x = 0) /\
  (forall k v, (k, v) ∈ syncFitOuts f -> v = "0"%string).
Proof.
  intros Hz Hm.
  assert (Hn : nla (guard f) = 0) by (by apply clamp0_zero).
  assert (Hg : JS.gt (gla (App_chain f)) 0 = false).
  { unfold App_chain. rewrite computeChain_float. cbv zeta. cbn [gla].
    rewrite Hn. apply zero_mul_not_pos. }
  assert (Hd : forall k x, (k, x) ∈ derivedFields f -> x = 0).
  { unfold derivedFields. rewrite Hn, Hg.
    rewrite (bool_decide_eq_false_2 _ Hm).
    change (JS.gt 0 0) with false.
    destruct (bool_decide (f !! "fitMode"%string = Some "perNLA"%string));
      intros k x Hk;
      repeat (apply elem_of_cons in Hk as [Hk|Hk];
              [ injection Hk as -> ->; first [ reflexivity | apply clamp0_mul_zero ] | ]);
      by apply elem_of_nil in Hk. }
  split; [exact Hd|].
  intros k v Hin. unfold syncFitOuts in Hin.
  apply list_elem_of_fmap in Hin as ([k' x] & [= -> ->] & Hin).
  rewrite syncDerived_filter in Hin. apply list_elem_of_filter in Hin as [_ Hin].
  cbn [snd]. by rewrite (Hd _ _ Hin).
Qed.

Lemma zero_area_reconcile_witness :
  syncFitOuts (<["nla" := "0"]> f_init) ≠ [] /\
  Forall (fun kv => kv.2 = "0"%string) (syncFitOuts (<["nla" := "0"]> f_init)).
Proof.
  split; [vm_compute; discriminate|].
  apply Forall_forall. intros [k v] Hin.
  apply (zero_area_reconcile (<["nla" := "0"]> f_init)) with (k := k);
    [ vm_compute; reflexivity | vm_compute; discriminate | exact Hin ].
Defined.

End ZeroAreaReconciler.

Section InputFacts.

Lemma P_P_text (v : option string) :
  P v = (let n := JS.parseFloat (P_text v) in if JS.isFinite n then n else 0).
Proof. reflexivity. Qed.

Lemma typed_only (s : string) : only_input_chars (typed s) = true.
Proof.
  induction s as [|c s IH]; [reflexivity|]. cbn [typed].
  destruct (is_input_char c) eqn:E; [|exact IH].
  cbn [only_input_chars]. by rewrite E, IH.
Qed.

Lemma typed_id (s : string) : only_input_chars s = true -> typed s = s.
Proof.
  induction s as [|c s IH]; [reflexivity|]. cbn [typed only_input_chars].
  intros [Hc Hs]%andb_prop. by rewrite Hc, (IH Hs).
Qed.

Lemma only_trim_start (s : string) :
  only_input_chars s = true -> only_input_chars (JS.trim_start s) = true.
Proof.
  induction s as [|c s IH]; [done|]. cbn [JS.trim_start].
  intros H. destruct (JS.is_white c); [|exact H].
  apply IH. cbn [only_input_chars] in H. by apply andb_prop in H as [_ H].
Qed.

Lemma only_trim_end (s : string) :
  only_input_chars s = true -> only_input_chars (JS.trim_end s) = true.
Proof.
  induction s as [|c s IH]; [done|]. cbn [JS.trim_end only_input_chars].
  intros [Hc Hs]%andb_prop. specialize (IH Hs).
  destruct (JS.trim_end s) as [|a r].
  - destruct (JS.is_white c); [reflexivity|]. cbn [only_input_chars]. by rewrite Hc.
  - cbn [only_input_chars] in *. by rewrite Hc, IH.
Qed.

Lemma only_remove_white (s : string) :
  only_input_chars s = true -> only_input_chars (JS.remove_white s) = true.
Proof.
  induction s as [|c s IH]; [done|]. cbn [JS.remove_white only_input_chars].
  intros [Hc Hs]%andb_prop. destruct (JS.is_white c); [by apply IH|].
  cbn [only_input_chars]. by rewrite Hc, IH.
Qed.

Lemma only_replace_first (s : string) :
  only_input_chars s = true ->
  only_input_chars (JS.replace_first "," "." s) = true.
Proof.
  induction s as [|c s IH]; [done|]. cbn [JS.replace_first only_input_chars].
  intros [Hc Hs]%andb_prop. destruct (Ascii.eqb c ",").
  - cbn [only_input_chars]. by rewrite Hs.
  - cbn [only_input_chars]. by rewrite Hc, IH.
Qed.

Lemma only_remove_all (s : string) :
  only_input_chars s = true -> only_input_chars (JS.remove_all "," s) = true.
Proof.
  induction s as [|c s IH]; [done|]. cbn [JS.remove_all only_input_chars].
  intros [Hc Hs]%andb_prop. destruct (Ascii.eqb c ","); [by apply IH|].
  cbn [only_input_chars]. by rewrite Hc, IH.
Qed.

Lemma only_P_text (s : string) :
  only_input_chars s = true -> only_input_chars (P_text (Some s)) = true.
Proof.
  intros H. unfold P_text. simpl default.
  assert (H' : only_input_chars (JS.remove_white (JS.trim s)) = true).
  { unfold JS.trim. by apply only_remove_white, only_trim_end, only_trim_start. }
  destruct (_ && _); [by apply only_replace_first | by apply only_remove_all].
Qed.

Lemma read_digits_only (s : string) (acc : Z) (cnt : nat) :
  only_input_chars s = true -> (0 <= acc)%Z ->
  let '(v, n, r) := JS.read_digits s acc cnt in
  (0 <= v)%Z /\ only_input_chars r = true.
Proof.
  revert acc cnt. induction s as [|c s IH]; intros acc cnt Hs Hacc.
  - done.
  - cbn [JS.read_digits]. unfold JS.digit_val.
    destruct ((48 <=? nat_of_ascii c)%nat && (nat_of_ascii c <=? 57)%nat) eqn:E.
    + apply IH.
      * cbn [only_input_chars] in Hs. by apply andb_prop in Hs as [_ Hs].
      * apply andb_prop in E as [E1 _]. apply Nat.leb_le in E1. lia.
    + done.
Qed.

Lemma read_exponent_only (s : string) :
  only_input_chars s = true -> JS.read_exponent s = 0%Z.
Proof.
  destruct s as [|c s]; [done|]. cbn [only_input_chars JS.read_exponent].
  intros [Hc _]%andb_prop.
  destruct (Ascii.eqb_spec c "e") as [->|_]; [discriminate Hc|].
  destruct (Ascii.eqb_spec c "E") as [->|_]; [discriminate Hc|]. reflexivity.
Qed.

Lemma lex_unsigned_only (neg : bool) (s : string) :
  only_input_chars s = true ->
  JS.lex_unsigned neg s = JS.NumNaN \/
  exists m e, JS.lex_unsigned neg s = JS.NumDecimal neg m e /\ (0 <= m)%Z /\ (e <= 0)%Z.
Proof.
  intros Hs. unfold JS.lex_unsigned.
  assert (Hp : String.prefix "Infinity" s = false).
  { destruct s as [|c s]; [reflexivity|]. cbn [only_input_chars] in Hs.
    apply andb_prop in Hs as [Hc _]. cbn [String.prefix].
    destruct (ascii_dec "I" c) as [<-|_]; [discriminate Hc | reflexivity]. }
  rewrite Hp.
  pose proof (read_digits_only s 0 0 Hs (Z.le_refl 0)) as H1.
  destruct (JS.read_digits s 0 0) as [[i ni] r1]. destruct H1 as [Hi Hr1].
  assert (Hint : (if (ni =? 0)%nat then JS.NumNaN
                  else JS.NumDecimal neg i (JS.read_exponent r1)) = JS.NumNaN \/
                 exists m e, (if (ni =? 0)%nat then JS.NumNaN
                              else JS.NumDecimal neg i (JS.read_exponent r1)) =
                             JS.NumDecimal neg m e /\ (0 <= m)%Z /\ (e <= 0)%Z).
  { destruct (ni =? 0)%nat; [by left|]. right. exists i, 0%Z.
    by rewrite (read_exponent_only r1 Hr1). }
  destruct r1 as [|c r2]; [exact Hint|].
  destruct (ascii_dec c ".") as [->|Hne].
  - cbn [only_input_chars] in Hr1. apply andb_prop in Hr1 as [_ Hr2].
    pose proof (read_digits_only r2 i 0 Hr2 Hi) as H2.
    destruct (JS.read_digits r2 i 0) as [[m nf] r3]. destruct H2 as [Hm Hr3].
    destruct ((ni =? 0)%nat && (nf =? 0)%nat); [by left|]. right.
    exists m, (JS.read_exponent r3 - Z.of_nat nf)%Z. split; [reflexivity|].
    split; [exact Hm|]. rewrite (read_exponent_only r3 Hr3). lia.
  - destruct c as [[] [] [] [] [] [] [] []]; try exact Hint. by destruct Hne.
Qed.

Lemma lex_only (s : string) :
  only_input_chars s = true ->
  JS.lex s = JS.NumNaN \/
  exists neg m e, JS.lex s = JS.NumDecimal neg m e /\ (0 <= m)%Z /\ (e <= 0)%Z.
Proof.
  intros Hs. unfold JS.lex. apply only_trim_start in Hs.
  destruct (JS.trim_start s) as [|c r].
  - destruct (lex_unsigned_only false EmptyString Hs) as [H|(m & e & H)]; [by left|].
    right. by exists false, m, e.
  - assert (Hr : only_input_chars r = true).
    { cbn [only_input_chars] in Hs. by apply andb_prop in Hs as [_ Hs]. }
    assert (Hdef : JS.lex_unsigned false (String c r) = JS.NumNaN \/
                   exists neg m e, JS.lex_unsigned false (String c r) = JS.NumDecimal neg m e /\
                                   (0 <= m)%Z /\ (e <= 0)%Z).
    { destruct (lex_unsigned_only false _ Hs) as [H|(m & e & H)]; [by left|].
      right. by exists false, m, e. }
    destruct (ascii_dec c "+") as [->|Hp]; [discriminate Hs|].
    destruct (ascii_dec c "-") as [->|Hm].
    + destruct (lex_unsigned_only true r Hr) as [H|(m & e & H)]; [by left|].
      right. by exists true, m, e.
    + destruct c as [[] [] [] [] [] [] [] []]; try exact Hdef;
        first [by destruct Hp | by destruct Hm].
Qed.

(** What can be typed into a field never reaches [parseFloat] as
    [Infinity] or with an exponent: it is read as a plain decimal
    [m / 10^k], or as nothing (and then counts as 0). *)
Theorem typed_is_plain_decimal (text : string) :
  only_input_chars (typed text) = true /\
  typed (typed text) = typed text /\
  (P (Some (typed text)) = 0 \/
   exists (neg : bool) (m k : Z),
     (0 <= m)%Z /\ (0 <= k)%Z /\
     JS.lex (P_text (Some (typed text))) = JS.NumDecimal neg m (- k) /\
     P (Some (typed text)) =
       (if is_finite (JS.of_decimal neg m (- k)) then JS.of_decimal neg m (- k) else 0)).
Proof.
  pose proof (typed_only text) as Ht.
  split; [exact Ht|]. split; [by apply typed_id|].
  rewrite P_P_text. cbv zeta. unfold JS.parseFloat, JS.isFinite.
  destruct (lex_only _ (only_P_text _ Ht)) as [H|(neg & m & e & H & Hm & He)].
  - left. rewrite H. reflexivity.
  - right. exists neg, m, (- e)%Z. rewrite Z.opp_involutive, H.
    repeat split; try assumption; lia.
Qed.

End InputFacts.

Section SeparatorFacts.

Lemma remove_white_idem (s : string) :
  JS.remove_white (JS.remove_white s) = JS.remove_white s.
Proof.
  induction s as [|c s IH]; [reflexivity|]. cbn [JS.remove_white].
  destruct (JS.is_white c) eqn:E; [exact IH|].
  cbn [JS.remove_white]. by rewrite E, IH.
Qed.

Lemma P_text_white (s : string) :
  P_text (Some (JS.remove_white s)) = P_text (Some s).
Proof.
  unfold P_text. simpl default.
  by rewrite !remove_white_trim, remove_white_idem.
Qed.

Lemma remove_white_remove_all (s : string) :
  JS.remove_white (JS.remove_all "," s) = JS.remove_all "," (JS.remove_white s).
Proof.
  induction s as [|c s IH]; [reflexivity|]. cbn [JS.remove_all JS.remove_white].
  destruct (Ascii.eqb_spec c ",") as [->|Hc].
  - change (JS.is_white ",") with false. cbn [JS.remove_all].
    change (Ascii.eqb "," ",") with true. exact IH.
  - destruct (JS.is_white c) eqn:E; cbn [JS.remove_white JS.remove_all].
    + by rewrite E.
    + rewrite E. destruct (Ascii.eqb_spec c ","); [done|]. by rewrite IH.
Qed.

Lemma match_count_remove_all (s : string) :
  JS.match_count "," (JS.remove_all "," s) = 0%nat.
Proof.
  induction s as [|c s IH]; [reflexivity|]. cbn [JS.remove_all].
  destruct (Ascii.eqb c ",") eqn:E; [exact IH|].
  cbn [JS.match_count]. by rewrite E.
Qed.

Lemma remove_all_idem (s : string) :
  JS.remove_all "," (JS.remove_all "," s) = JS.remove_all "," s.
Proof.
  induction s as [|c s IH]; [reflexivity|]. cbn [JS.remove_all].
  destruct (Ascii.eqb c ",") eqn:E; [exact IH|].
  cbn [JS.remove_all]. by rewrite E, IH.
Qed.

(** White space anywhere in the text is ignored, and so is every comma as
    soon as the text has a dot or does not have exactly one comma:
    commas are then pure grouping marks, wherever they stand. *)
Theorem P_separators (s : string) :
  P (Some (JS.remove_white s)) = P (Some s) /\
  (JS.includes "." (JS.remove_white s) = true \/
   JS.match_count "," (JS.remove_white s) ≠ 1%nat ->
   P (Some (JS.remove_all "," s)) = P (Some s)).
Proof.
  split.
  - by rewrite !P_P_text, P_text_white.
  - intros H. rewrite !P_P_text.
    assert (E : P_text (Some (JS.remove_all "," s)) = P_text (Some s)); [|by rewrite E].
    unfold P_text. simpl default.
    rewrite !remove_white_trim, remove_white_remove_all.
    set (t := JS.remove_white s) in *.
    rewrite match_count_remove_all, andb_false_r, remove_all_idem.
    destruct H as [H|H].
    + by rewrite H.
    + destruct (JS.match_count "," t =? 1)%nat eqn:E1.
      * apply Nat.eqb_eq in E1. by destruct H.
      * by rewrite andb_false_r.
Qed.

Lemma P_separators_witness :
  P (Some "1234567.89"%string) = P (Some "1,234,567.89"%string).
Proof.
  apply (P_separators "1,234,567.89"). left. vm_compute. reflexivity.
Defined.

End SeparatorFacts.

Section InsulationFacts.

(** A scenario cell that has an override is insulated from edits of the
    same baseline field; the scenario NER does not move. *)
Theorem scenario_insulated (f ov : form) (k v : string) :
  is_Some (ov !! k) ->
  calcScenarioNER (<[k := v]> f) (ov ∪ <[k := v]> f) = calcScenarioNER f (ov ∪ f).
Proof.
  intros [w Hw].
  assert (H : forall k', nullish (ov !! k') (<[k := v]> f !! k') =
                         nullish (ov !! k') (f !! k')).
  { intros k'. destruct (decide (k' = k)) as [->|Hne].
    - by rewrite Hw.
    - by rewrite lookup_insert_ne. }
  unfold calcScenarioNER. by rewrite !nullish_merged, !H.
Qed.

Lemma scenario_insulated_witness :
  calcScenarioNER (<["rent" := "99"]> f_init) ({["rent" := "20"]} ∪ <["rent" := "99"]> f_init) =
  calcScenarioNER f_init ({["rent" := "20"]} ∪ f_init).
Proof.
  apply (scenario_insulated f_init {["rent" := "20"]} "rent" "99").
  exists "20"%string. vm_compute. reflexivity.
Defined.

End InsulationFacts.

Section SignFacts.

Lemma not_negative_SF (x : float) :
  (x <? 0) = negb (not_neg_SF (Prim2SF x)).
Proof.
  rewrite FloatAxioms.ltb_spec. change (Prim2SF 0) with (S754_zero false).
  by destruct (Prim2SF x) as [[]|[]| |[] ? ?].
Qed.

Lemma binary_round_aux_sign (s : bool) (m e : Z) (l : location) :
  match binary_round_aux prec emax s m e l with
  | S754_zero s' | S754_infinity s' | S754_finite s' _ _ => s' = s
  | S754_nan => True
  end.
Proof.
  unfold binary_round_aux.
  destruct (shr_fexp prec emax m e l) as [mrs' e'].
  destruct (shr_fexp prec emax _ e' loc_Exact) as [mrs'' e''].
  destruct (shr_m mrs''); try done.
  by destruct (e'' <=? emax - prec)%Z.
Qed.

Lemma mul_not_negative (x y : float) :
  (x <? 0) = false -> (y <? 0) = false -> (x * y <? 0) = false.
Proof.
  rewrite !not_negative_SF, mul_spec. intros Hx%negb_false_iff Hy%negb_false_iff.
  apply negb_false_iff.
  destruct (Prim2SF x) as [[]|[]| |[] mx ex], (Prim2SF y) as [[]|[]| |[] my ey];
    try discriminate; try reflexivity.
  unfold SF64mul, SFmul. cbn [xorb].
  pose proof (binary_round_aux_sign false (Z.pos (mx * my)) (ex + ey) loc_Exact) as H.
  by destruct (binary_round_aux _ _ _ _ _ _) as [[]|[]| |[] ? ?].
Qed.

Lemma div_not_negative (x y : float) :
  (x <? 0) = false -> (y <? 1e-9) = false -> (x / y <? 0) = false.
Proof.
  rewrite !not_negative_SF, div_spec, FloatAxioms.ltb_spec, Prim2SF_eps.
  intros Hx%negb_false_iff Hy. apply negb_false_iff.
  destruct (Prim2SF x) as [[]|[]| |[] mx ex], (Prim2SF y) as [[]|[]| |[] my ey];
    try discriminate; try reflexivity.
  unfold SF64div, SFdiv. cbn [xorb].
  destruct (SFdiv_core_binary prec emax (Z.pos mx) ex (Z.pos my) ey) as [[mz ez] lz].
  pose proof (binary_round_aux_sign false mz ez lz) as H.
  by destruct (binary_round_aux _ _ _ _ _ _) as [[]|[]| |[] ? ?].
Qed.

Lemma add_not_negative (x y : float) :
  (x <? 0) = false -> (y <? 0) = false -> (x + y <? 0) = false.
Proof.
  rewrite !not_negative_SF, add_spec. intros Hx%negb_false_iff Hy%negb_false_iff.
  apply negb_false_iff.
  destruct (Prim2SF x) as [[]|[]| |[] mx ex], (Prim2SF y) as [[]|[]| |[] my ey];
    try discriminate; try reflexivity.
  unfold SF64add, SFadd. cbn [cond_Zopp]. unfold binary_normalize, binary_round.
  change (Z.pos ?a + Z.pos ?b)%Z with (Z.pos (a + b)). cbv iota beta.
  destruct (shl_align (_ + _)%positive _ _) as [mz ez].
  pose proof (binary_round_aux_sign false (Z.pos mz) ez loc_Exact) as H.
  by destruct (binary_round_aux _ _ _ _ _ _) as [[]|[]| |[] ? ?].
Qed.

Lemma leb0_not_negative (x : float) : (0 <=? x) = true -> (x <? 0) = false.
Proof.
  rewrite FloatAxioms.leb_spec, not_negative_SF. change (Prim2SF 0) with (S754_zero false).
  by destruct (Prim2SF x) as [[]|[]| |[] ? ?].
Qed.

(** [Math.max(a, y)] is never below [a]. *)
Lemma max_not_below (a y : float) : (JS.max a y <? a) = false.
Proof.
  unfold JS.max. pose proof (compare_cases a y) as H.
  assert (Haa : (a <? a) = false).
  { rewrite FloatAxioms.ltb_spec. unfold SFltb. rewrite SFcompare_refl.
    by destruct (Prim2SF a). }
  destruct (a ?= y).
  - destruct (get_sign a); [by apply eqb_not_ltb | exact Haa].
  - by apply ltb_asym.
  - exact Haa.
  - by apply nan_not_ltb.
Qed.

(** Every non-negative quantity of the chain stays non-negative, and the
    denominator never falls below its floor [1e-9], so no NER is ever
    computed by a division by zero and the first NER is never negative. *)
Theorem chain_not_negative (f : form) :
  let c := App_chain f in
  Forall (fun x => (x <? 0) = false)
    [gla c; months c; gross c; totalFit c; agentFees c; ner1 c] /\
  (denom c <? 1e-9) = false /\
  is_zero (denom c) = false.
Proof.
  cbv zeta. unfold App_chain. rewrite computeChain_float. cbv zeta.
  cbn [gla months gross totalFit agentFees denom ner1].
  assert (Hc : forall n, (clamp n 0 <? 0) = false)
    by (intros n; apply leb0_not_negative, clamp0_finite_nonneg).
  pose proof (Hc (P (f !! "nla"%string))) as Hnla.
  pose proof (Hc (P (f !! "addon"%string))) as Haddon.
  pose proof (Hc (P (f !! "rent"%string))) as Hrent.
  pose proof (Hc (P (f !! "agent"%string))) as Hagent.
  pose proof (Hc (P (f !! "fitPerNLA"%string))) as HpN.
  pose proof (Hc (P (f !! "fitPerGLA"%string))) as HpG.
  pose proof (Hc (P (f !! "fitTot"%string))) as Htot.
  change (clamp (P (f !! "nla"%string)) 0) with (nla (guard f)) in Hnla.
  change (clamp (P (f !! "addon"%string)) 0) with (addon (guard f)) in Haddon.
  change (clamp (P (f !! "rent"%string)) 0) with (rent (guard f)) in Hrent.
  change (clamp (P (f !! "agent"%string)) 0) with (agent (guard f)) in Hagent.
  change (clamp (P (f !! "fitPerNLA"%string)) 0) with (perNLA (guard f)) in HpN.
  change (clamp (P (f !! "fitPerGLA"%string)) 0) with (perGLA (guard f)) in HpG.
  change (clamp (P (f !! "fitTot"%string)) 0) with (tot (guard f)) in Htot.
  set (p := guard f) in *.
  assert (Hgla : (nla p * (1 + addon p / 100) <? 0) = false).
  { apply mul_not_negative; [exact Hnla|].
    apply add_not_negative; [reflexivity|].
    apply div_not_negative; [exact Haddon | reflexivity]. }
  assert (Hmon : (JS.max 0 (duration p - rf p) <? 0) = false) by apply max0_not_negative.
  assert (Hgross : (rent p * (nla p * (1 + addon p / 100)) *
                    JS.max 0 (duration p - rf p) <? 0) = false).
  { apply mul_not_negative; [by apply mul_not_negative | exact Hmon]. }
  assert (Hden : (JS.max 1e-9 (duration p * (nla p * (1 + addon p / 100))) <? 1e-9) = false)
    by apply max_not_below.
  split; [|split; [exact Hden|]].
  - repeat (apply List.Forall_cons; [ | ]).
    + exact Hgla.
    + exact Hmon.
    + exact Hgross.
    + destruct (bool_decide (fitMode p = Some "perNLA"%string));
        [ by apply mul_not_negative | ].
      destruct (bool_decide (fitMode p = Some "perGLA"%string));
        [ by apply mul_not_negative | exact Htot ].
    + apply mul_not_negative; [by apply mul_not_negative | exact Hgla].
    + by apply div_not_negative.
    + apply List.Forall_nil.
  - rewrite is_zero_SF. rewrite FloatAxioms.ltb_spec, Prim2SF_eps in Hden.
    by destruct (Prim2SF (JS.max _ _)) as [[]|[]| |[] ? ?].
Qed.

End SignFacts.

Section EffectAndChain.

(** The fit-out effect never changes a displayed NER figure: the chain,
    the waterfall and the bars read the authoritative fit-out field only,
    and that field is not written. *)
Theorem reconcile_chain (f : form) :
  App_chain (reconcile f) = App_chain f /\
  App_wfData (reconcile f) = App_wfData f /\
  App_nerBars (reconcile f) = App_nerBars f.
Proof.
  assert (Hfr : forall k, k ∉ ["fitTot"; "fitPerGLA"; "fitPerNLA"]%string ->
                          reconcile f !! k = f !! k).
  { intros k Hk. apply reconcile_frame. intros Hin. apply Hk.
    revert Hin. unfold derivedFields.
    destruct (bool_decide (f !! "fitMode"%string = Some "perNLA"%string));
      [ | destruct (bool_decide (f !! "fitMode"%string = Some "perGLA"%string)) ];
      rewrite !fmap_cons, fmap_nil; cbn [fst]; intros Hin;
      repeat (apply elem_of_cons in Hin as [->|Hin];
              [ repeat first [ by apply list_elem_of_here | apply list_elem_of_further ] | ]);
      by apply elem_of_nil in Hin. }
  assert (Hother : forall k, k ∈ ["nla"; "addon"; "rent"; "duration"; "rf"; "agent";
                                  "unforeseen"; "fitMode"]%string ->
                             reconcile f !! k = f !! k).
  { intros k Hk. apply Hfr. intros Hin.
    repeat (apply elem_of_cons in Hk as [->|Hk];
            [ repeat (apply elem_of_cons in Hin as [Hin|Hin]; [discriminate Hin|]);
              by apply elem_of_nil in Hin | ]).
    by apply elem_of_nil in Hk. }
  assert (Hchain : App_chain (reconcile f) = App_chain f).
  { unfold App_chain. rewrite !computeChain_float. cbv zeta. unfold guard.
    cbn [nla addon rent duration rf agent unforeseen perNLA perGLA tot fitMode].
    rewrite (Hother "nla"%string), (Hother "addon"%string), (Hother "rent"%string),
      (Hother "duration"%string), (Hother "rf"%string), (Hother "agent"%string),
      (Hother "unforeseen"%string), (Hother "fitMode"%string)
      by (repeat first [ by apply list_elem_of_here | apply list_elem_of_further ]).
    destruct (bool_decide (f !! "fitMode"%string = Some "perNLA"%string)) eqn:E1;
      [ | destruct (bool_decide (f !! "fitMode"%string = Some "perGLA"%string)) eqn:E2 ].
    - rewrite (reconcile_frame f "fitPerNLA"); [reflexivity|].
      unfold derivedFields. rewrite E1. rewrite !fmap_cons, fmap_nil. cbn [fst].
      intros Hin. repeat (apply elem_of_cons in Hin as [Hin|Hin]; [discriminate Hin|]).
      by apply elem_of_nil in Hin.
    - rewrite (reconcile_frame f "fitPerGLA"); [reflexivity|].
      unfold derivedFields. rewrite E1, E2. rewrite !fmap_cons, fmap_nil. cbn [fst].
      intros Hin. repeat (apply elem_of_cons in Hin as [Hin|Hin]; [discriminate Hin|]).
      by apply elem_of_nil in Hin.
    - rewrite (reconcile_frame f "fitTot"); [reflexivity|].
      unfold derivedFields. rewrite E1, E2. rewrite !fmap_cons, fmap_nil. cbn [fst].
      intros Hin. repeat (apply elem_of_cons in Hin as [Hin|Hin]; [discriminate Hin|]).
      by apply elem_of_nil in Hin. }
  assert (Hrent : rent (guard (reconcile f)) = rent (guard f)).
  { unfold guard. cbn [rent]. rewrite Hother; [reflexivity|].
    repeat first [ by apply list_elem_of_here | apply list_elem_of_further ]. }
  split; [exact Hchain|].
  unfold App_wfData, waterfall, App_nerBars.
  change (computeChain (guard (reconcile f))) with (App_chain (reconcile f)).
  change (computeChain (guard f)) with (App_chain f).
  by rewrite Hchain, Hrent.
Qed.

End EffectAndChain.

(* ================================================================== *)
(** * Numbers written and read back *)
(* ================================================================== *)

(** ** A number with a finite binary expansion converts exactly *)

Section ExactConversion.

Local Open Scope Z_scope.

Lemma iter_pos_iter {A} (f : A -> A) (p : positive) (x : A) :
  SpecFloat.iter_pos f p x = Pos.iter f x p.
Proof.
  revert x. induction p as [p IH|p IH|]; intros x; cbn [SpecFloat.iter_pos Pos.iter].
  - rewrite !IH. rewrite !Pos.iter_swap. reflexivity.
  - rewrite !IH. reflexivity.
  - reflexivity.
Qed.

Lemma iter_pos_nat {A} (f : A -> A) (p : positive) (x : A) :
  SpecFloat.iter_pos f p x = Nat.iter (Pos.to_nat p) f x.
Proof. rewrite iter_pos_iter. apply Pos2Nat.inj_iter. Qed.

Lemma shr_1_exact (n : nat) (m : positive) :
  Nat.iter n shr_1 (Build_shr_record (Zpos (Nat.iter n xO m)) false false) =
  Build_shr_record (Zpos m) false false.
Proof.
  induction n as [|n IH]; [reflexivity|].
  rewrite Nat.iter_succ_r. simpl Nat.iter. exact IH.
Qed.

Lemma Zpos_iter_xO (n : nat) (m : positive) :
  Zpos (Nat.iter n xO m) = Zpos m * 2 ^ Z.of_nat n.
Proof.
  induction n as [|n IH]; [simpl Nat.iter; change (2 ^ Z.of_nat 0) with 1; lia|].
  simpl Nat.iter. rewrite Pos2Z.inj_xO, IH, Nat2Z.inj_succ, Z.pow_succ_r by lia. ring.
Qed.

Lemma digits_iter_xO (n : nat) (m : positive) :
  Zpos (digits2_pos (Nat.iter n xO m)) = Zpos (digits2_pos m) + Z.of_nat n.
Proof.
  induction n as [|n IH]; [simpl Nat.iter; simpl Z.of_nat; lia|].
  simpl Nat.iter. cbn [digits2_pos]. rewrite Pos2Z.inj_succ, IH. lia.
Qed.

Lemma bounded_inv (m : positive) (e : Z) :
  bounded prec emax m e = true ->
  fexp prec emax (Zpos (digits2_pos m) + e) = e /\ e <= emax - prec.
Proof.
  unfold bounded, canonical_mantissa. intros H.
  apply andb_prop in H as [H1 H2]. split; [apply Z.eqb_eq, H1 | apply Z.leb_le, H2].
Qed.

Lemma round_exact (m : positive) (e : Z) (d : nat) (e' : Z) :
  bounded prec emax m e = true -> e' + Z.of_nat d = e ->
  binary_round_aux prec emax false (Zpos (Nat.iter d xO m)) e' loc_Exact =
  S754_finite false m e.
Proof.
  intros Hb He. destruct (bounded_inv m e Hb) as [Hc Hle].
  unfold binary_round_aux, shr_fexp at 1.
  cbn [Zdigits2 shr_record_of_loc]. rewrite digits_iter_xO.
  replace (Zpos (digits2_pos m) + Z.of_nat d + e') with (Zpos (digits2_pos m) + e) by lia.
  rewrite Hc.
  assert (Hs : shr (Build_shr_record (Zpos (Nat.iter d xO m)) false false) e' (e - e') =
               (Build_shr_record (Zpos m) false false, e)).
  { destruct d as [|d].
    - simpl Nat.iter. replace (e - e') with 0 by lia. cbn [shr]. f_equal. lia.
    - replace (e - e') with (Zpos (Pos.of_succ_nat d)) by lia.
      cbn [shr]. rewrite iter_pos_nat, SuccNat2Pos.id_succ, shr_1_exact.
      f_equal. lia. }
  rewrite Hs. cbn [shr_m loc_of_shr_record round_nearest_even].
  unfold shr_fexp. cbn [Zdigits2 shr_record_of_loc]. rewrite Hc, Z.sub_diag.
  cbn [shr shr_m]. apply Z.leb_le in Hle. rewrite Hle. reflexivity.
Qed.

Lemma digits2_log2 (p : positive) : Zpos (digits2_pos p) = Z.log2 (Zpos p) + 1.
Proof.
  assert (H : forall q, digits2_pos q = Pos.size q).
  { induction q; cbn [digits2_pos Pos.size]; congruence. }
  rewrite H. destruct p; cbn [Z.log2 Pos.size]; lia.
Qed.

Lemma fexp_mono (a b : Z) : a <= b -> fexp prec emax a <= fexp prec emax b.
Proof. unfold fexp. lia. Qed.

Lemma div_core_exact (m : positive) (e : Z) :
  e < 0 -> fexp prec emax (Zpos (digits2_pos m) + e) = e ->
  exists d : nat,
    SFdiv_core_binary prec emax (Zpos m * 5 ^ (- e)) 0 (10 ^ (- e)) 0 =
    (Zpos (Nat.iter d xO m), e - Z.of_nat d, loc_Exact).
Proof.
  intros He Hc. set (j := - e). assert (Hj : 0 < j) by lia.
  assert (H5 : 0 < 5 ^ j) by (apply Z.pow_pos_nonneg; lia).
  assert (H2 : 0 < 2 ^ j) by (apply Z.pow_pos_nonneg; lia).
  assert (H10 : 10 ^ j = 5 ^ j * 2 ^ j) by (rewrite <- Z.pow_mul_l; reflexivity).
  assert (Hm : 0 < Zpos m * 5 ^ j) by lia.
  unfold SFdiv_core_binary.
  destruct (Zpos m * 5 ^ j) as [|M|] eqn:EM; try lia.
  destruct (10 ^ j) as [|T|] eqn:ET; try lia.
  cbn [Zdigits2]. rewrite !digits2_log2, <- EM, <- ET. rewrite <- ET in H10.
  set (e' := Z.min _ _).
  assert (Hd : Z.log2 (Zpos m * 5 ^ j) + 1 + 0 - (Z.log2 (10 ^ j) + 1 + 0)
               <= Zpos (digits2_pos m) + e).
  { rewrite digits2_log2, H10, Z.log2_mul_pow2 by lia.
    pose proof (Z.log2_mul_above (Zpos m) (5 ^ j)). lia. }
  assert (He' : e' <= e).
  { subst e'. pose proof (fexp_mono _ _ Hd). lia. }
  exists (Z.to_nat (e - e')).
  replace (0 - 0 - e') with (- e') by lia.
  destruct (- e') as [|s|s] eqn:Es; try lia.
  rewrite Z.shiftl_mul_pow2 by lia.
  assert (Hq : Zpos m * 5 ^ j * 2 ^ Zpos s = (Zpos m * 2 ^ (e - e')) * 10 ^ j).
  { rewrite H10. replace (Zpos s) with ((e - e') + j) by lia.
    rewrite Z.pow_add_r by lia. ring. }
  rewrite Hq.
  assert (Hdiv : Z.div_eucl (Zpos m * 2 ^ (e - e') * 10 ^ j) (10 ^ j) =
                 (Zpos m * 2 ^ (e - e'), 0)).
  { pose proof (Z.div_mul (Zpos m * 2 ^ (e - e')) (10 ^ j)) as D1.
    pose proof (Z.mod_mul (Zpos m * 2 ^ (e - e')) (10 ^ j)) as D2.
    unfold Z.div, Z.modulo in D1, D2.
    destruct (Z.div_eucl _ _) as [q r]. cbn [fst snd] in *. f_equal; [apply D1|apply D2]; lia. }
  rewrite Hdiv. rewrite Zpos_iter_xO, Z2Nat.id by lia.
  f_equal; [f_equal; lia|].
  unfold new_location, new_location_even, new_location_odd.
  destruct (Z.even _); reflexivity.
Qed.

Lemma of_decimal_exact (x : float) (m : positive) (e : Z) :
  Prim2SF x = S754_finite false m e ->
  JS.of_decimal false (fst (JS.exact_decimal m e)) (snd (JS.exact_decimal m e)) = x.
Proof.
  intros Hx. pose proof (Prim2SF_valid x) as Hv. rewrite Hx in Hv. cbn [valid_binary] in Hv.
  destruct (bounded_inv m e Hv) as [Hc Hle].
  rewrite <- (SF2Prim_Prim2SF x), Hx. unfold JS.exact_decimal, JS.of_decimal.
  destruct (Z.leb_spec 0 e) as [He|He]; cbn [fst snd]; f_equal.
  - assert (Hp : 0 < 2 ^ e) by (apply Z.pow_pos_nonneg; lia).
    destruct (Z.eqb_spec (Zpos m * 2 ^ e) 0) as [?|_]; [lia|].
    cbn [Z.leb Z.compare Z.ltb cond_Zopp]. rewrite Z.pow_0_r, Z.mul_1_r.
    rewrite <- (Z2Nat.id e) at 1 by lia. rewrite <- Zpos_iter_xO.
    cbn [binary_normalize]. unfold binary_round.
    rewrite digits_iter_xO, Z2Nat.id, Z.add_0_r, Hc by lia.
    unfold shl_align. destruct (e - 0) eqn:E0; try lia;
      apply round_exact; try assumption; rewrite Z2Nat.id; lia.
  - set (j := - e). assert (Hj : 0 < j) by lia.
    assert (H5 : 0 < 5 ^ j) by (apply Z.pow_pos_nonneg; lia).
    destruct (Z.eqb_spec (Zpos m * 5 ^ j) 0) as [?|_]; [lia|].
    destruct (Z.leb_spec 0 e) as [?|_]; [lia|].
    assert (Hlog : 2 * j <= Z.log2 (Zpos m * 5 ^ j)).
    { rewrite <- (Z.log2_pow2 (2 * j)) by lia. apply Z.log2_le_mono.
      rewrite Z.pow_mul_r by lia. change (2 ^ 2) with 4.
      assert (4 ^ j <= 5 ^ j) by (apply Z.pow_le_mono_l; lia). nia. }
    destruct (Z.ltb_spec (e + Z.log2 (Zpos m * 5 ^ j) + 1) (-400)) as [?|_]; [lia|].
    destruct (div_core_exact m e He Hc) as (d & Hd). fold j in Hd. rewrite Hd.
    apply round_exact; [assumption|lia].
Qed.

End ExactConversion.

(** ** Digit strings *)

Section Digits.

Local Open Scope Z_scope.
Local Open Scope string_scope.

Lemma append_cons (c : ascii) (a b : string) : String c a +:+ b = String c (a +:+ b).
Proof. reflexivity. Qed.

Lemma append_empty (b : string) : "" +:+ b = b.
Proof. reflexivity. Qed.

Lemma len_app (a b : string) :
  String.length (a +:+ b) = (String.length a + String.length b)%nat.
Proof.
  induction a as [|c a IH]; [reflexivity|].
  rewrite append_cons. cbn [String.length]. by rewrite IH.
Qed.

Lemma app_assoc_s (a b c : string) : (a +:+ b) +:+ c = a +:+ (b +:+ c).
Proof. induction a as [|x a IH]; [reflexivity|]. rewrite !append_cons. by rewrite IH. Qed.

Lemma app_nil_s (a : string) : a +:+ "" = a.
Proof. induction a as [|x a IH]; [reflexivity|]. rewrite !append_cons. by rewrite IH. Qed.

Lemma all_digits_app (a b : string) :
  all_digits (a +:+ b) = all_digits a && all_digits b.
Proof.
  induction a as [|c a IH]; [reflexivity|]. rewrite append_cons. cbn [all_digits].
  destruct (JS.digit_val c); [exact IH|reflexivity].
Qed.

Lemma read_digits_app (d rest : string) (acc : Z) (cnt : nat) :
  all_digits d = true ->
  JS.read_digits (d +:+ rest) acc cnt =
  JS.read_digits rest (digits_value d acc) (cnt + String.length d)%nat.
Proof.
  revert acc cnt. induction d as [|c d IH]; intros acc cnt Hd.
  - rewrite append_empty. cbn [digits_value String.length]. by rewrite Nat.add_0_r.
  - rewrite append_cons. cbn [digits_value String.length all_digits JS.read_digits] in *.
    destruct (JS.digit_val c); [|discriminate].
    rewrite IH by exact Hd. f_equal. lia.
Qed.

Lemma read_digits_stop (s : string) (acc : Z) (cnt : nat) :
  no_digit_head s = true -> JS.read_digits s acc cnt = (acc, cnt, s).
Proof.
  destruct s as [|c s]; [reflexivity|]. cbn [no_digit_head JS.read_digits].
  by destruct (JS.digit_val c).
Qed.

Lemma digits_value_app (a b : string) (acc : Z) :
  all_digits a = true ->
  digits_value (a +:+ b) acc = digits_value b (digits_value a acc).
Proof.
  revert acc. induction a as [|c a IH]; intros acc Ha; [reflexivity|].
  rewrite append_cons. cbn [digits_value all_digits] in *.
  destruct (JS.digit_val c); [by apply IH|discriminate].
Qed.

Lemma digits_value_acc (d : string) (acc : Z) :
  all_digits d = true ->
  digits_value d acc = acc * 10 ^ Z.of_nat (String.length d) + digits_value d 0.
Proof.
  revert acc. induction d as [|c d IH]; intros acc Hd.
  - cbn [digits_value String.length]. change (10 ^ Z.of_nat 0) with 1. lia.
  - cbn [digits_value String.length all_digits] in *.
    destruct (JS.digit_val c) as [v|]; [|discriminate].
    rewrite (IH (10 * acc + v) Hd), (IH (10 * 0 + v) Hd).
    rewrite Nat2Z.inj_succ, Z.pow_succ_r by lia. ring.
Qed.

Lemma digit_val_digit (r : Z) :
  0 <= r < 10 -> JS.digit_val (ascii_of_nat (48 + Z.to_nat r)) = Some r.
Proof.
  intros H.
  assert (r = 0 \/ r = 1 \/ r = 2 \/ r = 3 \/ r = 4 \/ r = 5 \/ r = 6 \/ r = 7 \/
          r = 8 \/ r = 9) as Hr by lia.
  repeat (destruct Hr as [->|Hr]; [reflexivity|]). by subst r.
Qed.

(** The digits [Z_digits_aux] puts in front of [rest]. *)
Lemma Z_digits_aux_spec (fuel : nat) (z : Z) :
  0 <= z < 2 ^ Z.of_nat (S fuel) ->
  exists d : string,
    (forall rest, JS.Z_digits_aux (S fuel) z rest = d +:+ rest) /\
    all_digits d = true /\ d <> "" /\ digits_value d 0 = z /\
    (0 < z -> 10 ^ (Z.of_nat (String.length d) - 1) <= z).
Proof.
  revert z. induction fuel as [|fuel IH]; intros z Hz.
  - exists (String (ascii_of_nat (48 + Z.to_nat (z mod 10))) "").
    change (2 ^ Z.of_nat 1) with 2 in Hz.
    assert (Hm : z mod 10 = z) by (apply Z.mod_small; lia).
    cbn [JS.Z_digits_aux all_digits digits_value String.length].
    rewrite Hm, (digit_val_digit z) by lia.
    split; [|split; [reflexivity|split; [done|split; [lia|]]]].
    + intros rest. by destruct (z <? 10)%Z.
    + intros Hpos. change (10 ^ (Z.of_nat 1 - 1)) with 1. lia.
  - set (c := ascii_of_nat (48 + Z.to_nat (z mod 10))).
    assert (Hc : JS.digit_val c = Some (z mod 10)).
    { apply digit_val_digit. apply Z.mod_pos_bound. lia. }
    destruct (Z.ltb_spec z 10) as [Hlt|Hge].
    + exists (String c "").
      assert (Hm : z mod 10 = z) by (apply Z.mod_small; lia).
      cbn [all_digits digits_value String.length]. rewrite Hc, Hm.
      split; [|split; [reflexivity|split; [done|split; [lia|]]]].
      * intros rest. change (JS.Z_digits_aux (S (S fuel)) z rest)
          with (if (z <? 10)%Z then String c rest
                else JS.Z_digits_aux (S fuel) (z / 10) (String c rest)).
        destruct (Z.ltb_spec z 10); [reflexivity|lia].
      * intros Hpos. change (10 ^ (Z.of_nat 1 - 1)) with 1. lia.
    + assert (Hz' : 0 <= z / 10 < 2 ^ Z.of_nat (S fuel)).
      { split; [apply Z.div_pos; lia|].
        apply Z.div_lt_upper_bound; [lia|].
        rewrite Nat2Z.inj_succ, Z.pow_succ_r in Hz by lia. lia. }
      destruct (IH (z / 10) Hz') as (d & Hd & Hall & Hne & Hv & Hlow).
      exists (d +:+ String c "").
      split; [|split; [|split; [|split]]].
      * intros rest. change (JS.Z_digits_aux (S (S fuel)) z rest)
          with (if (z <? 10)%Z then String c rest
                else JS.Z_digits_aux (S fuel) (z / 10) (String c rest)).
        destruct (Z.ltb_spec z 10); [lia|]. rewrite Hd, app_assoc_s. reflexivity.
      * rewrite all_digits_app, Hall. cbn [all_digits]. by rewrite Hc.
      * by destruct d.
      * rewrite digits_value_app, Hv by exact Hall. cbn [digits_value]. rewrite Hc.
        pose proof (Z.div_mod z 10). lia.
      * intros _. rewrite len_app. cbn [String.length].
        replace (Z.of_nat (String.length d + 1) - 1) with
          (Z.succ (Z.of_nat (String.length d) - 1)) by lia.
        assert (0 < String.length d)%nat by (destruct d; [done|cbn; lia]).
        rewrite Z.pow_succ_r by lia.
        assert (0 < z / 10) by (apply Z.div_str_pos; lia).
        pose proof (Hlow ltac:(lia)). pose proof (Z.div_mod z 10).
        pose proof (Z.mod_pos_bound z 10). lia.
Qed.

Lemma Z_digits_spec (z : Z) :
  0 <= z ->
  all_digits (JS.Z_digits z) = true /\ JS.Z_digits z <> "" /\
  digits_value (JS.Z_digits z) 0 = z.
Proof.
  intros Hz. unfold JS.Z_digits.
  destruct (Z_digits_aux_spec (Z.to_nat (Z.log2 z)) z) as (d & Hd & Hall & Hne & Hv & _).
  { rewrite Nat2Z.inj_succ, Z2Nat.id by apply Z.log2_nonneg.
    destruct (Z.eq_dec z 0) as [->|Hn]; [done|].
    pose proof (Z.log2_spec z). lia. }
  rewrite Hd, app_nil_s. done.
Qed.

Lemma zeros_spec (n : nat) (acc : Z) :
  all_digits (JS.zeros n) = true /\ String.length (JS.zeros n) = n /\
  digits_value (JS.zeros n) acc = acc * 10 ^ Z.of_nat n.
Proof.
  revert acc. induction n as [|n IH]; intros acc.
  - cbn [JS.zeros all_digits String.length digits_value].
    change (10 ^ Z.of_nat 0) with 1. split; [reflexivity|split; [reflexivity|lia]].
  - destruct (IH (10 * acc + 0)) as (H1 & H2 & H3).
    cbn [JS.zeros all_digits String.length digits_value].
    change (JS.digit_val "0") with (Some 0).
    rewrite H1, H2, H3, Nat2Z.inj_succ, Z.pow_succ_r by lia.
    split; [reflexivity|split; [reflexivity|ring]].
Qed.

Lemma take_drop (n : nat) (s : string) : JS.str_take n s +:+ JS.str_drop n s = s.
Proof.
  revert s. induction n as [|n IH]; intros [|c s]; cbn [JS.str_take JS.str_drop];
    try reflexivity. by rewrite append_cons, IH.
Qed.

Lemma take_length (n : nat) (s : string) :
  (n <= String.length s)%nat -> String.length (JS.str_take n s) = n.
Proof.
  revert s. induction n as [|n IH]; intros [|c s] H; cbn [JS.str_take String.length] in *;
    try reflexivity; try lia. rewrite IH; lia.
Qed.

Lemma take_drop_digits (n : nat) (s : string) :
  all_digits s = true ->
  all_digits (JS.str_take n s) = true /\ all_digits (JS.str_drop n s) = true.
Proof.
  intros H. rewrite <- (take_drop n s), all_digits_app in H.
  by apply andb_prop in H.
Qed.

End Digits.

(** ** What [parseFloat] reads in a printed number *)

Section Printing.

Local Open Scope Z_scope.
Local Open Scope string_scope.

Lemma lex_digit_head (c : ascii) (s : string) (d : Z) :
  JS.digit_val c = Some d ->
  JS.lex (String c s) = JS.lex_unsigned false (String c s) /\
  String.prefix "Infinity" (String c s) = false /\
  JS.is_white c = false /\ Ascii.eqb c "," = false.
Proof.
  intros H.
  destruct c as [[] [] [] [] [] [] [] []]; try (vm_compute in H; discriminate H);
    repeat split; reflexivity.
Qed.

Lemma exp_tail_no_digit (E : string) : exp_tail E -> no_digit_head E = true.
Proof. by intros [->|(E' & ->)]. Qed.

Lemma lex_int (D1 E : string) :
  all_digits D1 = true -> D1 <> "" -> exp_tail E ->
  JS.lex (D1 +:+ E) = JS.NumDecimal false (digits_value D1 0) (JS.read_exponent E).
Proof.
  intros Hd Hne HE. destruct D1 as [|c D1]; [done|].
  pose proof Hd as Hd'. cbn [all_digits] in Hd'.
  destruct (JS.digit_val c) as [d|] eqn:Hc; [|discriminate].
  rewrite append_cons.
  destruct (lex_digit_head c (D1 +:+ E) d Hc) as (-> & Hp & _).
  unfold JS.lex_unsigned. rewrite Hp, <- append_cons.
  rewrite read_digits_app by exact Hd.
  rewrite read_digits_stop by (by apply exp_tail_no_digit).
  cbn [String.length Nat.add Nat.eqb].
  by destruct HE as [->|(E' & ->)].
Qed.

Lemma lex_frac (D1 D2 E : string) :
  all_digits D1 = true -> D1 <> "" -> all_digits D2 = true -> exp_tail E ->
  JS.lex (D1 +:+ "." +:+ D2 +:+ E) =
  JS.NumDecimal false (digits_value D2 (digits_value D1 0))
    (JS.read_exponent E - Z.of_nat (String.length D2)).
Proof.
  intros Hd Hne Hd2 HE. destruct D1 as [|c D1]; [done|].
  pose proof Hd as Hd'. cbn [all_digits] in Hd'.
  destruct (JS.digit_val c) as [d|] eqn:Hc; [|discriminate].
  rewrite append_cons.
  destruct (lex_digit_head c (D1 +:+ "." +:+ D2 +:+ E) d Hc) as (-> & Hp & _).
  unfold JS.lex_unsigned. rewrite Hp, <- append_cons.
  rewrite read_digits_app by exact Hd.
  rewrite read_digits_stop by reflexivity.
  change ("." +:+ D2 +:+ E) with (String "." (D2 +:+ E)). cbv iota beta.
  rewrite read_digits_app by exact Hd2.
  rewrite read_digits_stop by (by apply exp_tail_no_digit).
  cbn [String.length Nat.add Nat.eqb andb]. reflexivity.
Qed.

Lemma read_digits_all (d : string) (acc : Z) (cnt : nat) :
  all_digits d = true ->
  JS.read_digits d acc cnt = (digits_value d acc, (cnt + String.length d)%nat, "").
Proof.
  intros Hd. rewrite <- (app_nil_s d) at 1. by rewrite read_digits_app.
Qed.

Lemma read_exponent_fmt (e : Z) :
  JS.read_exponent ("e" +:+ (if (e <? 0)%Z then "-" else "+") +:+ JS.Z_digits (Z.abs e)) = e.
Proof.
  destruct (Z_digits_spec (Z.abs e)) as (Hall & Hne & Hv); [lia|].
  assert (Hl : (String.length (JS.Z_digits (Z.abs e)) =? 0)%nat = false).
  { destruct (JS.Z_digits (Z.abs e)); [done|reflexivity]. }
  destruct (Z.ltb_spec e 0).
  - change (JS.read_exponent (String "e" (String "-" (JS.Z_digits (Z.abs e))))
      = e). unfold JS.read_exponent. cbn [Ascii.eqb Bool.eqb orb].
    rewrite read_digits_all by exact Hall. cbn [Nat.add]. rewrite Hl, Hv. lia.
  - change (JS.read_exponent (String "e" (String "+" (JS.Z_digits (Z.abs e))))
      = e). unfold JS.read_exponent. cbn [Ascii.eqb Bool.eqb orb].
    rewrite read_digits_all by exact Hall. cbn [Nat.add]. rewrite Hl, Hv. lia.
Qed.

Lemma plain_app (a b : string) : plain (a +:+ b) = plain a && plain b.
Proof.
  induction a as [|c a IH]; [reflexivity|]. rewrite append_cons. cbn [plain].
  rewrite IH. by rewrite andb_assoc.
Qed.

Lemma plain_digits (d : string) : all_digits d = true -> plain d = true.
Proof.
  induction d as [|c d IH]; [reflexivity|]. cbn [all_digits plain].
  destruct (JS.digit_val c) as [v|] eqn:Hc; [|discriminate].
  destruct (lex_digit_head c "" v Hc) as (_ & _ & -> & ->). exact IH.
Qed.

Lemma plain_trim_start (s : string) : plain s = true -> JS.trim_start s = s.
Proof.
  destruct s as [|c s]; [reflexivity|]. cbn [plain JS.trim_start].
  by destruct (JS.is_white c).
Qed.

Lemma plain_trim_end (s : string) : plain s = true -> JS.trim_end s = s.
Proof.
  induction s as [|c s IH]; [reflexivity|]. cbn [plain JS.trim_end].
  destruct (JS.is_white c); [done|]. cbn [negb andb]. intros H.
  apply andb_prop in H as [_ H]. rewrite (IH H). by destruct s.
Qed.

Lemma plain_remove_white (s : string) : plain s = true -> JS.remove_white s = s.
Proof.
  induction s as [|c s IH]; [reflexivity|]. cbn [plain JS.remove_white].
  destruct (JS.is_white c); [done|]. cbn [negb andb]. intros H.
  apply andb_prop in H as [_ H]. by rewrite (IH H).
Qed.

Lemma plain_no_comma (s : string) :
  plain s = true -> JS.match_count "," s = 0%nat /\ JS.remove_all "," s = s.
Proof.
  induction s as [|c s IH]; [done|]. cbn [plain JS.match_count JS.remove_all].
  intros H. apply andb_prop in H as [H1 H]. apply andb_prop in H1 as [_ H1].
  destruct (Ascii.eqb c ","); [done|]. destruct (IH H) as [-> ->]. done.
Qed.

Lemma P_text_plain (s : string) : plain s = true -> P_text (Some s) = s.
Proof.
  intros H. unfold P_text, JS.trim. simpl default.
  rewrite (plain_trim_start s H), (plain_trim_end s H), (plain_remove_white s H).
  destruct (plain_no_comma s H) as [-> ->]. by rewrite andb_false_r.
Qed.

Lemma of_decimal_shift (s j : Z) :
  0 < s -> 0 <= j <= 400 ->
  JS.of_decimal false (s * 10 ^ j) 0 = JS.of_decimal false s j.
Proof.
  intros Hs Hj. assert (0 < 10 ^ j) by (apply Z.pow_pos_nonneg; lia).
  unfold JS.of_decimal.
  destruct (Z.eqb_spec (s * 10 ^ j) 0) as [?|_]; [nia|].
  destruct (Z.eqb_spec s 0) as [?|_]; [lia|].
  destruct (Z.leb_spec 0 j) as [_|?]; [|lia].
  destruct (Z.ltb_spec 400 j) as [?|_]; [lia|].
  cbn [Z.leb Z.ltb Z.compare]. by rewrite Z.pow_0_r, Z.mul_1_r.
Qed.

Lemma exp_notation (ds : string) (e : Z) :
  all_digits ds = true -> ds <> "" ->
  let k := Z.of_nat (String.length ds) in
  let body :=
    (if (k =? 1)%Z then ds else JS.str_take 1 ds +:+ "." +:+ JS.str_drop 1 ds) +:+
    "e" +:+ (if (e <? 0)%Z then "-" else "+") +:+ JS.Z_digits (Z.abs e) in
  plain body = true /\
  JS.lex body = JS.NumDecimal false (digits_value ds 0) (e - (k - 1)).
Proof.
  intros Hall Hne k body. subst body.
  assert (Hk : (0 < String.length ds)%nat) by (destruct ds; [done|cbn; lia]).
  assert (Hpl : plain ds = true) by (by apply plain_digits).
  destruct (Z_digits_spec (Z.abs e)) as (Ha & _ & _); [lia|].
  set (E := "e" +:+ (if (e <? 0)%Z then "-" else "+") +:+ JS.Z_digits (Z.abs e)).
  assert (Hpe : plain E = true).
  { subst E. rewrite !plain_app, (plain_digits _ Ha). by destruct (_ <? _)%Z. }
  assert (Het : exp_tail E) by (right; by eexists).
  assert (HE : JS.read_exponent E = e) by apply read_exponent_fmt.
  destruct (Z.eqb_spec k 1) as [Hk1|Hk1].
  - split; [by rewrite plain_app, Hpl, Hpe|].
    rewrite lex_int; [|exact Hall|exact Hne|exact Het].
    rewrite HE. f_equal. lia.
  - destruct (take_drop_digits 1 ds Hall) as [Ht Hdr].
    assert (Hlt : String.length (JS.str_take 1 ds) = 1%nat) by (apply take_length; lia).
    assert (Hld : Z.of_nat (String.length (JS.str_drop 1 ds)) = k - 1).
    { pose proof (len_app (JS.str_take 1 ds) (JS.str_drop 1 ds)) as L.
      rewrite take_drop in L. subst k. lia. }
    split.
    { by rewrite !plain_app, (plain_digits _ Ht), (plain_digits _ Hdr), Hpe. }
    rewrite !app_assoc_s.
    rewrite lex_frac; [|exact Ht|by destruct (JS.str_take 1 ds)|exact Hdr|exact Het].
    rewrite HE, <- digits_value_app, take_drop, Hld by exact Ht. reflexivity.
Qed.

(** What [parseFloat] reads in the text of [s * 10^e10]. *)
Lemma format_decimal_spec (s e10 : Z) :
  0 < s ->
  plain (JS.format_decimal s e10) = true /\
  JS.parseFloat (JS.format_decimal s e10) = JS.of_decimal false s e10.
Proof.
  intros Hs. unfold JS.format_decimal, JS.parseFloat.
  destruct (Z_digits_spec s) as (Hall & Hne & Hv); [lia|].
  set (ds := JS.Z_digits s) in *.
  assert (Hk : (0 < String.length ds)%nat) by (destruct ds; [done|cbn; lia]).
  set (k := Z.of_nat (String.length ds)).
  assert (Hpl : plain ds = true) by (by apply plain_digits).
  assert (Hexp : plain ((if (k =? 1)%Z then ds
                         else JS.str_take 1 ds +:+ "." +:+ JS.str_drop 1 ds) +:+
                        "e" +:+ (if (e10 + k - 1 <? 0)%Z then "-" else "+") +:+
                        JS.Z_digits (Z.abs (e10 + k - 1))) = true /\
                 JS.numeral_value (JS.lex
                       ((if (k =? 1)%Z then ds
                         else JS.str_take 1 ds +:+ "." +:+ JS.str_drop 1 ds) +:+
                        "e" +:+ (if (e10 + k - 1 <? 0)%Z then "-" else "+") +:+
                        JS.Z_digits (Z.abs (e10 + k - 1)))) = JS.of_decimal false s e10).
  { destruct (exp_notation ds (e10 + k - 1) Hall Hne) as [Hp Hl].
    split; [exact Hp|]. fold k in Hl. rewrite Hl, Hv. cbn [JS.numeral_value].
    f_equal. lia. }
  destruct (Z.leb_spec k (e10 + k)) as [H1|H1];
    destruct (Z.leb_spec (e10 + k) 21) as [H2|H2];
    destruct (Z.ltb_spec 0 (e10 + k)) as [H3|H3];
    destruct (Z.ltb_spec (-6) (e10 + k)) as [H4|H4];
    destruct (Z.leb_spec (e10 + k) 0) as [H5|H5];
    cbn [andb]; try lia; try exact Hexp.
  - (* digits followed by zeros *)
    destruct (zeros_spec (Z.to_nat (e10 + k - k)) (digits_value ds 0)) as (Hz1 & Hz2 & Hz3).
    assert (Hd : all_digits (ds +:+ JS.zeros (Z.to_nat (e10 + k - k))) = true)
      by (by rewrite all_digits_app, Hall, Hz1).
    split; [by apply plain_digits|].
    rewrite <- (app_nil_s (ds +:+ _)).
    rewrite lex_int; [|exact Hd|by destruct ds|by left].
    rewrite digits_value_app, Hz3, Hv by exact Hall.
    cbn [JS.read_exponent JS.numeral_value].
    replace (e10 + k - k) with e10 by lia. rewrite Z2Nat.id by lia.
    apply of_decimal_shift; lia.
  - (* a decimal point inside the digits *)
    destruct (take_drop_digits (Z.to_nat (e10 + k)) ds Hall) as [Ht Hdr].
    assert (Hlt : String.length (JS.str_take (Z.to_nat (e10 + k)) ds) = Z.to_nat (e10 + k))
      by (apply take_length; lia).
    assert (Hld : Z.of_nat (String.length (JS.str_drop (Z.to_nat (e10 + k)) ds)) = - e10).
    { pose proof (len_app (JS.str_take (Z.to_nat (e10 + k)) ds)
                    (JS.str_drop (Z.to_nat (e10 + k)) ds)) as L.
      rewrite take_drop in L. subst k. lia. }
    split.
    { by rewrite !plain_app, (plain_digits _ Ht), (plain_digits _ Hdr). }
    rewrite <- (app_nil_s (JS.str_drop _ ds)).
    rewrite lex_frac; [|exact Ht| |exact Hdr|by left].
    2:{ intros E. rewrite E in Hlt. cbn in Hlt. lia. }
    rewrite <- digits_value_app, take_drop, Hv, Hld by exact Ht.
    cbn [JS.read_exponent JS.numeral_value]. f_equal. lia.
  - (* zeros between the decimal point and the digits *)
    destruct (zeros_spec (Z.to_nat (- (e10 + k))) 0) as (Hz1 & Hz2 & Hz3).
    assert (Hd : all_digits (JS.zeros (Z.to_nat (- (e10 + k))) +:+ ds) = true)
      by (by rewrite all_digits_app, Hall, Hz1).
    split.
    { change ("0." +:+ JS.zeros (Z.to_nat (- (e10 + k))) +:+ ds)
        with ("0" +:+ "." +:+ JS.zeros (Z.to_nat (- (e10 + k))) +:+ ds).
      by rewrite !plain_app, (plain_digits _ Hz1), Hpl. }
    change ("0." +:+ JS.zeros (Z.to_nat (- (e10 + k))) +:+ ds)
      with ("0" +:+ "." +:+ (JS.zeros (Z.to_nat (- (e10 + k))) +:+ ds)).
    rewrite <- (app_nil_s (JS.zeros _ +:+ ds)).
    rewrite lex_frac; [|reflexivity|done|exact Hd|by left].
    rewrite digits_value_app, len_app, Hz2 by exact Hz1.
    change (digits_value "0" 0) with 0. rewrite Hz3, Z.mul_0_l, Hv.
    cbn [JS.read_exponent JS.numeral_value]. f_equal. subst k. lia.
Qed.

End Printing.

(** ** [String] and [P] *)

Section RoundTrip.

Local Open Scope Z_scope.

(** Equality and identity coincide on a finite non-zero number. *)
Lemma eqb_finite_eq (a x : float) (s : bool) (m : positive) (e : Z) :
  Prim2SF x = S754_finite s m e -> (a =? x)%float = true -> a = x.
Proof.
  intros Hx H. rewrite FloatAxioms.eqb_spec, Hx in H. apply Prim2SF_inj. rewrite Hx.
  unfold SFeqb in H. destruct (Prim2SF a) as [| |  |s' m' e']; cbn [SFcompare] in H;
    try discriminate; try (destruct s; discriminate); try (destruct s0; discriminate).
  destruct s', s; try discriminate;
    destruct (e' ?= e) eqn:Ez; try discriminate;
    apply Z.compare_eq in Ez; subst e';
    destruct (Pos.compare_cont Eq m' m) eqn:Em; try discriminate;
    apply (Pos.compare_eq m' m) in Em; subst m'; reflexivity.
Qed.

Lemma shortest_spec (x : float) (fuel : nat) (N D n k s e10 : Z) :
  0 < N -> 0 < D ->
  JS.shortest fuel x N D n k = Some (s, e10) ->
  JS.digits_ok x s e10 = true /\ 0 <= s.
Proof.
  intros HN HD. revert k. induction fuel as [|fuel IH]; intros k; [discriminate|].
  cbn [JS.shortest].
  destruct (if 0 <=? k - n then (N * 10 ^ (k - n), D) else (N, D * 10 ^ (n - k)))
    as [A B] eqn:EAB.
  assert (HAB : 0 <= A /\ 0 < B).
  { destruct (0 <=? k - n) eqn:E; inversion EAB; subst; clear EAB.
    - apply Z.leb_le in E. assert (0 < 10 ^ (k - n)) by (apply Z.pow_pos_nonneg; lia). nia.
    - apply Z.leb_gt in E. assert (0 < 10 ^ (n - k)) by (apply Z.pow_pos_nonneg; lia). nia. }
  assert (Hlo : 0 <= A / B) by (apply Z.div_pos; lia).
  cbv zeta.
  set (hi := if A / B + 1 =? 10 ^ k then (1, n) else (A / B + 1, n - k)).
  assert (Hhi : 0 <= hi.1) by (subst hi; destruct (_ =? _); cbn [fst]; lia).
  destruct (JS.digits_ok x (A / B) (n - k)) eqn:Elo;
    destruct (JS.digits_ok x hi.1 hi.2) eqn:Ehi; cbn [andb orb negb].
  - destruct (_ || _).
    + intros [= <- <-]. done.
    + intros [= E]. assert (hi.1 = s /\ hi.2 = e10) as [<- <-] by (by rewrite E). done.
  - rewrite orb_true_r. intros [= <- <-]. done.
  - intros [= E]. assert (hi.1 = s /\ hi.2 = e10) as [<- <-] by (by rewrite E). done.
  - apply IH.
Qed.

Lemma decimal_of_spec (x : float) (m : positive) (e : Z) :
  Prim2SF x = S754_finite false m e ->
  JS.of_decimal false (JS.decimal_of x m e).1 (JS.decimal_of x m e).2 = x /\
  0 < (JS.decimal_of x m e).1.
Proof.
  intros Hx.
  assert (Hnz : forall s e10, JS.of_decimal false s e10 = x -> s <> 0).
  { intros s e10 H ->. rewrite <- H in Hx. vm_compute in Hx. discriminate Hx. }
  unfold JS.decimal_of.
  destruct (JS.shortest _ _ _ _ _ _) as [[s e10]|] eqn:Es; cbn [fst snd].
  - apply shortest_spec in Es as [Hok Hs].
    + apply (eqb_finite_eq _ _ _ _ _ Hx) in Hok.
      split; [exact Hok|]. specialize (Hnz s e10 Hok). lia.
    + assert (0 < 2 ^ Z.max e 0) by (apply Z.pow_pos_nonneg; lia). lia.
    + apply Z.pow_pos_nonneg; lia.
  - pose proof (of_decimal_exact x m e Hx) as H.
    split; [exact H|]. unfold JS.exact_decimal. destruct (0 <=? e) eqn:E; cbn [fst].
    + apply Z.leb_le in E. assert (0 < 2 ^ e) by (apply Z.pow_pos_nonneg; lia). lia.
    + apply Z.leb_gt in E. assert (0 < 5 ^ (- e)) by (apply Z.pow_pos_nonneg; lia). lia.
Qed.

Lemma positive_SF (x : float) :
  (0 <? x)%float = true -> is_finite x = true ->
  exists m e, Prim2SF x = S754_finite false m e.
Proof.
  rewrite FloatAxioms.ltb_spec, is_finite_SF. unfold SFltb.
  change (Prim2SF 0) with (S754_zero false).
  destruct (Prim2SF x) as [| | |[] m e]; cbn [SFcompare]; try discriminate; eauto.
Qed.

Lemma abs_positive (x : float) (m : positive) (e : Z) :
  Prim2SF x = S754_finite false m e -> PrimFloat.abs x = x.
Proof.
  intros Hx. apply Prim2SF_inj. by rewrite abs_spec, Hx.
Qed.

(** [P] reads the text of a finite number that is [+0] or positive as that
    number. *)
Lemma P_toString (x : float) :
  is_finite x = true -> x = 0%float \/ (0 <? x)%float = true ->
  P (Some (JS.toString x)) = x.
Proof.
  intros Hf [->|Hp]; [vm_compute; reflexivity|].
  destruct (positive_SF x Hp Hf) as (m & e & Hx).
  unfold JS.toString. rewrite Hx, (abs_positive x m e Hx).
  destruct (decimal_of_spec x m e Hx) as [Hv Hs].
  destruct (JS.decimal_of x m e) as [s e10]. cbn [fst snd] in *.
  change (("" +:+ JS.format_decimal s e10)%string) with (JS.format_decimal s e10).
  destruct (format_decimal_spec s e10 Hs) as [Hpl Hpf].
  rewrite P_P_text, (P_text_plain _ Hpl), Hpf, Hv. cbv zeta.
  unfold JS.isFinite. by rewrite Hf.
Qed.

Lemma reads_back_finite (x : float) :
  is_finite x = true -> x = 0%float \/ (0 <? x)%float = true -> reads_back x.
Proof.
  intros Hf Hx. unfold reads_back. rewrite (P_toString x Hf Hx).
  destruct Hx as [->|Hp]; [vm_compute; reflexivity|].
  unfold clamp, JS.isFinite. rewrite Hf. unfold JS.max.
  rewrite FloatAxioms.ltb_spec in Hp. rewrite FloatAxioms.compare_spec.
  unfold SFltb in Hp. by destruct (SFcompare _ _) as [[]|].
Qed.

End RoundTrip.

(** ** Signs of the derived values *)

Section Plus.

Local Open Scope Z_scope.
Local Open Scope float_scope.

Lemma plus_clamp0 (n : float) : plus_SF (Prim2SF (clamp n 0)) = true.
Proof.
  destruct (clamp0_cases n) as [-> | (-> & Hf & Hp)]; [reflexivity|].
  by destruct (positive_SF n Hp Hf) as (m & e & ->).
Qed.

Lemma plus_mul (x y : float) :
  plus_SF (Prim2SF x) = true -> plus_SF (Prim2SF y) = true ->
  plus_SF (Prim2SF (x * y)) = true.
Proof.
  rewrite mul_spec. intros Hx Hy.
  destruct (Prim2SF x) as [[]|[]| |[] mx ex], (Prim2SF y) as [[]|[]| |[] my ey];
    try discriminate; try reflexivity.
  unfold SF64mul, SFmul. cbn [xorb].
  pose proof (binary_round_aux_sign false (Z.pos (mx * my)) (ex + ey) loc_Exact) as H.
  by destruct (binary_round_aux _ _ _ _ _ _) as [[]|[]| |[] ? ?].
Qed.

Lemma plus_div (x y : float) :
  plus_SF (Prim2SF x) = true -> JS.gt y 0 = true ->
  plus_SF (Prim2SF (x / y)) = true.
Proof.
  unfold JS.gt. rewrite div_spec, FloatAxioms.ltb_spec.
  change (Prim2SF 0) with (S754_zero false). intros Hx Hy.
  destruct (Prim2SF x) as [[]|[]| |[] mx ex], (Prim2SF y) as [[]|[]| |[] my ey];
    try discriminate; try reflexivity.
  unfold SF64div, SFdiv. cbn [xorb].
  destruct (SFdiv_core_binary prec emax (Z.pos mx) ex (Z.pos my) ey) as [[mz ez] lz].
  pose proof (binary_round_aux_sign false mz ez lz) as H.
  by destruct (binary_round_aux _ _ _ _ _ _) as [[]|[]| |[] ? ?].
Qed.

Lemma plus_add (x y : float) :
  plus_SF (Prim2SF x) = true -> plus_SF (Prim2SF y) = true ->
  plus_SF (Prim2SF (x + y)) = true.
Proof.
  rewrite add_spec. intros Hx Hy.
  destruct (Prim2SF x) as [[]|[]| |[] mx ex], (Prim2SF y) as [[]|[]| |[] my ey];
    try discriminate; try reflexivity.
  unfold SF64add, SFadd. cbn [cond_Zopp]. unfold binary_normalize, binary_round.
  change (Z.pos ?a + Z.pos ?b)%Z with (Z.pos (a + b)). cbv iota beta.
  destruct (shl_align (_ + _)%positive _ _) as [mz ez].
  pose proof (binary_round_aux_sign false (Z.pos mz) ez loc_Exact) as H.
  by destruct (binary_round_aux _ _ _ _ _ _) as [[]|[]| |[] ? ?].
Qed.

Lemma plus_gla (f : form) : plus_SF (Prim2SF (gla (App_chain f))) = true.
Proof.
  unfold App_chain. rewrite computeChain_float. cbv zeta. cbn [gla].
  apply plus_mul; [apply plus_clamp0|].
  apply plus_add; [reflexivity|]. apply plus_div; [apply plus_clamp0|reflexivity].
Qed.

Lemma plus_finite (x : float) :
  plus_SF (Prim2SF x) = true -> is_finite x = true -> x = 0 \/ (0 <? x) = true.
Proof.
  rewrite is_finite_SF, FloatAxioms.ltb_spec. change (Prim2SF 0) with (S754_zero false).
  intros Hp Hf. destruct (Prim2SF x) as [[]|[]| |[] m e] eqn:E; try discriminate.
  - left. apply Prim2SF_inj. by rewrite E.
  - by right.
Qed.

(** The values the effect derives are never negative, and never [-0]. *)
Lemma plus_derived (f : form) (k : string) (x : float) :
  (k, x) ∈ derivedFields f -> plus_SF (Prim2SF x) = true.
Proof.
  unfold derivedFields, stored.
  assert (Hz : plus_SF (Prim2SF 0) = true) by reflexivity.
  assert (Hn : plus_SF (Prim2SF (nla (guard f))) = true) by apply plus_clamp0.
  pose proof (plus_clamp0 (P (f !! "fitPerNLA"%string))) as H1.
  pose proof (plus_clamp0 (P (f !! "fitPerGLA"%string))) as H2.
  pose proof (plus_clamp0 (P (f !! "fitTot"%string))) as H3.
  pose proof (plus_gla f) as Hgla.
  set (g := gla (App_chain f)) in *. set (n := nla (guard f)) in *.
  assert (Hg : forall t, plus_SF (Prim2SF t) = true ->
                 plus_SF (Prim2SF (if JS.gt g 0 then t / g else 0)) = true).
  { intros t Ht. destruct (JS.gt g 0) eqn:E; [by apply plus_div|exact Hz]. }
  assert (Hq : forall t, plus_SF (Prim2SF t) = true ->
                 plus_SF (Prim2SF (if JS.gt n 0 then t / n else 0)) = true).
  { intros t Ht. destruct (JS.gt n 0) eqn:E; [by apply plus_div|exact Hz]. }
  cbv zeta.
  destruct (bool_decide _); [|destruct (bool_decide _)];
    intros Hin; repeat (apply elem_of_cons in Hin as [[= -> ->]|Hin]);
    try (by apply elem_of_nil in Hin);
    first [apply Hg | apply Hq | idtac]; try apply plus_mul; assumption.
Qed.

Lemma reads_back_derived (f : form) (k : string) (x : float) :
  (k, x) ∈ derivedFields f -> is_finite x = true -> reads_back x.
Proof.
  intros Hin Hf. apply reads_back_finite; [exact Hf|].
  apply plus_finite; [by eapply plus_derived|exact Hf].
Qed.

(** ** No NaN from a difference of finite numbers *)

Lemma iter_pos_invariant {A} (f : A -> A) (Inv : A -> Prop) :
  (forall x, Inv x -> Inv (f x)) -> forall p x, Inv x -> Inv (SpecFloat.iter_pos f p x).
Proof.
  intros Hf p. induction p as [p IH|p IH|]; intros x Hx; cbn [SpecFloat.iter_pos]; auto.
Qed.

Lemma shr_1_nonneg (mrs : shr_record) : (0 <= shr_m mrs)%Z -> (0 <= shr_m (shr_1 mrs))%Z.
Proof. destruct mrs as [[|[p|p|]|p] r s]; cbn [shr_1 shr_m]; lia. Qed.

Lemma shr_fexp_nonneg (m e : Z) (l : location) :
  (0 <= m)%Z -> (0 <= shr_m (shr_fexp prec emax m e l).1)%Z.
Proof.
  intros Hm. unfold shr_fexp, shr.
  assert (H0 : (0 <= shr_m (shr_record_of_loc m l))%Z) by (by destruct l as [|[]]).
  destruct (_ - e)%Z; cbn [fst]; try exact H0.
  by apply (iter_pos_invariant shr_1 (fun r => (0 <= shr_m r)%Z) shr_1_nonneg).
Qed.

Lemma binary_round_aux_not_nan (s : bool) (m e : Z) (l : location) :
  (0 <= m)%Z -> binary_round_aux prec emax s m e l <> S754_nan.
Proof.
  intros Hm. unfold binary_round_aux.
  pose proof (shr_fexp_nonneg m e l Hm) as H1.
  destruct (shr_fexp prec emax m e l) as [mrs' e']. cbn [fst] in H1.
  assert (H2 : (0 <= round_nearest_even (shr_m mrs') (loc_of_shr_record mrs'))%Z).
  { unfold round_nearest_even. destruct (loc_of_shr_record mrs') as [|[]];
      try destruct (Z.even _); lia. }
  pose proof (shr_fexp_nonneg _ e' loc_Exact H2) as H3.
  destruct (shr_fexp prec emax _ e' loc_Exact) as [mrs'' e'']. cbn [fst] in H3.
  destruct (shr_m mrs''); [done| |lia]. by destruct (_ <=? _)%Z.
Qed.

Lemma binary_normalize_not_nan (z e : Z) (s : bool) :
  binary_normalize prec emax z e s <> S754_nan.
Proof.
  destruct z; cbn [binary_normalize]; [done| |]; unfold binary_round;
    destruct (shl_align _ _ _); by apply binary_round_aux_not_nan.
Qed.

Lemma sub_finite_not_nan (x y : float) :
  is_finite x = true -> is_finite y = true -> is_nan (x - y) = false.
Proof.
  rewrite !is_finite_SF, is_nan_SF, sub_spec. intros Hx Hy.
  destruct (Prim2SF x) as [[]|[]| |sx mx ex], (Prim2SF y) as [[]|[]| |sy my ey];
    try discriminate; try reflexivity.
  unfold SF64sub, SFsub.
  pose proof (binary_normalize_not_nan
    (cond_Zopp sx (Z.pos (shl_align mx ex (Z.min ex ey)).1) -
     cond_Zopp sy (Z.pos (shl_align my ey (Z.min ex ey)).1)) (Z.min ex ey) false) as H.
  by destruct (binary_normalize _ _ _ _ _).
Qed.

(** Within the tolerance: for finite numbers, not more than [1e-9] apart
    means at most [1e-9] apart. *)
Lemma not_differs_le (x y : float) :
  is_finite x = true -> is_finite y = true ->
  differs x y = false -> (JS.abs (x - y) <=? 1e-9) = true.
Proof.
  intros Hx Hy. pose proof (sub_finite_not_nan x y Hx Hy) as Hn.
  unfold differs, JS.gt, JS.abs. rewrite is_nan_SF in Hn.
  rewrite FloatAxioms.ltb_spec, FloatAxioms.leb_spec, abs_spec, Prim2SF_eps.
  unfold SFltb, SFleb.
  rewrite (SFcompare_antisym (SFabs (Prim2SF (x - y)))).
  destruct (Prim2SF (x - y)) as [[]|[]| |[] m e]; try discriminate; cbn [SFabs];
    by destruct (SFcompare _ _) as [[]|] eqn:E.
Qed.

End Plus.

(* ================================================================== *)
(** * The fit-out effect *)
(* ================================================================== *)

Lemma stored_finite (f : form) (k : string) : is_finite (stored f k) = true.
Proof. apply clamp0_finite_nonneg. Qed.

Lemma syncDerived_reads_back (f : form) :
  Forall (fun kx => is_finite kx.2 = true) (syncDerived f) ->
  Forall (fun kx => reads_back kx.2) (syncDerived f).
Proof.
  rewrite !Forall_forall. intros H [k x] Hin. cbn [snd].
  apply (reads_back_derived f k x); [|exact (H _ Hin)].
  rewrite syncDerived_filter in Hin. by apply list_elem_of_filter in Hin as [_ ?].
Qed.

Lemma derived_written_finite (f : form) :
  Forall (fun kx => is_finite kx.2 = true) (derivedFields f) ->
  Forall (fun kx => is_finite kx.2 = true) (syncDerived f).
Proof.
  rewrite !Forall_forall. intros H kx Hin. apply H.
  rewrite syncDerived_filter in Hin. by apply list_elem_of_filter in Hin as [_ ?].
Qed.

Lemma not_in_two (k k1 k2 : string) (x1 x2 : float) :
  k <> k1 -> k <> k2 -> k ∉ [(k1, x1); (k2, x2)].*1.
Proof.
  intros H1 H2. rewrite !fmap_cons, fmap_nil. cbn [fst].
  intros Hin; repeat (apply elem_of_cons in Hin as [Hin|Hin]; [done|]);
  by apply elem_of_nil in Hin.
Qed.

(** C3 (as amended): after one run of the fit-out effect in a state whose
    derived values are finite, each of the two derived fields of the mode
    holds a number at most 1e-9 away from the value derived from the
    authoritative field: a derived field that was already that close keeps
    its text, any other is overwritten with the text of the derived value
    and reads back as that value.  Every other field, in particular the
    authoritative one, is unmodified.  So in mode perNLA
    |fitPerNLA * nla - fitTot| <= 1e-9 and in mode perGLA
    |fitPerGLA * gla - fitTot| <= 1e-9 afterwards, and in mode total the
    two rates are within 1e-9 of fitTot / nla and fitTot / gla; the
    products of a derived rate and its area agree with the total only up
    to that tolerance scaled by the area, and rounding. *)
Theorem reconcile_fields (f : form) :
  Forall (fun kx => is_finite kx.2 = true) (derivedFields f) ->
  (forall k x, (k, x) ∈ derivedFields f ->
     (JS.abs (x - stored (reconcile f) k) <=? 1e-9) = true /\
     (differs x (stored f k) = false -> reconcile f !! k = f !! k) /\
     (differs x (stored f k) = true ->
        reconcile f !! k = Some (JS.toString x) /\ stored (reconcile f) k = x)) /\
  (forall k, k ∉ (derivedFields f).*1 -> reconcile f !! k = f !! k) /\
  (f !! "fitMode"%string = Some "perNLA"%string ->
     reconcile f !! "fitPerNLA"%string = f !! "fitPerNLA"%string /\
     (JS.abs (stored (reconcile f) "fitPerNLA" * nla (guard (reconcile f)) -
              stored (reconcile f) "fitTot") <=? 1e-9) = true) /\
  (f !! "fitMode"%string = Some "perGLA"%string ->
     reconcile f !! "fitPerGLA"%string = f !! "fitPerGLA"%string /\
     (JS.abs (stored (reconcile f) "fitPerGLA" * gla (App_chain (reconcile f)) -
              stored (reconcile f) "fitTot") <=? 1e-9) = true) /\
  (f !! "fitMode"%string ≠ Some "perNLA"%string ->
   f !! "fitMode"%string ≠ Some "perGLA"%string ->
     reconcile f !! "fitTot"%string = f !! "fitTot"%string).
Proof.
  intros Hfin.
  pose proof (syncDerived_reads_back f (derived_written_finite f Hfin)) as Hrb.
  assert (Hall : forall k x, (k, x) ∈ derivedFields f ->
     (JS.abs (x - stored (reconcile f) k) <=? 1e-9) = true /\
     (differs x (stored f k) = false -> reconcile f !! k = f !! k) /\
     (differs x (stored f k) = true ->
        reconcile f !! k = Some (JS.toString x) /\ stored (reconcile f) k = x)).
  { intros k x Hin.
    assert (Hx : is_finite x = true).
    { rewrite Forall_forall in Hfin. exact (Hfin _ Hin). }
    split; [|split].
    - apply not_differs_le; [exact Hx|apply stored_finite|].
      by apply reconcile_close.
    - by apply reconcile_kept.
    - intros Hd.
      assert (Hw : (k, x) ∈ syncDerived f).
      { rewrite syncDerived_filter. apply list_elem_of_filter. by split. }
      split; [by apply reconcile_written|].
      unfold stored. rewrite (reconcile_written _ _ _ Hw).
      by apply (reads_back_derived f k x). }
  split; [exact Hall|]. split; [apply reconcile_frame|].
  split; [|split].
  - intros Hm. rewrite (derivedFields_perNLA f Hm) in Hall.
    assert (Hk : reconcile f !! "fitPerNLA"%string = f !! "fitPerNLA"%string).
    { apply reconcile_frame. rewrite (derivedFields_perNLA f Hm). by apply not_in_two. }
    split; [exact Hk|].
    rewrite reconcile_nla. unfold stored at 1. rewrite Hk.
    apply Hall. apply elem_of_cons. by left.
  - intros Hm. rewrite (derivedFields_perGLA f Hm) in Hall.
    assert (Hk : reconcile f !! "fitPerGLA"%string = f !! "fitPerGLA"%string).
    { apply reconcile_frame. rewrite (derivedFields_perGLA f Hm). by apply not_in_two. }
    split; [exact Hk|].
    rewrite reconcile_gla. unfold stored at 1. rewrite Hk.
    apply Hall. apply elem_of_cons. by left.
  - intros H1 H2. apply reconcile_frame. rewrite (derivedFields_total f H1 H2).
    by apply not_in_two.
Qed.

Lemma reconcile_fields_witness :
  Forall (fun kx => is_finite kx.2 = true) (derivedFields f_init) /\
  reconcile f_init !! "fitPerNLA"%string = f_init !! "fitPerNLA"%string /\
  (JS.abs (stored (reconcile f_init) "fitPerNLA" * nla (guard (reconcile f_init)) -
           stored (reconcile f_init) "fitTot") <=? 1e-9) = true.
Proof.
  assert (H : Forall (fun kx => is_finite kx.2 = true) (derivedFields f_init)).
  { let l := eval vm_compute in (derivedFields f_init) in
    change (derivedFields f_init) with l.
    repeat constructor. }
  split; [exact H|].
  apply (reconcile_fields f_init H). vm_compute. reflexivity.
Defined.

(** C8 (as amended): the fit-out effect is idempotent in every mode and
    every field state in which the values the first run writes are finite:
    a second run right after the first queues no update and leaves the
    form as it is. *)
Theorem reconcile_idempotent (f : form) :
  Forall (fun kx => is_finite kx.2 = true) (syncDerived f) ->
  syncFitOuts (reconcile f) = [] /\ reconcile (reconcile f) = reconcile f.
Proof.
  intros Hfin. pose proof (syncDerived_reads_back f Hfin) as Hrb.
  assert (H : syncFitOuts (reconcile f) = []).
  { unfold syncFitOuts. by rewrite (syncDerived_reconcile f Hrb). }
  split; [exact H|]. unfold reconcile at 1. by rewrite H.
Qed.

Lemma reconcile_idempotent_witness :
  Forall (fun kx => is_finite kx.2 = true) (syncDerived f_init) /\
  syncFitOuts f_init = [("fitPerGLA", "285.7142857142857")]%string /\
  syncFitOuts (reconcile f_init) = [].
Proof.
  assert (H : Forall (fun kx => is_finite kx.2 = true) (syncDerived f_init)).
  { let l := eval vm_compute in (syncDerived f_init) in
    change (syncDerived f_init) with l.
    repeat constructor. }
  split; [exact H|]. split; [vm_compute; reflexivity|].
  exact (proj1 (reconcile_idempotent f_init H)).
Defined.

(* ================================================================== *)
(** * Zero area, and scenarios *)
(* ================================================================== *)

(** Zero less a number that is not a zero is minus that number. *)
Lemma zero_sub (z x : float) :
  is_zero z = true -> is_zero x = false -> z - x = - x.
Proof.
  rewrite !is_zero_SF. intros Hz Hx. apply Prim2SF_inj.
  rewrite sub_spec, opp_spec.
  by destruct (Prim2SF z) as [[]|[]| |], (Prim2SF x) as [[]|[]| |].
Qed.

(** C4 (as amended): for every parameter set with nla = 0 whose
    intermediate values (1 + addon/100, rent, duration, months) are finite,
    the engine returns gla = 0, gross = 0, denom = 1e-9 and ner1 = 0; the
    fit-out total is 0 in modes perNLA and perGLA (finite rates) and is the
    entered total otherwise, and the agent fees are 0 (agent * rent
    finite).  ner2, ner3 and ner4 are the gross rent, a zero, less the
    costs subtracted so far, divided by 1e-9: a zero as long as those
    costs are zeros, and otherwise minus those costs divided by 1e-9. *)
Theorem zero_area_chain (p : Inputs float) :
  is_zero (nla p) = true ->
  is_finite (1 + addon p / 100) = true ->
  is_finite (rent p) = true ->
  is_finite (duration p) = true ->
  is_finite (months (computeChain p)) = true ->
  let c := computeChain p in
  is_zero (gla c) = true /\
  is_zero (gross c) = true /\
  denom c = 1e-9 /\
  is_zero (ner1 c) = true /\
  (fitMode p = Some "perNLA"%string -> is_finite (perNLA p) = true ->
     is_zero (totalFit c) = true) /\
  (fitMode p = Some "perGLA"%string -> is_finite (perGLA p) = true ->
     is_zero (totalFit c) = true) /\
  (fitMode p <> Some "perNLA"%string -> fitMode p <> Some "perGLA"%string ->
     totalFit c = tot p) /\
  (is_finite (agent p * rent p) = true -> is_zero (agentFees c) = true) /\
  ner2 c = (gross c - totalFit c) / 1e-9 /\
  ner3 c = (gross c - totalFit c - agentFees c) / 1e-9 /\
  ner4 c = (gross c - totalFit c - agentFees c - unforeseen p) / 1e-9 /\
  (if is_zero (totalFit c) then is_zero (ner2 c) = true
   else ner2 c = - totalFit c / 1e-9) /\
  (if is_zero (totalFit c) then
     if is_zero (agentFees c) then is_zero (ner3 c) = true
     else ner3 c = - agentFees c / 1e-9
   else ner3 c = (- totalFit c - agentFees c) / 1e-9) /\
  (if is_zero (totalFit c) then
     if is_zero (agentFees c) then
       if is_zero (unforeseen p) then is_zero (ner4 c) = true
       else ner4 c = - unforeseen p / 1e-9
     else ner4 c = (- agentFees c - unforeseen p) / 1e-9
   else ner4 c = (- totalFit c - agentFees c - unforeseen p) / 1e-9).
Proof.
  intros Hnla Hfac Hrent Hdur Hmon. cbv zeta.
  rewrite computeChain_float in *. cbn zeta in *.
  cbn [gla months gross totalFit agentFees denom ner1 ner2 ner3 ner4] in *.
  assert (Hgla : is_zero (nla p * (1 + addon p / 100)) = true)
    by (by apply mul_zero_l).
  assert (Hgross : is_zero (rent p * (nla p * (1 + addon p / 100)) *
                            JS.max 0 (duration p - rf p)) = true).
  { apply mul_zero_l; [ by apply mul_zero_r | exact Hmon ]. }
  assert (Hden : JS.max 1e-9 (duration p * (nla p * (1 + addon p / 100))) = 1e-9).
  { apply max_eps_zero. by apply mul_zero_r. }
  rewrite !Hden.
  set (g := rent p * (nla p * (1 + addon p / 100)) * JS.max 0 (duration p - rf p)) in *.
  set (af := agent p * rent p * (nla p * (1 + addon p / 100))).
  set (tf := if bool_decide (fitMode p = Some "perNLA"%string) then perNLA p * nla p
             else if bool_decide (fitMode p = Some "perGLA"%string)
                  then perGLA p * (nla p * (1 + addon p / 100)) else tot p).
  split; [exact Hgla|]. split; [exact Hgross|]. split; [reflexivity|].
  split; [by apply div_zero_eps|].
  split; [intros Hm Hf; subst tf; rewrite Hm, bool_decide_eq_true_2 by done;
          by apply mul_zero_r|].
  split; [intros Hm Hf; subst tf; rewrite Hm, bool_decide_eq_false_2 by done;
          rewrite bool_decide_eq_true_2 by done; by apply mul_zero_r|].
  split; [intros H1 H2; subst tf; by rewrite !bool_decide_eq_false_2|].
  split; [intros Hf; by apply mul_zero_r|].
  do 3 (split; [reflexivity|]).
  split; [|split].
  - destruct (is_zero tf) eqn:Ht.
    + by apply div_zero_eps, sub_zero.
    + by rewrite (zero_sub g tf).
  - destruct (is_zero tf) eqn:Ht.
    + assert (Hz : is_zero (g - tf) = true) by (by apply sub_zero).
      destruct (is_zero af) eqn:Ha.
      * by apply div_zero_eps, sub_zero.
      * by rewrite (zero_sub (g - tf) af).
    + by rewrite (zero_sub g tf).
  - destruct (is_zero tf) eqn:Ht.
    + assert (Hz : is_zero (g - tf) = true) by (by apply sub_zero).
      destruct (is_zero af) eqn:Ha.
      * assert (Hz' : is_zero (g - tf - af) = true) by (by apply sub_zero).
        destruct (is_zero (unforeseen p)) eqn:Hu.
        -- by apply div_zero_eps, sub_zero.
        -- by rewrite (zero_sub (g - tf - af) (unforeseen p)).
      * by rewrite (zero_sub (g - tf) af).
    + by rewrite (zero_sub g tf).
Qed.

Lemma zero_area_chain_witness :
  let p0 := mkInputs 0 5 15 60 5 2 0 300 0 0 (Some "perNLA"%string) in
  let p1 := mkInputs 0 5 15 60 5 2 100 0 0 250 (Some "total"%string) in
  is_zero (gla (computeChain p0)) = true /\
  is_zero (ner1 (computeChain p0)) = true /\
  is_zero (ner4 (computeChain p0)) = true /\
  ner2 (computeChain p1) = - 250 / 1e-9 /\
  ner4 (computeChain p1) = (- 250 - 0 - 100) / 1e-9.
Proof.
  cbv zeta.
  destruct (zero_area_chain (mkInputs 0 5 15 60 5 2 0 300 0 0 (Some "perNLA"%string)))
    as (Hg & _ & _ & H1 & _ & _ & _ & _ & _ & _ & _ & _ & _ & H4);
    try (vm_compute; reflexivity).
  destruct (zero_area_chain (mkInputs 0 5 15 60 5 2 100 0 0 250 (Some "total"%string)))
    as (_ & _ & _ & _ & _ & _ & _ & _ & _ & _ & _ & G2 & _ & G4);
    try (vm_compute; reflexivity).
  split; [exact Hg|]. split; [exact H1|]. split; [exact H4|].
  split; [exact G2|exact G4].
Defined.

Lemma collect_lookup (r : string -> option string) (keys : list string) (k : string) :
  collect r keys !! k = if decide (k ∈ keys) then r k else None.
Proof.
  induction keys as [|k0 keys IH]; [done|].
  change (collect r (k0 :: keys))
    with (match r k0 with Some v => <[k0 := v]> (collect r keys) | None => collect r keys end).
  destruct (decide (k = k0)) as [->|Hne].
  - rewrite decide_True by (apply elem_of_cons; by left).
    destruct (r k0) eqn:E; [by rewrite lookup_insert_eq|].
    rewrite IH. by destruct (decide _).
  - assert (Hl : (match r k0 with Some v => <[k0 := v]> (collect r keys)
                  | None => collect r keys end) !! k = collect r keys !! k).
    { destruct (r k0); [by rewrite lookup_insert_ne|done]. }
    rewrite Hl, IH. destruct (decide (k ∈ keys)) as [Hin|Hnin].
    + rewrite decide_True by (apply elem_of_cons; by right). done.
    + rewrite decide_False; [done|]. intros [?|?]%elem_of_cons; done.
Qed.

Lemma effective_lookup (f ov : form) (k : string) :
  k ∈ scenario_keys ->
  effective f ov !! k = match ov !! k with Some v => Some v | None => f !! k end.
Proof.
  intros Hin. unfold effective. rewrite collect_lookup. by rewrite decide_True.
Qed.

Lemma effective_nullish (f ov : form) (k : string) :
  k ∈ scenario_keys ->
  nullish ((ov ∪ f) !! k) (f !! k) = effective f ov !! k.
Proof.
  intros Hin. rewrite nullish_merged, effective_lookup by exact Hin.
  by destruct (ov !! k).
Qed.

(** C5: for every baseline form state and every list of scenarios, the
    scenario row shows for each scenario the [ner4] that the baseline
    engine computes, with the fit-out mode forced to perNLA, from the
    effective parameter set: for each of nla, addon, rent, duration, rf,
    agent, unforeseen and fitPerNLA the override when the key is present,
    the baseline text otherwise.  So the fit-out total of a scenario is
    the effective per-NLA rate times the effective nla, every other step
    is the baseline engine's, and the row does not depend on the
    baseline's fit-out mode. *)
Theorem scenario_resolution (f : form) (scenarios : list Scenario) :
  scenarioView f scenarios =
    (fun sc => (id sc, ner4 (App_chain (<["fitMode" := "perNLA"]> (effective f (overrides sc))))))
      <$> scenarios /\
  (forall ov k, k ∈ scenario_keys ->
     effective f ov !! k = match ov !! k with Some v => Some v | None => f !! k end) /\
  (forall ov,
     totalFit (App_chain (<["fitMode" := "perNLA"]> (effective f ov))) =
     clamp (P (effective f ov !! "fitPerNLA"%string)) 0 *
     clamp (P (effective f ov !! "nla"%string)) 0) /\
  (forall m : string, scenarioView (<["fitMode" := m]> f) scenarios = scenarioView f scenarios).
Proof.
  assert (Hk : forall k, k ∈ scenario_keys <-> In k scenario_keys)
    by (intros k; apply list_elem_of_In).
  split; [|split; [|split]].
  - unfold scenarioView. apply list_fmap_ext. intros _ sc _. cbv zeta. f_equal.
    unfold calcScenarioNER, App_chain. rewrite computeChain_float. unfold guard.
    cbn [nla addon rent duration rf agent unforeseen perNLA perGLA tot fitMode ner4].
    rewrite lookup_insert_eq, !lookup_insert_ne by done.
    rewrite bool_decide_eq_true_2 by done.
    rewrite !effective_nullish by (apply Hk; cbn; tauto). reflexivity.
  - intros ov k. apply effective_lookup.
  - intros ov. unfold App_chain. rewrite computeChain_float. unfold guard.
    cbn [nla addon rent duration rf agent unforeseen perNLA perGLA tot fitMode totalFit].
    rewrite lookup_insert_eq, !lookup_insert_ne by done.
    rewrite bool_decide_eq_true_2 by done. reflexivity.
  - intros m. unfold scenarioView. apply list_fmap_ext. intros _ sc _. cbv zeta. f_equal.
    unfold calcScenarioNER.
    rewrite !nullish_merged, !lookup_insert_ne by done. reflexivity.
Qed.

(* ================================================================== *)
(** * Rounding to nearest is monotone *)
(* ================================================================== *)

(** A number [N / D * 2^E >= 0] is handed to [binary_round_aux] as the
    integer part [m] of [N / D] with the location of the rest; the result
    is the nearest number of the format, and a larger number never rounds
    to a smaller one. *)

Section Rounding.

Local Open Scope Z_scope.

Lemma fexp_eq (x : Z) : fexp prec emax x = Z.max (x - 53) (-1074).
Proof. reflexivity. Qed.

Lemma digits_bounds (m : Z) : 0 < m -> 2 ^ (Zdigits2 m - 1) <= m < 2 ^ Zdigits2 m.
Proof.
  intros Hm. destruct m as [|p|p]; try lia. cbn [Zdigits2]. rewrite digits2_log2.
  replace (Z.log2 (Z.pos p) + 1 - 1) with (Z.log2 (Z.pos p)) by lia.
  pose proof (Z.log2_spec (Z.pos p)). rewrite <- Z.add_1_r in H. lia.
Qed.

Lemma digits_nonneg (m : Z) : 0 <= Zdigits2 m.
Proof. destruct m; cbn [Zdigits2]; lia. Qed.

Lemma digits_pos (m : Z) : 0 < m -> 0 < Zdigits2 m.
Proof. destruct m; cbn [Zdigits2]; lia. Qed.

Lemma digits_unique (m d : Z) : 0 < d -> 2 ^ (d - 1) <= m < 2 ^ d -> Zdigits2 m = d.
Proof.
  intros Hd H. assert (Hm : 0 < m).
  { assert (0 < 2 ^ (d - 1)) by (apply Z.pow_pos_nonneg; lia). lia. }
  destruct m as [|p|p]; try lia. cbn [Zdigits2]. rewrite digits2_log2.
  assert (Z.log2 (Z.pos p) = d - 1); [|lia].
  apply Z.log2_unique; [lia|]. replace (Z.succ (d - 1)) with d by lia. exact H.
Qed.

(** The digits of [m / 2^n]. *)
Lemma digits_shift (m q n : Z) :
  0 <= n -> 0 <= q -> q * 2 ^ n <= m < (q + 1) * 2 ^ n ->
  Zdigits2 q = Z.max (Zdigits2 m - n) 0.
Proof.
  intros Hn Hq H. assert (Hp : 0 < 2 ^ n) by (apply Z.pow_pos_nonneg; lia).
  destruct (Z.eq_dec q 0) as [->|Hq0].
  - cbn [Zdigits2]. destruct (Z.eq_dec m 0) as [->|Hm0]; [cbn; lia|].
    pose proof (digits_bounds m ltac:(lia)) as [Hlo _].
    destruct (Z_lt_le_dec n (Zdigits2 m)) as [Hlt|Hle]; [|lia].
    assert (2 ^ n <= 2 ^ (Zdigits2 m - 1)) by (apply Z.pow_le_mono_r; lia). lia.
  - assert (0 < q) by lia. pose proof (digits_bounds q ltac:(lia)) as [Hlo Hhi].
    pose proof (digits_pos q ltac:(lia)) as Hdq.
    assert (Zdigits2 m = Zdigits2 q + n); [|lia].
    apply digits_unique; [lia|].
    replace (Zdigits2 q + n - 1) with (Zdigits2 q - 1 + n) by lia.
    rewrite !Z.pow_add_r by lia. nia.
Qed.

(** ** Shifting right *)

Lemma loc_record (m : Z) (l : location) :
  loc_of_shr_record (shr_record_of_loc m l) = l /\ shr_m (shr_record_of_loc m l) = m.
Proof. by destruct l as [|[]]. Qed.

Lemma shr_1_inb (m : Z) (l : location) (N D : Z) :
  inb m l N D ->
  exists m' l',
    shr_1 (shr_record_of_loc m l) = shr_record_of_loc m' l' /\
    2 * m' <= m <= 2 * m' + 1 /\ inb m' l' N (2 * D).
Proof.
  intros (HD & Hm & HN & Hl). unfold loc_of in Hl.
  assert (Hcase : exists m', 0 <= m' /\ (m = 2 * m' \/ m = 2 * m' + 1)).
  { exists (m / 2). pose proof (Z.div_mod m 2 ltac:(lia)).
    pose proof (Z.mod_pos_bound m 2 ltac:(lia)).
    split; [apply Z.div_pos; lia|lia]. }
  destruct Hcase as (m' & Hm' & [E|E]).
  - (* even *)
    exists m', (if N =? m * D then loc_Exact else loc_Inexact Lt).
    split; [|split; [lia|]].
    + subst m. destruct m' as [|p|p]; try lia;
        destruct (N =? _); subst l; try reflexivity;
        by destruct (2 * N ?= _).
    + unfold inb, loc_of. repeat split; try lia.
      subst m. replace (m' * (2 * D)) with (2 * m' * D) by ring.
      destruct (Z.eqb_spec N (2 * m' * D)); [reflexivity|].
      f_equal. symmetry. apply Z.compare_lt_iff. nia.
  - (* odd *)
    exists m', (if N =? m * D then loc_Inexact Eq else loc_Inexact Gt).
    split; [|split; [lia|]].
    + subst m. destruct m' as [|p|p]; try lia;
        destruct (N =? _); subst l; try reflexivity;
        by destruct (2 * N ?= _).
    + unfold inb, loc_of. repeat split; try nia.
      subst m.
      destruct (Z.eqb_spec N (m' * (2 * D))) as [E1|E1]; [nia|].
      destruct (Z.eqb_spec N ((2 * m' + 1) * D)) as [E2|E2]; f_equal; symmetry.
      * apply Z.compare_eq_iff. nia.
      * apply Z.compare_gt_iff. nia.
Qed.

Lemma shr_n_inb (n : nat) (m : Z) (l : location) (N D : Z) :
  inb m l N D ->
  exists m' l',
    Nat.iter n shr_1 (shr_record_of_loc m l) = shr_record_of_loc m' l' /\
    m' * 2 ^ Z.of_nat n <= m < (m' + 1) * 2 ^ Z.of_nat n /\
    inb m' l' N (D * 2 ^ Z.of_nat n).
Proof.
  induction n as [|n IH]; intros H.
  - exists m, l. change (2 ^ Z.of_nat 0) with 1. rewrite !Z.mul_1_r.
    split; [reflexivity|]. split; [lia|exact H].
  - destruct (IH H) as (m1 & l1 & E1 & B1 & I1).
    destruct (shr_1_inb m1 l1 N _ I1) as (m2 & l2 & E2 & B2 & I2).
    exists m2, l2. simpl Nat.iter. rewrite E1, E2.
    rewrite Nat2Z.inj_succ, Z.pow_succ_r by lia.
    assert (0 < 2 ^ Z.of_nat n) by (apply Z.pow_pos_nonneg; lia).
    split; [reflexivity|]. split; [nia|].
    replace (D * (2 * 2 ^ Z.of_nat n)) with (2 * (D * 2 ^ Z.of_nat n)) by ring.
    exact I2.
Qed.

(** The first shift of [binary_round_aux]: to the exponent of the format. *)
Lemma shr_fexp_spec (m E : Z) (l : location) (N D : Z) :
  inb m l N D -> E <= fexp prec emax (Zdigits2 m + E) ->
  let E' := fexp prec emax (Zdigits2 m + E) in
  exists m' l',
    shr_fexp prec emax m E l = (shr_record_of_loc m' l', E') /\
    m' * 2 ^ (E' - E) <= m < (m' + 1) * 2 ^ (E' - E) /\
    inb m' l' N (D * 2 ^ (E' - E)) /\
    fexp prec emax (Zdigits2 m' + E') = E'.
Proof.
  intros H HE E'. unfold shr_fexp, shr. fold E'.
  assert (Hcan : forall m', 0 <= m' ->
            m' * 2 ^ (E' - E) <= m < (m' + 1) * 2 ^ (E' - E) ->
            fexp prec emax (Zdigits2 m' + E') = E').
  { intros m' Hm' B. rewrite (digits_shift m m' (E' - E)) by lia.
    subst E'. rewrite !fexp_eq in *. pose proof (digits_nonneg m). lia. }
  destruct (E' - E) as [|p|p] eqn:En; try lia.
  - exists m, l. change (2 ^ 0) with 1. rewrite !Z.mul_1_r.
    split; [f_equal; lia|]. split; [lia|]. split; [exact H|].
    apply Hcan; [apply H|]. rewrite ?En. change (2 ^ 0) with 1. lia.
  - rewrite iter_pos_nat.
    destruct (shr_n_inb (Pos.to_nat p) m l N D H) as (m' & l' & E1 & B & I).
    rewrite positive_nat_Z in B, I.
    exists m', l'. rewrite E1. replace (E + Z.pos p) with E' by lia.
    split; [reflexivity|]. split; [exact B|]. split; [exact I|].
    apply Hcan; [apply I|]. rewrite ?En. exact B.
Qed.

Lemma digits_mono (a b : Z) : 0 <= a <= b -> Zdigits2 a <= Zdigits2 b.
Proof.
  intros [Ha Hab]. destruct (Z.eq_dec a 0) as [->|Hn]; [apply digits_nonneg|].
  pose proof (digits_bounds a ltac:(lia)) as [Hlo _].
  pose proof (digits_bounds b ltac:(lia)) as [_ Hhi].
  destruct (Z_lt_le_dec (Zdigits2 b) (Zdigits2 a)) as [Hlt|Hle]; [|exact Hle].
  assert (2 ^ Zdigits2 b <= 2 ^ (Zdigits2 a - 1))
    by (apply Z.pow_le_mono_r; [lia|lia]). lia.
Qed.

(** ** Rounding the mantissa *)

Lemma rne_bounds (m : Z) (l : location) (N D : Z) :
  inb m l N D ->
  m <= round_nearest_even m l <= m + 1 /\
  (2 * round_nearest_even m l - 1) * D <= 2 * N <= (2 * round_nearest_even m l + 1) * D /\
  (N = m * D -> round_nearest_even m l = m).
Proof.
  intros (HD & Hm & HN & ->). unfold loc_of, round_nearest_even.
  destruct (Z.eqb_spec N (m * D)); [split; [lia|split; [nia|done]]|].
  destruct (Z.compare_spec (2 * N) ((2 * m + 1) * D)); try destruct (Z.even m);
    (split; [lia|split; [nia|lia]]).
Qed.


(** ** The second shift and the result *)

Lemma tail_spec (s : bool) (m' r E' : Z) :
  0 <= m' -> m' <= r <= m' + 1 -> fexp prec emax (Zdigits2 m' + E') = E' ->
  let res :=
    let '(mrs'', e'') := shr_fexp prec emax r E' loc_Exact in
    match shr_m mrs'' with
    | Z0 => S754_zero s
    | Zpos m => if e'' <=? emax - prec then S754_finite s m e'' else S754_infinity s
    | Zneg _ => S754_nan
    end in
  (r = 0 /\ res = S754_zero s) \/
  (exists m'' E'', res = fin s m'' E'' /\ Z.pos m'' * 2 ^ (E'' - E') = r /\ E' <= E'' /\
                   fexp prec emax (Z.pos (digits2_pos m'') + E'') = E'').
Proof.
  intros Hm' Hr Hcan res. subst res.
  assert (Hin : inb r loc_Exact r 1).
  { unfold inb, loc_of. rewrite !Z.mul_1_r, Z.eqb_refl. repeat split; lia. }
  assert (Hdr : Zdigits2 m' <= Zdigits2 r <= Zdigits2 m' + 1).
  { split; [apply digits_mono; lia|].
    destruct (Z.eq_dec m' 0) as [->|Hn].
    - cbn [Zdigits2]. destruct (Z.eq_dec r 0) as [->|?]; [cbn; lia|].
      assert (r = 1) as -> by lia. cbn. lia.
    - pose proof (digits_bounds m' ltac:(lia)) as [_ Hhi].
      pose proof (digits_bounds r ltac:(lia)) as [Hlo _].
      pose proof (digits_pos m' ltac:(lia)).
      destruct (Z_lt_le_dec (Zdigits2 m' + 1) (Zdigits2 r)) as [Hlt|Hle]; [|lia].
      assert (2 ^ (Zdigits2 m' + 1) <= 2 ^ (Zdigits2 r - 1))
        by (apply Z.pow_le_mono_r; lia).
      rewrite Z.pow_add_r in H0 by lia. lia. }
  assert (Hpre : E' <= fexp prec emax (Zdigits2 r + E')).
  { rewrite fexp_eq in *. lia. }
  destruct (shr_fexp_spec r E' loc_Exact r 1 Hin Hpre) as (m'' & l'' & Es & B & I & C).
  set (E'' := fexp prec emax (Zdigits2 r + E')) in *.
  rewrite Es. destruct (loc_record m'' l'') as [_ ->].
  assert (Hstep : E'' = E' \/ (E'' = E' + 1 /\ Zdigits2 m' = 53 /\ Zdigits2 r = 54)).
  { subst E''. rewrite fexp_eq in *. lia. }
  assert (Hex : m'' * 2 ^ (E'' - E') = r).
  { destruct Hstep as [->|(-> & D1 & D2)].
    - rewrite Z.sub_diag in *. change (2 ^ 0) with 1 in *. lia.
    - replace (E' + 1 - E') with 1 in * by lia. change (2 ^ 1) with 2 in *.
      assert (0 < r) by (destruct r; cbn in D2; lia).
      assert (0 < m') by (destruct m'; cbn in D1; lia).
      pose proof (digits_bounds r ltac:(lia)) as [Hlo _].
      pose proof (digits_bounds m' ltac:(lia)) as [_ Hhi].
      rewrite D2 in Hlo. rewrite D1 in Hhi.
      change (2 ^ (54 - 1)) with 9007199254740992 in Hlo.
      change (2 ^ 53) with 9007199254740992 in Hhi. lia. }
  assert (Hpos : 0 < 2 ^ (E'' - E')) by (apply Z.pow_pos_nonneg; lia).
  destruct I as (_ & Hm'' & _ & _).
  destruct m'' as [|p|p]; try lia.
  - left. split; [lia|reflexivity].
  - right. exists p, E''. unfold fin. split; [reflexivity|]. split; [exact Hex|].
    split; [lia|exact C].
Qed.

(** What [binary_round_aux] returns for [N / D * 2^E]. *)
Lemma bra_spec (s : bool) (m E : Z) (l : location) (N D : Z) :
  inb m l N D -> E <= fexp prec emax (Zdigits2 m + E) ->
  let E' := fexp prec emax (Zdigits2 m + E) in
  exists m' l',
    m' * 2 ^ (E' - E) <= m < (m' + 1) * 2 ^ (E' - E) /\
    inb m' l' N (D * 2 ^ (E' - E)) /\
    fexp prec emax (Zdigits2 m' + E') = E' /\
    let r := round_nearest_even m' l' in
    (r = 0 /\ binary_round_aux prec emax s m E l = S754_zero s) \/
    (exists m'' E'',
       binary_round_aux prec emax s m E l = fin s m'' E'' /\
       Z.pos m'' * 2 ^ (E'' - E') = r /\ E' <= E'' /\
       fexp prec emax (Z.pos (digits2_pos m'') + E'') = E'').
Proof.
  intros H HE E'.
  destruct (shr_fexp_spec m E l N D H HE) as (m' & l' & Es & B & I & C). fold E' in Es, B, I, C.
  exists m', l'. split; [exact B|]. split; [exact I|]. split; [exact C|].
  unfold binary_round_aux. rewrite Es.
  destruct (loc_record m' l') as [-> ->].
  pose proof (rne_bounds _ _ _ _ I) as (Hr & _ & _).
  exact (tail_spec s m' _ E' ltac:(apply I) Hr C).
Qed.

(** ** Order of the results *)

Lemma can_digits (m : positive) (E : Z) :
  fexp prec emax (Z.pos (digits2_pos m) + E) = E ->
  -1074 <= E /\ Z.pos (digits2_pos m) <= 53 /\ (-1074 < E -> Z.pos (digits2_pos m) = 53).
Proof. rewrite fexp_eq. lia. Qed.




End Rounding.

(** ** Division, subtraction and the order *)

Section Operations.

Local Open Scope Z_scope.

Lemma bra_sign (s : bool) (m e : Z) (l : location) :
  binary_round_aux prec emax s m e l = with_sign s (binary_round_aux prec emax false m e l).
Proof.
  unfold binary_round_aux.
  destruct (shr_fexp prec emax m e l) as [mrs' e'].
  destruct (shr_fexp prec emax _ e' loc_Exact) as [mrs'' e''].
  destruct (shr_m mrs''); try reflexivity. by destruct (_ <=? _).
Qed.





(** The order of two positive numbers of the format is that of their
    values. *)
Lemma leb_value (ma mb : positive) (ea eb : Z) :
  bounded prec emax ma ea = true -> bounded prec emax mb eb = true ->
  SFleb (S754_finite false ma ea) (S754_finite false mb eb) = true ->
  Z.pos ma * 2 ^ (ea - Z.min ea eb) <= Z.pos mb * 2 ^ (eb - Z.min ea eb).
Proof.
  intros Ba Bb. destruct (bounded_inv ma ea Ba) as [Ca _], (bounded_inv mb eb Bb) as [Cb _].
  destruct (can_digits _ _ Ca) as (Ea0 & Da & Na), (can_digits _ _ Cb) as (Eb0 & Db & Nb).
  pose proof (digits_bounds (Z.pos ma) ltac:(lia)) as [La Ua].
  pose proof (digits_bounds (Z.pos mb) ltac:(lia)) as [Lb Ub].
  cbn [Zdigits2] in *.
  unfold SFleb. cbn [SFcompare].
  destruct (Z.compare_spec ea eb) as [->|Hlt|Hgt]; try discriminate.
  - rewrite Z.min_id, Z.sub_diag. change (2 ^ 0) with 1.
    change (Pos.compare_cont Eq ma mb) with (Pos.compare ma mb).
    destruct (Pos.compare_spec ma mb); try discriminate; lia.
  - intros _. rewrite Z.min_l, Z.sub_diag by lia. change (2 ^ 0) with 1.
    rewrite (Nb ltac:(lia)) in Lb. change (2 ^ (53 - 1)) with 4503599627370496 in Lb.
    assert (Z.pos ma < 9007199254740992).
    { eapply Z.lt_le_trans; [exact Ua|].
      change 9007199254740992 with (2 ^ 53). apply Z.pow_le_mono_r; lia. }
    replace (eb - ea) with ((eb - ea - 1) + 1) by lia.
    rewrite Z.pow_add_r by lia. change (2 ^ 1) with 2.
    assert (0 < 2 ^ (eb - ea - 1)) by (apply Z.pow_pos_nonneg; lia). nia.
Qed.

(** ** Division *)
















(** ** Addition and subtraction *)

Lemma Pos_iter_nat {A} (f : A -> A) (x : A) (p : positive) :
  Pos.iter f x p = Nat.iter (Pos.to_nat p) f x.
Proof. apply Pos2Nat.inj_iter. Qed.

Lemma shl_align_fst (m : positive) (e e' : Z) :
  e' <= e -> Z.pos (shl_align m e e').1 = Z.pos m * 2 ^ (e - e').
Proof.
  intros H. unfold shl_align. destruct (e' - e) as [|p|p] eqn:E; try lia; cbn [fst].
  - replace (e - e') with 0 by lia. change (2 ^ 0) with 1. lia.
  - rewrite Pos_iter_nat, Zpos_iter_xO, positive_nat_Z.
    replace (e - e') with (Z.pos p) by lia. reflexivity.
Qed.



Lemma inb_exact (m : Z) : 0 <= m -> inb m loc_Exact m 1.
Proof.
  intros H. unfold inb, loc_of. rewrite !Z.mul_1_r, Z.eqb_refl. repeat split; lia.
Qed.








End Operations.

(** ** The same, on numbers *)

Section FloatOrder.

Local Open Scope float_scope.










End FloatOrder.

(* ================================================================== *)
(** * The chain is non-increasing after the first step *)
(* ================================================================== *)



(* ================================================================== *)
(** * The waterfall in binary64 *)
(* ================================================================== *)

(** The error of one rounded sum or difference, on values counted in
    units of [2^-1074]. *)
Section Errors.
Local Open Scope Z_scope.

Lemma binary_round_low (s : bool) (p : positive) (e : Z) :
  -1074 <= e ->
  exists mz E,
    binary_round prec emax s p e = binary_round_aux prec emax s (Z.pos mz) E loc_Exact /\
    -1074 <= E <= e /\ Z.pos mz = Z.pos p * 2 ^ (e - E) /\
    E <= fexp prec emax (Zdigits2 (Z.pos mz) + E).
Proof.
  intros He. unfold binary_round, shl_align.
  set (F := fexp prec emax (Z.pos (digits2_pos p) + e)).
  assert (HF : -1074 <= F) by (subst F; rewrite fexp_eq; lia).
  destruct (F - e) as [|d|d] eqn:Ed.
  - exists p, e. split; [reflexivity|]. split; [lia|].
    rewrite Z.sub_diag. change (2 ^ 0) with 1. split; [lia|]. cbn [Zdigits2]. fold F. lia.
  - exists p, e. split; [reflexivity|]. split; [lia|].
    rewrite Z.sub_diag. change (2 ^ 0) with 1. split; [lia|]. cbn [Zdigits2]. fold F. lia.
  - exists (Pos.iter xO p d), F. split; [reflexivity|]. split; [lia|].
    split.
    + rewrite Pos_iter_nat, Zpos_iter_xO, positive_nat_Z.
      replace (e - F) with (Z.pos d) by lia. reflexivity.
    + cbn [Zdigits2]. rewrite Pos_iter_nat, digits_iter_xO, positive_nat_Z.
      replace (Z.pos (digits2_pos p) + Z.pos d + F) with (Z.pos (digits2_pos p) + e) by lia.
      fold F. lia.
Qed.

Lemma abs_cond_Zopp (s : bool) (a b : Z) :
  Z.abs (cond_Zopp s a - cond_Zopp s b) = Z.abs (a - b).
Proof. destruct s; cbn [cond_Zopp]; lia. Qed.

(** Rounding [p * 2^e], a number below [2^k], is off by at most
    [2^(k-54)]. *)
Lemma round_err (s : bool) (p : positive) (e k : Z) :
  -1074 <= e -> -1020 <= k <= 900 ->
  Z.pos p * 2 ^ (e + 1074) < 2 ^ (k + 1074) ->
  SFfinite (binary_round prec emax s p e) = true /\
  Z.abs (Zv (binary_round prec emax s p e) - cond_Zopp s (Z.pos p * 2 ^ (e + 1074)))
    <= 2 ^ (k + 1020).
Proof.
  intros He Hk Hlt.
  destruct (binary_round_low s p e He) as (mz & E & -> & HE & Hmz & P).
  rewrite bra_sign.
  destruct (bra_spec false (Z.pos mz) E loc_Exact (Z.pos mz) 1
              (inb_exact (Z.pos mz) ltac:(lia)) P) as (m' & l' & B & I & C & R).
  set (E' := fexp prec emax (Zdigits2 (Z.pos mz) + E)) in *.
  rewrite Z.mul_1_l in I. cbv zeta in R.
  pose proof (rne_bounds _ _ _ _ I) as (Hr & Hhalf & Hex).
  set (r := round_nearest_even m' l') in *.
  assert (W : 0 < 2 ^ (E + 1074)) by (apply Z.pow_pos_nonneg; lia).
  assert (Hval : Z.pos p * 2 ^ (e + 1074) = Z.pos mz * 2 ^ (E + 1074)).
  { rewrite Hmz, <- Z.mul_assoc, <- Z.pow_add_r by lia. do 2 f_equal. lia. }
  rewrite Hval in *.
  assert (Hdg : Zdigits2 (Z.pos mz) + E <= k).
  { pose proof (digits_bounds (Z.pos mz) ltac:(lia)) as [Lo _].
    pose proof (digits_pos (Z.pos mz) ltac:(lia)) as Hd.
    assert (Hl : 2 ^ (Zdigits2 (Z.pos mz) - 1 + (E + 1074)) < 2 ^ (k + 1074)).
    { rewrite Z.pow_add_r by lia. nia. }
    apply Z.pow_lt_mono_r_iff in Hl; lia. }
  assert (HE' : E <= E' <= k - 53) by (subst E'; rewrite fexp_eq in *; lia).
  assert (HD : 0 < 2 ^ (E' - E)) by (apply Z.pow_pos_nonneg; lia).
  assert (Hm' : 0 <= m') by apply I.
  (* the error of the rounded mantissa *)
  assert (Key : Z.abs (r * 2 ^ (E' + 1074) - Z.pos mz * 2 ^ (E + 1074)) <= 2 ^ (k + 1020)).
  { replace (E' + 1074) with ((E' - E) + (E + 1074)) by lia. rewrite Z.pow_add_r by lia.
    assert (0 < 2 ^ (k + 1020)) by (apply Z.pow_pos_nonneg; lia).
    destruct (Z.eq_dec E' E) as [EE|NE].
    - assert (HD1 : 2 ^ (E' - E) = 1) by (replace (E' - E) with 0 by lia; reflexivity).
      rewrite HD1 in B, Hex, Hhalf |- *.
      assert (Hm1 : m' = Z.pos mz) by lia.
      assert (Hr1 : r = m') by (apply Hex; lia).
      rewrite Hr1, Hm1. replace (Z.pos mz * (1 * 2 ^ (E + 1074)) - Z.pos mz * 2 ^ (E + 1074))
        with 0 by ring. cbn [Z.abs]. lia.
    - replace (E' - E) with ((E' - E - 1) + 1) in * by lia.
      rewrite Z.pow_add_r in * by lia. change (2 ^ 1) with 2 in *.
      set (H2 := 2 ^ (E' - E - 1)) in *.
      assert (0 < H2) by (subst H2; apply Z.pow_pos_nonneg; lia).
      assert (Hb : Z.abs (r * (H2 * 2) - Z.pos mz) <= H2) by lia.
      assert (Hw : H2 * 2 ^ (E + 1074) <= 2 ^ (k + 1020)).
      { subst H2. rewrite <- Z.pow_add_r by lia. apply Z.pow_le_mono_r; lia. }
      replace (r * (H2 * 2 * 2 ^ (E + 1074)) - Z.pos mz * 2 ^ (E + 1074))
        with ((r * (H2 * 2) - Z.pos mz) * 2 ^ (E + 1074)) by ring.
      rewrite Z.abs_mul, (Z.abs_eq (2 ^ (E + 1074))) by lia.
      nia. }
  destruct R as [[R0 ->]|(m'' & E'' & -> & Vr & LE & Cm)].
  - cbn [with_sign SFfinite Zv]. split; [reflexivity|].
    rewrite R0 in Key. destruct s; cbn [cond_Zopp]; lia.
  - assert (Hr53 : r <= 9007199254740992).
    { destruct (Z.eq_dec m' 0) as [->|Hn]; [lia|].
      pose proof (digits_bounds m' ltac:(lia)) as [_ U].
      assert (Zdigits2 m' <= 53) by (rewrite fexp_eq in C; lia).
      assert (2 ^ Zdigits2 m' <= 2 ^ 53) by (apply Z.pow_le_mono_r; lia).
      change (2 ^ 53) with 9007199254740992 in *. lia. }
    assert (HE'' : E'' <= E' + 53).
    { destruct (Z_lt_le_dec (E' + 53) E'') as [Hgt|?]; [exfalso|lia].
      assert (2 ^ 54 <= 2 ^ (E'' - E')) by (apply Z.pow_le_mono_r; lia).
      change (2 ^ 54) with 18014398509481984 in *. nia. }
    unfold fin. destruct (Z.leb_spec E'' (emax - prec)) as [_|Hov].
    2:{ change (emax - prec) with 971 in Hov. lia. }
    cbn [with_sign SFfinite Zv]. split; [reflexivity|].
    rewrite abs_cond_Zopp.
    replace (Z.pos m'' * 2 ^ (E'' + 1074)) with (r * 2 ^ (E' + 1074)); [exact Key|].
    rewrite <- Vr, <- Z.mul_assoc, <- Z.pow_add_r by lia. do 2 f_equal. lia.
Qed.

Lemma normalize_err (z e k : Z) :
  -1074 <= e -> -1020 <= k <= 900 ->
  Z.abs z * 2 ^ (e + 1074) < 2 ^ (k + 1074) ->
  SFfinite (binary_normalize prec emax z e false) = true /\
  Z.abs (Zv (binary_normalize prec emax z e false) - z * 2 ^ (e + 1074)) <= 2 ^ (k + 1020).
Proof.
  intros He Hk Hlt. assert (0 < 2 ^ (k + 1020)) by (apply Z.pow_pos_nonneg; lia).
  destruct z as [|p|p]; cbn [binary_normalize].
  - cbn. split; [reflexivity|lia].
  - apply (round_err false p e k He Hk). exact Hlt.
  - destruct (round_err true p e k He Hk) as [Hf Hb]; [exact Hlt|].
    split; [exact Hf|]. cbn [cond_Zopp] in Hb.
    replace (Z.neg p * 2 ^ (e + 1074)) with (- (Z.pos p * 2 ^ (e + 1074))) by lia.
    exact Hb.
Qed.

Lemma valid_exp (s : bool) (m : positive) (e : Z) :
  valid_binary (S754_finite s m e) = true -> -1074 <= e.
Proof.
  cbn [valid_binary]. intros Hb. destruct (bounded_inv m e Hb) as [Hc _].
  by destruct (can_digits _ _ Hc).
Qed.

Lemma Zv_aligned (s : bool) (m : positive) (e ez : Z) :
  -1074 <= ez <= e ->
  cond_Zopp s (Z.pos (shl_align m e ez).1) * 2 ^ (ez + 1074) = Zv (S754_finite s m e).
Proof.
  intros H. rewrite shl_align_fst by lia. cbn [Zv].
  replace (e + 1074) with ((e - ez) + (ez + 1074)) by lia.
  rewrite (Z.pow_add_r 2 (e - ez) (ez + 1074)) by lia.
  destruct s; cbn [cond_Zopp]; ring.
Qed.

(** The error of a subtraction whose exact result is below [2^k]. *)
Lemma SFsub_err (X Y : spec_float) (k : Z) :
  valid_binary X = true -> valid_binary Y = true ->
  SFfinite X = true -> SFfinite Y = true -> -1020 <= k <= 900 ->
  Z.abs (Zv X - Zv Y) < 2 ^ (k + 1074) ->
  SFfinite (SFsub prec emax X Y) = true /\
  Z.abs (Zv (SFsub prec emax X Y) - (Zv X - Zv Y)) <= 2 ^ (k + 1020).
Proof.
  intros VX VY FX FY Hk Hlt.
  assert (Hp : 0 < 2 ^ (k + 1020)) by (apply Z.pow_pos_nonneg; lia).
  destruct X as [sx| | |sx mx ex], Y as [sy| | |sy my ey]; try discriminate.
  - split; [by destruct sx, sy|]. destruct sx, sy; cbn [SFsub Zv]; lia.
  - cbn [SFsub SFfinite]. split; [reflexivity|]. cbn [Zv].
    destruct sy; cbn [negb cond_Zopp]; lia.
  - cbn [SFsub SFfinite]. split; [reflexivity|]. cbn [Zv]. lia.
  - pose proof (valid_exp _ _ _ VX). pose proof (valid_exp _ _ _ VY).
    cbn [SFsub]. set (ez := Z.min ex ey).
    rewrite <- (Zv_aligned sx mx ex ez), <- (Zv_aligned sy my ey ez) in * by lia.
    rewrite <- Z.mul_sub_distr_r in *.
    apply normalize_err; [lia|exact Hk|].
    rewrite Z.abs_mul, (Z.abs_eq (2 ^ (ez + 1074))) in Hlt; [exact Hlt|].
    apply Z.pow_nonneg; lia.
Qed.

Lemma SFadd_err (X Y : spec_float) (k : Z) :
  valid_binary X = true -> valid_binary Y = true ->
  SFfinite X = true -> SFfinite Y = true -> -1020 <= k <= 900 ->
  Z.abs (Zv X + Zv Y) < 2 ^ (k + 1074) ->
  SFfinite (SFadd prec emax X Y) = true /\
  Z.abs (Zv (SFadd prec emax X Y) - (Zv X + Zv Y)) <= 2 ^ (k + 1020).
Proof.
  intros VX VY FX FY Hk Hlt.
  assert (Hp : 0 < 2 ^ (k + 1020)) by (apply Z.pow_pos_nonneg; lia).
  destruct X as [sx| | |sx mx ex], Y as [sy| | |sy my ey]; try discriminate.
  - split; [by destruct sx, sy|]. destruct sx, sy; cbn [SFadd Zv]; lia.
  - cbn [SFadd SFfinite]. split; [reflexivity|]. cbn [Zv]. lia.
  - cbn [SFadd SFfinite]. split; [reflexivity|]. cbn [Zv]. lia.
  - pose proof (valid_exp _ _ _ VX). pose proof (valid_exp _ _ _ VY).
    cbn [SFadd]. set (ez := Z.min ex ey).
    rewrite <- (Zv_aligned sx mx ex ez), <- (Zv_aligned sy my ey ez) in * by lia.
    rewrite <- Z.mul_add_distr_r in *.
    apply normalize_err; [lia|exact Hk|].
    rewrite Z.abs_mul, (Z.abs_eq (2 ^ (ez + 1074))) in Hlt; [exact Hlt|].
    apply Z.pow_nonneg; lia.
Qed.

End Errors.

Section FloatErrors.
Local Open Scope Z_scope.

Lemma is_finite_SFfinite (x : float) : is_finite x = SFfinite (Prim2SF x).
Proof. rewrite is_finite_SF. by destruct (Prim2SF x). Qed.

Lemma sub_err (x y : float) (k : Z) :
  is_finite x = true -> is_finite y = true -> -1020 <= k <= 900 ->
  Z.abs (Zf x - Zf y) < 2 ^ (k + 1074) ->
  is_finite (x - y)%float = true /\
  Z.abs (Zf (x - y)%float - (Zf x - Zf y)) <= 2 ^ (k + 1020).
Proof.
  rewrite !is_finite_SFfinite. unfold Zf. rewrite sub_spec. intros Fx Fy Hk Hlt.
  apply SFsub_err; try apply Prim2SF_valid; assumption.
Qed.

Lemma add_err (x y : float) (k : Z) :
  is_finite x = true -> is_finite y = true -> -1020 <= k <= 900 ->
  Z.abs (Zf x + Zf y) < 2 ^ (k + 1074) ->
  is_finite (x + y)%float = true /\
  Z.abs (Zf (x + y)%float - (Zf x + Zf y)) <= 2 ^ (k + 1020).
Proof.
  rewrite !is_finite_SFfinite. unfold Zf. rewrite add_spec. intros Fx Fy Hk Hlt.
  apply SFadd_err; try apply Prim2SF_valid; assumption.
Qed.

(** The order of two positive numbers of the format, on their values. *)
Lemma leb_Zv (ma mb : positive) (ea eb : Z) :
  bounded prec emax ma ea = true -> bounded prec emax mb eb = true ->
  SFleb (S754_finite false ma ea) (S754_finite false mb eb) = true ->
  Z.pos ma * 2 ^ (ea + 1074) <= Z.pos mb * 2 ^ (eb + 1074).
Proof.
  intros Ba Bb Hle. pose proof (leb_value _ _ _ _ Ba Bb Hle) as H.
  pose proof (valid_exp false ma ea Ba). pose proof (valid_exp false mb eb Bb).
  set (mu := Z.min ea eb) in *.
  replace (ea + 1074) with ((ea - mu) + (mu + 1074)) by lia.
  replace (eb + 1074) with ((eb - mu) + (mu + 1074)) by lia.
  rewrite (Z.pow_add_r 2 (ea - mu)), (Z.pow_add_r 2 (eb - mu)) by lia.
  assert (0 < 2 ^ (mu + 1074)) by (apply Z.pow_pos_nonneg; lia). nia.
Qed.

(** A number of magnitude at most [b] is finite, and so is its value. *)
Lemma abs_le_Zf (x b : float) (mb : positive) (eb : Z) :
  Prim2SF b = S754_finite false mb eb ->
  (JS.abs x <=? b)%float = true ->
  is_finite x = true /\ Z.abs (Zf x) <= Z.pos mb * 2 ^ (eb + 1074).
Proof.
  intros Hb. unfold JS.abs, Zf. rewrite FloatAxioms.leb_spec, abs_spec, Hb, is_finite_SF.
  pose proof (Prim2SF_valid x) as Vx. pose proof (Prim2SF_valid b) as Vb. rewrite Hb in Vb.
  pose proof (valid_exp false mb eb Vb).
  assert (0 < 2 ^ (eb + 1074)) by (apply Z.pow_pos_nonneg; lia).
  destruct (Prim2SF x) as [s|s| |s m e]; cbn [SFabs]; try discriminate.
  - intros _. split; [reflexivity|]. cbn [Zv]. lia.
  - intros Hle. split; [reflexivity|]. cbn [Zv].
    pose proof (leb_Zv m mb e eb Vx Vb Hle).
    destruct s; cbn [cond_Zopp]; lia.
Qed.

(** A finite number whose value is below that of [1e-9] is less than
    [1e-9] in magnitude. *)
Lemma Zf_lt_eps (x : float) :
  is_finite x = true -> Z.abs (Zf x) < 4835703278458517 * 2 ^ 992 ->
  (JS.abs x <? 1e-9)%float = true.
Proof.
  unfold JS.abs, Zf. rewrite FloatAxioms.ltb_spec, abs_spec, Prim2SF_eps, is_finite_SF.
  pose proof (Prim2SF_valid x) as Vx.
  destruct (Prim2SF x) as [s|s| |s m e]; cbn [SFabs]; try discriminate; [reflexivity|].
  intros _ Hlt. cbn [Zv] in Hlt.
  assert (Hm : Z.pos m * 2 ^ (e + 1074) < 4835703278458517 * 2 ^ 992)
    by (destruct s; cbn [cond_Zopp] in Hlt; lia).
  unfold SFltb.
  destruct (SFcompare (S754_finite false m e) (S754_finite false 4835703278458517 (-82)))
    as [[]|] eqn:Ec; try reflexivity; exfalso.
  - assert (Hle : SFleb (S754_finite false 4835703278458517 (-82)) (S754_finite false m e) = true).
    { unfold SFleb. rewrite SFcompare_antisym, Ec. reflexivity. }
    pose proof (leb_Zv 4835703278458517 m (-82) e eq_refl Vx Hle) as H.
    change (-82 + 1074) with 992 in H. lia.
  - assert (Hle : SFleb (S754_finite false 4835703278458517 (-82)) (S754_finite false m e) = true).
    { unfold SFleb. rewrite SFcompare_antisym, Ec. reflexivity. }
    pose proof (leb_Zv 4835703278458517 m (-82) e eq_refl Vx Hle) as H.
    change (-82 + 1074) with 992 in H. lia.
  - cbn [SFcompare] in Ec. by destruct (e ?= -82).
Qed.

Lemma safe_finite_id (x : float) : is_finite x = true -> safe x = x.
Proof. intros H. unfold safe. cbn [isFinite float_arith]. unfold JS.isFinite. by rewrite H. Qed.

End FloatErrors.

Section WaterfallErrors.
Local Open Scope Z_scope.

(** The lemmas above with the values counted in units of [2^-84], that
    is [2 ^ 990] of the smallest positive number. *)
Lemma sub_err_u (x y : float) (a : Z) :
  is_finite x = true -> is_finite y = true -> 0 <= a <= 900 ->
  - (2 ^ (a + 54) * 2 ^ 990) < Zf x - Zf y < 2 ^ (a + 54) * 2 ^ 990 ->
  is_finite (x - y)%float = true /\
  - (2 ^ a * 2 ^ 990) <= Zf (x - y)%float - (Zf x - Zf y) <= 2 ^ a * 2 ^ 990.
Proof.
  intros Fx Fy Ha Hlt. apply Z.abs_lt in Hlt. rewrite <- Z.abs_le.
  rewrite <- Z.pow_add_r in * by lia.
  replace (a + 990) with ((a - 30) + 1020) by lia.
  apply sub_err; [assumption|assumption|lia|].
  by replace (a - 30 + 1074) with (a + 54 + 990) by lia.
Qed.

Lemma add_err_u (x y : float) (a : Z) :
  is_finite x = true -> is_finite y = true -> 0 <= a <= 900 ->
  - (2 ^ (a + 54) * 2 ^ 990) < Zf x + Zf y < 2 ^ (a + 54) * 2 ^ 990 ->
  is_finite (x + y)%float = true /\
  - (2 ^ a * 2 ^ 990) <= Zf (x + y)%float - (Zf x + Zf y) <= 2 ^ a * 2 ^ 990.
Proof.
  intros Fx Fy Ha Hlt. apply Z.abs_lt in Hlt. rewrite <- Z.abs_le.
  rewrite <- Z.pow_add_r in * by lia.
  replace (a + 990) with ((a - 30) + 1020) by lia.
  apply add_err; [assumption|assumption|lia|].
  by replace (a - 30 + 1074) with (a + 54 + 990) by lia.
Qed.

Lemma abs_le_bound (x : float) :
  (JS.abs x <=? 524288)%float = true ->
  is_finite x = true /\ - (2 ^ 103 * 2 ^ 990) <= Zf x <= 2 ^ 103 * 2 ^ 990.
Proof.
  intros H. rewrite <- Z.abs_le.
  destruct (abs_le_Zf x 524288 4503599627370496 (-33) eq_refl H) as [F B].
  split; [exact F|].
  replace (2 ^ 103 * 2 ^ 990) with (4503599627370496 * 2 ^ (-33 + 1074)); [exact B|].
  change 4503599627370496 with (2 ^ 52). rewrite <- !Z.pow_add_r by lia. reflexivity.
Qed.

Lemma Zf_lt_eps_u (x : float) :
  is_finite x = true ->
  - (19342813113834068 * 2 ^ 990) < Zf x < 19342813113834068 * 2 ^ 990 ->
  (JS.abs x <? 1e-9)%float = true.
Proof.
  intros F H. apply Z.abs_lt in H. apply Zf_lt_eps; [exact F|].
  replace (4835703278458517 * 2 ^ 992) with (19342813113834068 * 2 ^ 990); [exact H|].
  change (2 ^ 992) with (2 ^ (2 + 990)). rewrite (Z.pow_add_r 2 2 990) by lia.
  change (2 ^ 2) with 4. lia.
Qed.

Ltac eval_pows :=
  repeat match goal with
    | |- context [2 ^ ?e] =>
        let v := eval vm_compute in (2 ^ e) in progress change (2 ^ e) with v
    | H : context [2 ^ ?e] |- _ =>
        let v := eval vm_compute in (2 ^ e) in progress change (2 ^ e) with v in H
    end.

(** The chain of four differences and four sums of the waterfall, for
    numbers of magnitude at most [524288 = 2^19]. *)
Lemma fold_close (r n1 n2 n3 n4 : float) :
  (JS.abs r <=? 524288)%float = true ->
  (JS.abs n1 <=? 524288)%float = true ->
  (JS.abs n2 <=? 524288)%float = true ->
  (JS.abs n3 <=? 524288)%float = true ->
  (JS.abs n4 <=? 524288)%float = true ->
  (is_finite r = true /\ is_finite (n1 - r) = true /\ is_finite (n2 - n1) = true /\
   is_finite (n3 - n2) = true /\ is_finite (n4 - n3) = true)%float /\
  (JS.abs (r + (n1 - r) + (n2 - n1) + (n3 - n2) + (n4 - n3) - n4) <? 1e-9)%float = true /\
  (JS.abs ((n1 - r) + (n2 - n1) + (n3 - n2) + (n4 - n3) - (n4 - r)) <? 1e-9)%float = true.
Proof.
  intros Hr H1 H2 H3 H4.
  destruct (abs_le_bound r Hr) as [Fr Br]. destruct (abs_le_bound n1 H1) as [F1 B1].
  destruct (abs_le_bound n2 H2) as [F2 B2]. destruct (abs_le_bound n3 H3) as [F3 B3].
  destruct (abs_le_bound n4 H4) as [F4 B4].
  clear Hr H1 H2 H3 H4.
  set (U := 2 ^ 990) in *.
  assert (HU : 0 < U) by (apply Z.pow_pos_nonneg; lia).
  eval_pows.
  (* the four differences *)
  destruct (sub_err_u n1 r 51 F1 Fr ltac:(lia)) as [Fd1 E1]; [fold U; eval_pows; lia|].
  destruct (sub_err_u n2 n1 51 F2 F1 ltac:(lia)) as [Fd2 E2]; [fold U; eval_pows; lia|].
  destruct (sub_err_u n3 n2 51 F3 F2 ltac:(lia)) as [Fd3 E3]; [fold U; eval_pows; lia|].
  destruct (sub_err_u n4 n3 51 F4 F3 ltac:(lia)) as [Fd4 E4]; [fold U; eval_pows; lia|].
  fold U in E1, E2, E3, E4. eval_pows.
  set (d1 := (n1 - r)%float) in *. set (d2 := (n2 - n1)%float) in *.
  set (d3 := (n3 - n2)%float) in *. set (d4 := (n4 - n3)%float) in *.
  split; [by repeat split|].
  split.
  - (* the running value *)
    destruct (add_err_u r d1 50 Fr Fd1 ltac:(lia)) as [Fc1 C1]; [fold U; eval_pows; lia|].
    fold U in C1. eval_pows. set (c1 := (r + d1)%float) in *.
    destruct (add_err_u c1 d2 50 Fc1 Fd2 ltac:(lia)) as [Fc2 C2]; [fold U; eval_pows; lia|].
    fold U in C2. eval_pows. set (c2 := (c1 + d2)%float) in *.
    destruct (add_err_u c2 d3 50 Fc2 Fd3 ltac:(lia)) as [Fc3 C3]; [fold U; eval_pows; lia|].
    fold U in C3. eval_pows. set (c3 := (c2 + d3)%float) in *.
    destruct (add_err_u c3 d4 50 Fc3 Fd4 ltac:(lia)) as [Fc4 C4]; [fold U; eval_pows; lia|].
    fold U in C4. eval_pows. set (c4 := (c3 + d4)%float) in *.
    destruct (sub_err_u c4 n4 0 Fc4 F4 ltac:(lia)) as [Fe E]; [fold U; eval_pows; lia|].
    fold U in E. eval_pows.
    apply Zf_lt_eps_u; [exact Fe|]. fold U. lia.
  - (* the sum of the four differences *)
    destruct (add_err_u d1 d2 51 Fd1 Fd2 ltac:(lia)) as [Fs1 S1]; [fold U; eval_pows; lia|].
    fold U in S1. eval_pows. set (s1 := (d1 + d2)%float) in *.
    destruct (add_err_u s1 d3 51 Fs1 Fd3 ltac:(lia)) as [Fs2 S2]; [fold U; eval_pows; lia|].
    fold U in S2. eval_pows. set (s2 := (s1 + d3)%float) in *.
    destruct (add_err_u s2 d4 51 Fs2 Fd4 ltac:(lia)) as [Fs3 S3]; [fold U; eval_pows; lia|].
    fold U in S3. eval_pows. set (s3 := (s2 + d4)%float) in *.
    destruct (sub_err_u n4 r 51 F4 Fr ltac:(lia)) as [Ft T]; [fold U; eval_pows; lia|].
    fold U in T. eval_pows. set (t := (n4 - r)%float) in *.
    destruct (sub_err_u s3 t 1 Fs3 Ft ltac:(lia)) as [Fe E]; [fold U; eval_pows; lia|].
    fold U in E. eval_pows.
    apply Zf_lt_eps_u; [exact Fe|]. fold U. lia.
Qed.

End WaterfallErrors.

(** C7: for every parameter set the deltas of the six waterfall steps are
    the headline rent, the four differences ner1 - rent, ner2 - ner1,
    ner3 - ner2 and ner4 - ner3 (each replaced by 0 when it is not
    finite), and the Final NER anchor, which is the rent with the four
    deltas added one after the other.  When the rent and the four NER
    values are at most 524288 in magnitude, the four deltas are the plain
    differences, their sum is less than 1e-9 away from ner4 - rent, and
    the anchor is less than 1e-9 away from ner4. *)
Theorem waterfall_fold (p : Inputs float) :
  let c := computeChain p in
  let dRF := safe (ner1 c - rent p) in
  let dFO := safe (ner2 c - ner1 c) in
  let dAF := safe (ner3 c - ner2 c) in
  let dUC := safe (ner4 c - ner3 c) in
  let anchor := fold_left PrimFloat.add [dRF; dFO; dAF; dUC] (safe (rent p)) in
  delta <$> waterfall p = [safe (rent p); dRF; dFO; dAF; dUC; anchor] /\
  ((JS.abs (rent p) <=? 524288) = true ->
   (JS.abs (ner1 c) <=? 524288) = true -> (JS.abs (ner2 c) <=? 524288) = true ->
   (JS.abs (ner3 c) <=? 524288) = true -> (JS.abs (ner4 c) <=? 524288) = true ->
   dRF = ner1 c - rent p /\ dFO = ner2 c - ner1 c /\
   dAF = ner3 c - ner2 c /\ dUC = ner4 c - ner3 c /\
   (JS.abs (dRF + dFO + dAF + dUC - (ner4 c - rent p)) <? 1e-9) = true /\
   (JS.abs (anchor - ner4 c) <? 1e-9) = true).
Proof.
  cbv zeta. split; [reflexivity|].
  set (c := computeChain p). set (r := rent p).
  generalize (ner1 c) (ner2 c) (ner3 c) (ner4 c). clearbody r. clear c p.
  intros n1 n2 n3 n4 Hr H1 H2 H3 H4.
  destruct (fold_close r n1 n2 n3 n4 Hr H1 H2 H3 H4) as ((Fr & F1 & F2 & F3 & F4) & Ha & Hs).
  rewrite (safe_finite_id _ Fr), (safe_finite_id _ F1), (safe_finite_id _ F2),
    (safe_finite_id _ F3), (safe_finite_id _ F4).
  split; [reflexivity|]. split; [reflexivity|]. split; [reflexivity|]. split; [reflexivity|].
  split; [exact Hs|]. exact Ha.
Qed.

Lemma waterfall_fold_witness :
  let p := guard f_init in
  let c := computeChain p in
  (JS.abs (rent p) <=? 524288) = true /\
  (JS.abs (ner4 c) <=? 524288) = true /\
  (JS.abs (safe (ner1 c - rent p) + safe (ner2 c - ner1 c) + safe (ner3 c - ner2 c)
           + safe (ner4 c - ner3 c) - (ner4 c - rent p)) <? 1e-9) = true /\
  (JS.abs (fold_left PrimFloat.add
             [safe (ner1 c - rent p); safe (ner2 c - ner1 c); safe (ner3 c - ner2 c);
              safe (ner4 c - ner3 c)] (safe (rent p)) - ner4 c) <? 1e-9) = true.
Proof.
  cbv zeta.
  assert (Hr : (JS.abs (rent (guard f_init)) <=? 524288) = true) by (vm_compute; reflexivity).
  assert (H1 : (JS.abs (ner1 (computeChain (guard f_init))) <=? 524288) = true) by (vm_compute; reflexivity).
  assert (H2 : (JS.abs (ner2 (computeChain (guard f_init))) <=? 524288) = true) by (vm_compute; reflexivity).
  assert (H3 : (JS.abs (ner3 (computeChain (guard f_init))) <=? 524288) = true) by (vm_compute; reflexivity).
  assert (H4 : (JS.abs (ner4 (computeChain (guard f_init))) <=? 524288) = true) by (vm_compute; reflexivity).
  split; [exact Hr|]. split; [exact H4|].
  destruct (waterfall_fold (guard f_init)) as [_ H].
  destruct (H Hr H1 H2 H3 H4) as (_ & _ & _ & _ & Hs & Ha).
  split; [exact Hs|exact Ha].
Defined.
